(** * The build store of the ci server (package [db], file [db/db.go])

    A shallow embedding of the storage layer: the bolt key-value engine the
    package is written against (buckets, per-bucket sequences, cursors,
    transactions), the error-absorbing transaction wrapper ([tx], [bucket],
    [dispatch]), and the build-record operations ([CreateBuild], [Build],
    [PendingBuilds], [Refs], [RefBuilds], [SHABuilds]). *)

From Stdlib Require Import ZArith List String Bool Lia.
From Stdlib Require Import Strings.Byte.
From Stdlib Require Import Sorting.Sorted.
Import ListNotations.
Open Scope Z_scope.

(** ** Machine integers and byte strings *)

Definition bytes := list byte.

(** Go's [uint64(v)]: reduction modulo 2^64. *)
Definition uint64 (v : Z) : Z := v mod 2 ^ 64.

(** Go's [int] on the 64-bit platforms the server runs on: two's complement
    wrap-around of a mathematical integer. *)
Definition int (v : Z) : Z := (v + 2 ^ 63) mod 2 ^ 64 - 2 ^ 63.

(** Go's [byte(v)]: the low eight bits. *)
Definition byte_of_Z (v : Z) : byte :=
  match Byte.of_N (Z.to_N (v mod 256)) with
  | Some b => b
  | None => x00
  end.

Definition Z_of_byte (b : byte) : Z := Z.of_N (Byte.to_N b).

(** Go's [[]byte(s)] for a string [s]. *)
Definition bytes_of_string (s : string) : bytes := list_byte_of_string s.

(** [bytes.Compare]: lexicographic order on unsigned bytes, the order in which
    bolt keeps the keys of a bucket. *)
Fixpoint bytes_compare (a b : bytes) : comparison :=
  match a, b with
  | [], [] => Eq
  | [], _ :: _ => Lt
  | _ :: _, [] => Gt
  | x :: a', y :: b' =>
      match N.compare (Byte.to_N x) (Byte.to_N y) with
      | Eq => bytes_compare a' b'
      | c => c
      end
  end.

Definition bytes_eqb (a b : bytes) : bool :=
  match bytes_compare a b with Eq => true | _ => false end.

(** [itob]: the 8-byte big-endian representation of [v]
    ([binary.BigEndian.PutUint64]). *)
Definition itob (v : Z) : bytes :=
  [ byte_of_Z (Z.shiftr v 56); byte_of_Z (Z.shiftr v 48);
    byte_of_Z (Z.shiftr v 40); byte_of_Z (Z.shiftr v 32);
    byte_of_Z (Z.shiftr v 24); byte_of_Z (Z.shiftr v 16);
    byte_of_Z (Z.shiftr v 8);  byte_of_Z v ].

(** [btoi]: [binary.BigEndian.Uint64].  It indexes [b[7]] first, so a slice
    shorter than eight bytes is a run-time panic, modelled by [None]. *)
Definition btoi (b : bytes) : option Z :=
  match b with
  | b0 :: b1 :: b2 :: b3 :: b4 :: b5 :: b6 :: b7 :: _ =>
      Some (Z.lor (Z_of_byte b7)
           (Z.lor (Z.shiftl (Z_of_byte b6) 8)
           (Z.lor (Z.shiftl (Z_of_byte b5) 16)
           (Z.lor (Z.shiftl (Z_of_byte b4) 24)
           (Z.lor (Z.shiftl (Z_of_byte b3) 32)
           (Z.lor (Z.shiftl (Z_of_byte b2) 40)
           (Z.lor (Z.shiftl (Z_of_byte b1) 48)
                  (Z.shiftl (Z_of_byte b0) 56))))))))
  | _ => None
  end.

(** The number a byte string denotes in base 256, most significant byte
    first. *)
Fixpoint be_value (l : bytes) : Z :=
  match l with
  | [] => 0
  | x :: l' => Z_of_byte x * 256 ^ Z.of_nat (List.length l') + be_value l'
  end.

(** ** Errors *)

(** Modelled from the spec: the status of a build, whose declaration is not in
    [db/db.go].  The comment of [PendingBuilds] names [BuildSuccess],
    [BuildError] and [BuildFailed]; the zero value is the queued status. *)
Inductive BuildStatus : Type :=
| BuildQueued
| BuildRunning
| BuildSuccess
| BuildError
| BuildFailed.

(** The error values the package can return: bolt's sentinel errors, the
    three [fmt.Errorf] messages of [validate], the two not-found errors of
    [Build], and the errors of the gob encoder and decoder.  The last one is
    the error of a status transition the state machine of the spec does not
    have. *)
Inductive error : Type :=
| ErrTxNotWritable
| ErrBucketNameRequired
| ErrBucketExists
| ErrIncompatibleValue
| ErrKeyRequired
| ErrKeyTooLarge
| ErrValueTooLarge
| ErrInvalidStart (start : Z)
| ErrInvalidEnd (end_ : Z)
| ErrInvalidStartEnd (start end_ : Z)
| ErrBuildBucketMissing
| ErrIdNotExist (id : Z)
| ErrGobEncode
| ErrGobDecode
| ErrTransition (from to : BuildStatus).

(** The outcome of an exported operation: a value, a returned error, or a
    Go run-time panic. *)
Inductive outcome (A : Type) : Type :=
| Ok (a : A)
| Fail (e : error)
| Panicked.
Arguments Ok {A} a.
Arguments Fail {A} e.
Arguments Panicked {A}.

(** ** Range validation *)

Definition validate (start end_ : Z) : option error :=
  if start <? 0 then Some (ErrInvalidStart start)
  else if end_ <? -1 then Some (ErrInvalidEnd end_)
  else if (end_ >=? 0) && (start >? end_) then Some (ErrInvalidStartEnd start end_)
  else None.

(** ** The bolt engine

    The package is written against [github.com/boltdb/bolt].  A bucket is an
    ordered map from keys to values or nested buckets, with a [uint64]
    sequence counter; a [*bolt.Bucket] of a read-write transaction is the
    path of the bucket from the root, and dereferencing a nil pointer is a
    panic. *)
Module bolt.

Inductive Bucket : Type :=
| MkBucket (sequence : Z) (entries : list (bytes * Node))
with Node : Type :=
| Leaf (value : bytes)
| Nested (child : Bucket).

Definition sequence (b : Bucket) : Z := let 'MkBucket s _ := b in s.
Definition entries (b : Bucket) : list (bytes * Node) := let 'MkBucket _ es := b in es.

Definition empty : Bucket := MkBucket 0 [].

Definition MaxKeySize : Z := 32768.
Definition MaxValueSize : Z := Z.shiftl 1 31 - 2.

(** Entries are kept in key order, as in bolt's B+tree. *)
Fixpoint find (k : bytes) (es : list (bytes * Node)) : option Node :=
  match es with
  | [] => None
  | (k', n) :: es' => if bytes_eqb k k' then Some n else find k es'
  end.

Fixpoint put_entry (k : bytes) (n : Node) (es : list (bytes * Node))
  : list (bytes * Node) :=
  match es with
  | [] => [(k, n)]
  | (k', n') :: es' =>
      match bytes_compare k k' with
      | Lt => (k, n) :: es
      | Eq => (k, n) :: es'
      | Gt => (k', n') :: put_entry k n es'
      end
  end.

Fixpoint delete_entry (k : bytes) (es : list (bytes * Node))
  : list (bytes * Node) :=
  match es with
  | [] => []
  | (k', n') :: es' =>
      if bytes_eqb k k' then es' else (k', n') :: delete_entry k es'
  end.

(** *** Reading a bucket *)

(** [Bucket.Bucket]: nil when the key is absent or is not a bucket. *)
Definition Bucket_Bucket (b : Bucket) (name : bytes) : option Bucket :=
  match find name (entries b) with
  | Some (Nested c) => Some c
  | _ => None
  end.

(** [Bucket.Get]: nil when the key is absent or is a nested bucket. *)
Definition Bucket_Get (b : Bucket) (key : bytes) : option bytes :=
  match find key (entries b) with
  | Some (Leaf v) => Some v
  | _ => None
  end.

(** What a cursor yields from [First] by [Next]: every key in order, with a
    nil value for a nested bucket; [Last] by [Prev] yields the reverse. *)
Definition item (e : bytes * Node) : bytes * option bytes :=
  match e with
  | (k, Leaf v) => (k, Some v)
  | (k, Nested _) => (k, None)
  end.

Definition Cursor_forward (b : Bucket) : list (bytes * option bytes) :=
  map item (entries b).

Definition Cursor_backward (b : Bucket) : list (bytes * option bytes) :=
  rev (Cursor_forward b).

(** *** Writing a bucket; [w] says whether the transaction is writable *)

(** [Bucket.CreateBucket]: the new bucket is empty, with sequence 0. *)
Definition Bucket_CreateBucket (w : bool) (key : bytes) (b : Bucket)
  : error + Bucket :=
  if negb w then inl ErrTxNotWritable
  else match key with
  | [] => inl ErrBucketNameRequired
  | _ :: _ =>
      match find key (entries b) with
      | Some (Nested _) => inl ErrBucketExists
      | Some (Leaf _) => inl ErrIncompatibleValue
      | None => inr (MkBucket (sequence b) (put_entry key (Nested empty) (entries b)))
      end
  end.

Definition Bucket_CreateBucketIfNotExists (w : bool) (key : bytes) (b : Bucket)
  : error + Bucket :=
  match Bucket_CreateBucket w key b with
  | inl ErrBucketExists => inr b
  | inl e => inl e
  | inr b' => inr b'
  end.

(** [Bucket.Put]: the key must not be empty, longer than [MaxKeySize] or the
    name of a nested bucket, and the value not longer than [MaxValueSize]. *)
Definition Bucket_Put (w : bool) (key value : bytes) (b : Bucket)
  : error + Bucket :=
  if negb w then inl ErrTxNotWritable
  else match key with
  | [] => inl ErrKeyRequired
  | _ :: _ =>
      if Z.of_nat (List.length key) >? MaxKeySize then inl ErrKeyTooLarge
      else if Z.of_nat (List.length value) >? MaxValueSize then inl ErrValueTooLarge
      else match find key (entries b) with
      | Some (Nested _) => inl ErrIncompatibleValue
      | _ => inr (MkBucket (sequence b) (put_entry key (Leaf value) (entries b)))
      end
  end.

(** Where the cursor of [Bucket.Delete] stops when it seeks a key: at the
    first entry whose key is not below it. *)
Fixpoint seek (key : bytes) (es : list (bytes * Node)) : option (bytes * Node) :=
  match es with
  | [] => None
  | (k', n') :: es' =>
      match bytes_compare k' key with
      | Lt => seek key es'
      | _ => Some (k', n')
      end
  end.

(** [Bucket.Delete]: the cursor seeks the key and the delete is refused when
    the entry it stops at is a nested bucket, whether or not that entry has
    the key; otherwise the key is removed, and nothing is done for a key that
    does not exist. *)
Definition Bucket_Delete (w : bool) (key : bytes) (b : Bucket)
  : error + Bucket :=
  if negb w then inl ErrTxNotWritable
  else match seek key (entries b) with
  | Some (_, Nested _) => inl ErrIncompatibleValue
  | _ => inr (MkBucket (sequence b) (delete_entry key (entries b)))
  end.

(** [Bucket.NextSequence]: [b.bucket.sequence++] on a [uint64]. *)
Definition Bucket_NextSequence (w : bool) (b : Bucket) : error + (Z * Bucket) :=
  if negb w then inl ErrTxNotWritable
  else let n := uint64 (sequence b + 1) in
       inr (n, MkBucket n (entries b)).

(** *** Transactions and bucket pointers *)

Record Tx : Type := MkTx { root : Bucket; writable : bool }.

Definition BucketRef : Type := list bytes.

Fixpoint resolve (p : BucketRef) (b : Bucket) : option Bucket :=
  match p with
  | [] => Some b
  | n :: p' =>
      match find n (entries b) with
      | Some (Nested c) => resolve p' c
      | _ => None
      end
  end.

Fixpoint replace (p : BucketRef) (new : Bucket) (b : Bucket) : Bucket :=
  match p with
  | [] => new
  | n :: p' =>
      match find n (entries b) with
      | Some (Nested c) =>
          MkBucket (sequence b) (put_entry n (Nested (replace p' new c)) (entries b))
      | _ => b
      end
  end.

(** Run a bucket operation on the bucket a pointer names.  [None] is the
    nil-pointer panic; an operation that returns an error leaves the
    transaction as it was. *)
Definition update_at {A : Type} (p : BucketRef)
    (op : bool -> Bucket -> error + (A * Bucket)) (t : Tx)
  : option ((error + A) * Tx) :=
  match resolve p (root t) with
  | None => None
  | Some b =>
      match op (writable t) b with
      | inl e => Some (inl e, t)
      | inr (a, b') => Some (inr a, MkTx (replace p b' (root t)) (writable t))
      end
  end.

Definition unit_op (op : bool -> Bucket -> error + Bucket)
  : bool -> Bucket -> error + (unit * Bucket) :=
  fun w b => match op w b with inl e => inl e | inr b' => inr (tt, b') end.

Definition ref_Bucket (p : BucketRef) (name : bytes) (t : Tx)
  : option (option BucketRef) :=
  match resolve p (root t) with
  | None => None
  | Some b =>
      match Bucket_Bucket b name with
      | Some _ => Some (Some (p ++ [name]))
      | None => Some None
      end
  end.

Definition ref_Get (p : BucketRef) (key : bytes) (t : Tx)
  : option (option bytes) :=
  match resolve p (root t) with
  | None => None
  | Some b => Some (Bucket_Get b key)
  end.

Definition ref_Cursor (p : BucketRef) (t : Tx)
  : option (list (bytes * option bytes)) :=
  match resolve p (root t) with
  | None => None
  | Some b => Some (Cursor_forward b)
  end.

Definition ref_CreateBucketIfNotExists (p : BucketRef) (name : bytes) (t : Tx)
  : option ((error + BucketRef) * Tx) :=
  update_at p
    (fun w b => match Bucket_CreateBucketIfNotExists w name b with
                | inl e => inl e
                | inr b' => inr (p ++ [name], b')
                end) t.

Definition ref_Put (p : BucketRef) (key value : bytes) (t : Tx)
  : option ((error + unit) * Tx) :=
  update_at p (unit_op (fun w => Bucket_Put w key value)) t.

Definition ref_Delete (p : BucketRef) (key : bytes) (t : Tx)
  : option ((error + unit) * Tx) :=
  update_at p (unit_op (fun w => Bucket_Delete w key)) t.

Definition ref_NextSequence (p : BucketRef) (t : Tx)
  : option ((error + Z) * Tx) :=
  update_at p Bucket_NextSequence t.

(** [Tx.Bucket] and [Tx.CreateBucketIfNotExists] act on the root bucket. *)
Definition Tx_Bucket (name : bytes) (t : Tx) : option BucketRef :=
  match Bucket_Bucket (root t) name with
  | Some _ => Some [name]
  | None => None
  end.

Definition Tx_CreateBucketIfNotExists (name : bytes) (t : Tx)
  : (error + BucketRef) * Tx :=
  match Bucket_CreateBucketIfNotExists (writable t) name (root t) with
  | inl e => (inl e, t)
  | inr r' => (inr [name], MkTx r' (writable t))
  end.

(** *** The database *)

(** [bolt.DB]: the file it was opened on and the committed root bucket. *)
Record DB : Type := MkDB { file : string; committed : Bucket }.

(** [DB.Update]: the function runs in a writable transaction, which is
    committed when the function returns nil and rolled back when it returns
    an error or panics.  Failures of the file system at commit are outside
    the model. *)
Definition Update {A : Type} (f : Tx -> option ((option error * A) * Tx)) (d : DB)
  : outcome A * DB :=
  match f (MkTx (committed d) true) with
  | None => (Panicked, d)
  | Some ((Some e, _), _) => (Fail e, d)
  | Some ((None, a), t') => (Ok a, MkDB (file d) (root t'))
  end.

(** [DB.View]: the function runs in a read-only transaction, which is always
    rolled back. *)
Definition View {A : Type} (f : Tx -> option (option error * A)) (d : DB)
  : outcome A :=
  match f (MkTx (committed d) false) with
  | None => Panicked
  | Some (Some e, _) => Fail e
  | Some (None, a) => Ok a
  end.

End bolt.

(** ** Build records *)

(** Modelled from the spec: the declaration of [BuildType] is not in
    [db/db.go].  The code converts it with [uint64(build.T)], so it is an
    integer type; the spec names push and pull-request as its values. *)
Definition BuildType : Type := Z.
Definition Push : BuildType := 0.
Definition PullRequest : BuildType := 1.

(** Modelled from the spec: the declaration of [Build] is not in [db/db.go].
    The fields [ID], [T], [CloneURL], [Ref], [CommitSHA] and [db] are the ones
    the code uses and [Status] is the one the spec adds; [db] is the
    unexported back pointer to the database, here the file the database was
    opened on. *)
Record Build : Type := MkBuild {
  ID : Z;
  T : BuildType;
  CloneURL : string;
  Ref : string;
  CommitSHA : string;
  Status : BuildStatus;
  db : option string
}.

Definition zero_Build : Build := MkBuild 0 0 "" "" "" BuildQueued None.

Definition set_ID (build : Build) (id : Z) : Build :=
  MkBuild id (T build) (CloneURL build) (Ref build) (CommitSHA build)
          (Status build) (db build).

Definition set_Status (build : Build) (s : BuildStatus) : Build :=
  MkBuild (ID build) (T build) (CloneURL build) (Ref build) (CommitSHA build)
          s (db build).

Definition set_db (build : Build) (d : option string) : Build :=
  MkBuild (ID build) (T build) (CloneURL build) (Ref build) (CommitSHA build)
          (Status build) d.

(** ** The gob codec

    [encoding/gob] is a library of the Go distribution; the store relies on
    three facts about it.  An encoded record decodes, into a zero [Build], to
    the record without its unexported field; and a stream that starts with a
    zero byte announces a message of length zero, in which the decoder finds
    no value. *)
Class GobCodec : Type := {
  gobEncode : Build -> option bytes;
  gobDecode : bytes -> option Build;
  gob_round_trip : forall build buf,
    gobEncode build = Some buf -> gobDecode buf = Some (set_db build None);
  gob_empty_message : forall rest, gobDecode (x00 :: rest) = None
}.

(** ** The database handle *)

(** [type DB struct { db *bolt.DB }]: the handle is identified with the bolt
    database it points to.  The database is open: after [Close] bolt begins
    no transaction and returns an error to every [View] and [Update], which
    is outside the model. *)
Definition DB : Type := bolt.DB.

(** [Open] on a path where no database exists yet. *)
Definition Open (path : string) : DB := bolt.MkDB path bolt.empty.

Definition buildBucket : bytes := bytes_of_string "build".
Definition pendingBucket : bytes := bytes_of_string "pending".
Definition statusBucket : bytes := bytes_of_string "status".
Definition outputBucket : bytes := bytes_of_string "output".
Definition shaBucket : bytes := bytes_of_string "sha".
Definition refBucket : bytes := bytes_of_string "ref".

(** ** The transaction wrapper *)

(** [type tx struct { t *bolt.Tx; err error }]. *)
Record tx : Type := mk_tx { tx_t : bolt.Tx; tx_err : option error }.

(** [type bucket struct { b *bolt.Bucket; t *tx }].  Every [bucket] of a
    transaction points to the one [tx], so [t] is the state that the
    operations below thread; [b] is nil in the bucket a failed create
    returns. *)
Record bucket : Type := mk_bucket { bucket_b : option bolt.BucketRef }.

(** Code that runs on a [*tx]: a state transformer, [None] when it panics. *)
Definition M (A : Type) : Type := tx -> option (A * tx).

Definition ret {A : Type} (a : A) : M A := fun s => Some (a, s).

Definition bind {A B : Type} (m : M A) (k : A -> M B) : M B :=
  fun s => match m s with
           | None => None
           | Some (a, s') => k a s'
           end.

Notation "x <- m ;; k" := (bind m (fun x => k))
  (at level 61, m at next level, right associativity).
Notation "m ;;; k" := (bind m (fun _ => k))
  (at level 61, right associativity).

Definition get_err : M (option error) := fun s => Some (tx_err s, s).

(** Call bolt through a [*bolt.Bucket], recording the error it returns. *)
Definition invoke {A : Type} (b : bucket)
    (op : bolt.BucketRef -> bolt.Tx -> option ((error + A) * bolt.Tx))
  : M (option A) :=
  fun s =>
    match bucket_b b with
    | None => None
    | Some p =>
        match op p (tx_t s) with
        | None => None
        | Some (inl e, t') => Some (None, mk_tx t' (Some e))
        | Some (inr a, t') => Some (Some a, mk_tx t' None)
        end
    end.

Definition bucket_Delete (b : bucket) (k : bytes) : M unit :=
  fun s =>
    match tx_err s with
    | Some _ => Some (tt, s)
    | None => (invoke b (fun p => bolt.ref_Delete p k) ;;; ret tt) s
    end.

(** A nil [*bucket] is [None]. *)
Definition tx_Bucket (n : bytes) : M (option bucket) :=
  fun s =>
    match tx_err s with
    | Some _ => Some (None, s)
    | None =>
        match bolt.Tx_Bucket n (tx_t s) with
        | None => Some (None, s)
        | Some p => Some (Some (mk_bucket (Some p)), s)
        end
    end.

Definition tx_CreateBucketIfNotExists (n : bytes) : M bucket :=
  fun s =>
    let b := mk_bucket None in
    match tx_err s with
    | Some _ => Some (b, s)
    | None =>
        match bolt.Tx_CreateBucketIfNotExists n (tx_t s) with
        | (inl e, t') => Some (b, mk_tx t' (Some e))
        | (inr bk, t') => Some (mk_bucket (Some bk), mk_tx t' None)
        end
    end.

Definition bucket_Bucket (b : bucket) (n : bytes) : M (option bucket) :=
  fun s =>
    match tx_err s with
    | Some _ => Some (None, s)
    | None =>
        match bucket_b b with
        | None => None
        | Some p =>
            match bolt.ref_Bucket p n (tx_t s) with
            | None => None
            | Some None => Some (None, s)
            | Some (Some bk) => Some (Some (mk_bucket (Some bk)), s)
            end
        end
    end.

Definition bucket_Cursor (b : bucket) : M (list (bytes * option bytes)) :=
  fun s =>
    match bucket_b b with
    | None => None
    | Some p =>
        match bolt.ref_Cursor p (tx_t s) with
        | None => None
        | Some c => Some (c, s)
        end
    end.

Definition bucket_Get (b : bucket) (k : bytes) : M (option bytes) :=
  fun s =>
    match bucket_b b with
    | None => None
    | Some p =>
        match bolt.ref_Get p k (tx_t s) with
        | None => None
        | Some v => Some (v, s)
        end
    end.

(** On an error of bolt the method returns its receiver [b], not the empty
    [bkt]. *)
Definition bucket_CreateBucketIfNotExists (b : bucket) (n : bytes) : M bucket :=
  fun s =>
    let bkt := mk_bucket None in
    match tx_err s with
    | Some _ => Some (bkt, s)
    | None =>
        (r <- invoke b (fun p => bolt.ref_CreateBucketIfNotExists p n) ;;
         match r with
         | None => ret b
         | Some bk => ret (mk_bucket (Some bk))
         end) s
    end.

Definition bucket_NextSequence (b : bucket) : M Z :=
  fun s =>
    match tx_err s with
    | Some _ => Some (0, s)
    | None =>
        (r <- invoke b bolt.ref_NextSequence ;;
         match r with
         | None => ret 0
         | Some n => ret n
         end) s
    end.

Definition bucket_Put (b : bucket) (k v : bytes) : M unit :=
  fun s =>
    match tx_err s with
    | Some _ => Some (tt, s)
    | None => (invoke b (fun p => bolt.ref_Put p k v) ;;; ret tt) s
    end.

(** [dispatch]: the function [f] returns its error together with the
    variables of the caller it assigns. *)
Definition dispatch {A : Type} (f : M (option error * A)) (t : bolt.Tx)
  : option ((option error * A) * bolt.Tx) :=
  let tt := mk_tx t None in
  match f tt with
  | None => None
  | Some ((err, a), tt') =>
      match tx_err tt' with
      | Some e => Some ((Some e, a), tx_t tt')
      | None => Some ((err, a), tx_t tt')
      end
  end.

Definition update {A : Type} (f : M (option error * A)) (d : DB)
  : outcome A * DB :=
  bolt.Update (fun t => dispatch f t) d.

Definition view {A : Type} (f : M (option error * A)) (d : DB) : outcome A :=
  bolt.View (fun t => option_map fst (dispatch f t)) d.

(** ** The build store *)

Section Store.

Context {codec : GobCodec}.

(** The function [CreateBuild] runs in its update transaction.  It assigns
    [build.ID] and [buildID] of its caller; the assigned [build] is returned
    beside the error. *)
Definition CreateBuild_update (build : Build) : M (option error * Build) :=
  b <- tx_CreateBucketIfNotExists buildBucket ;;
  buildID <- bucket_NextSequence b ;;
  e <- get_err ;;
  match e with
  | Some e => ret (Some e, build)
  | None =>
      let build := set_ID build buildID in
      match gobEncode build with
      | None => ret (Some ErrGobEncode, build)
      | Some buf =>
          bucket_Put b (itob buildID) buf ;;;
          _ <- tx_CreateBucketIfNotExists shaBucket ;;
          _ <- bucket_CreateBucketIfNotExists b (bytes_of_string (CommitSHA build)) ;;
          commitID <- bucket_NextSequence b ;;
          bucket_Put b (itob commitID) (itob (ID build)) ;;;
          b <- tx_CreateBucketIfNotExists refBucket ;;
          b <- bucket_CreateBucketIfNotExists b (itob (uint64 (T build))) ;;
          b <- bucket_CreateBucketIfNotExists b (bytes_of_string (Ref build)) ;;
          refID <- bucket_NextSequence b ;;
          bucket_Put b (itob refID) (itob (ID build)) ;;;
          b <- tx_CreateBucketIfNotExists pendingBucket ;;
          bucket_Put b (itob buildID) [] ;;;
          ret (None, build)
      end
  end.

(** [CreateBuild] creates a build event. *)
Definition CreateBuild (d : DB) (t : BuildType) (cloneURL ref commitSHA : string)
  : outcome Build * DB :=
  let build := MkBuild 0 t cloneURL ref commitSHA BuildQueued None in
  match update (CreateBuild_update build) d with
  | (Ok build, d') => (Ok (set_db build (Some (bolt.file d))), d')
  | (Fail err, d') => (Fail err, d')
  | (Panicked, d') => (Panicked, d')
  end.

(** [Build] returns the build of a build id; the method is [DB_Build] here,
    [Build] being the record. *)
Definition DB_Build (d : DB) (id : Z) : outcome Build :=
  match
    bolt.View (fun tx =>
      match bolt.Bucket_Bucket (bolt.root tx) buildBucket with
      | None => Some (Some ErrBuildBucketMissing, zero_Build)
      | Some b =>
          match bolt.Bucket_Get b (itob id) with
          | None => Some (Some (ErrIdNotExist id), zero_Build)
          | Some v =>
              match gobDecode v with
              | None => Some (Some ErrGobDecode, zero_Build)
              | Some build => Some (None, build)
              end
          end
      end) d
  with
  | Ok build => Ok (set_db build (Some (bolt.file d)))
  | Fail err => Fail err
  | Panicked => Panicked
  end.

(** [idsToBuilds], with the slice [bs] it appends to. *)
Fixpoint idsToBuilds_from (d : DB) (ids : list Z) (bs : list Build)
  : outcome (list Build) :=
  match ids with
  | [] => Ok bs
  | id :: ids' =>
      match DB_Build d id with
      | Ok b => idsToBuilds_from d ids' (bs ++ [b])
      | Fail err => Fail err
      | Panicked => Panicked
      end
  end.

Definition idsToBuilds (d : DB) (ids : list Z) : outcome (list Build) :=
  idsToBuilds_from d ids [].

(** The loop of [pendingBuilds] over the cursor, from [First] by [Next]. *)
Fixpoint pendingBuilds_loop (c : list (bytes * option bytes)) (ids : list Z)
  : option (list Z) :=
  match c with
  | [] => Some ids
  | (k, _) :: c' =>
      match btoi k with
      | None => None
      | Some buildID => pendingBuilds_loop c' (ids ++ [buildID])
      end
  end.

Definition pendingBuilds (d : DB) : outcome (list Z) :=
  bolt.View (fun tx =>
    match bolt.Bucket_Bucket (bolt.root tx) pendingBucket with
    | None => Some (None, [])
    | Some b =>
        match pendingBuilds_loop (bolt.Cursor_forward b) [] with
        | None => None
        | Some ids => Some (None, ids)
        end
    end) d.

(** [PendingBuilds] returns all pending builds. *)
Definition PendingBuilds (d : DB) : outcome (list Build) :=
  match pendingBuilds d with
  | Ok ids => idsToBuilds d ids
  | Fail err => Fail err
  | Panicked => Panicked
  end.

(** The loop of [Refs]: the keys whose value is nil are the nested
    buckets. *)
Fixpoint Refs_loop (c : list (bytes * option bytes)) (refs : list string)
  : list string :=
  match c with
  | [] => refs
  | (k, None) :: c' => Refs_loop c' (refs ++ [string_of_list_byte k])
  | (k, Some _) :: c' => Refs_loop c' refs
  end.

(** [Refs] returns all refs of a build type. *)
Definition Refs (d : DB) (t : BuildType) : outcome (list string) :=
  bolt.View (fun tx =>
    match bolt.Bucket_Bucket (bolt.root tx) refBucket with
    | None => Some (None, [])
    | Some b =>
        match bolt.Bucket_Bucket b (itob (uint64 t)) with
        | None => Some (None, [])
        | Some b => Some (None, Refs_loop (bolt.Cursor_forward b) [])
        end
    end) d.

(** [btoi(v)] on the value a cursor yields; nil has no eighth byte. *)
Definition btoi_value (v : option bytes) : option Z :=
  match v with
  | None => btoi []
  | Some v => btoi v
  end.

(** The loop of [refBuilds] over the cursor, from [Last] by [Prev]. *)
Fixpoint refBuilds_loop (end_ diff : Z) (c : list (bytes * option bytes))
    (ids : list Z) : option (list Z) :=
  match c with
  | [] => Some ids
  | (k, v) :: c' =>
      if (end_ =? -1) || (Z.of_nat (List.length ids) <? diff) then
        match btoi_value v with
        | None => None
        | Some id => refBuilds_loop end_ diff c' (ids ++ [id])
        end
      else Some ids
  end.

Definition refBuilds (d : DB) (t : BuildType) (ref : string) (start end_ : Z)
  : outcome (list Z) :=
  let diff := int (end_ - start) in
  bolt.View (fun tx =>
    match bolt.Bucket_Bucket (bolt.root tx) refBucket with
    | None => Some (None, [])
    | Some b =>
        match bolt.Bucket_Bucket b (itob (uint64 t)) with
        | None => Some (None, [])
        | Some b =>
            match bolt.Bucket_Bucket b (bytes_of_string ref) with
            | None => Some (None, [])
            | Some b =>
                match refBuilds_loop end_ diff (bolt.Cursor_backward b) [] with
                | None => None
                | Some ids => Some (None, ids)
                end
            end
        end
    end) d.

(** [RefBuilds] returns the builds of a build type and ref. *)
Definition RefBuilds (d : DB) (t : BuildType) (ref : string) (start end_ : Z)
  : outcome (list Build) :=
  match validate start end_ with
  | Some err => Fail err
  | None =>
      if start =? end_ then Ok []
      else
        match refBuilds d t ref start end_ with
        | Ok ids => idsToBuilds d ids
        | Fail err => Fail err
        | Panicked => Panicked
        end
  end.

(** The loop of [shaBuilds] over the cursor, from [First] by [Next]. *)
Fixpoint shaBuilds_loop (c : list (bytes * option bytes)) (ids : list Z)
  : option (list Z) :=
  match c with
  | [] => Some ids
  | (k, v) :: c' =>
      match btoi_value v with
      | None => None
      | Some id => shaBuilds_loop c' (ids ++ [id])
      end
  end.

Definition shaBuilds (d : DB) (sha : string) : outcome (list Z) :=
  bolt.View (fun tx =>
    match bolt.Bucket_Bucket (bolt.root tx) shaBucket with
    | None => Some (None, [])
    | Some b =>
        match bolt.Bucket_Bucket b (bytes_of_string sha) with
        | None => Some (None, [])
        | Some b =>
            match shaBuilds_loop (bolt.Cursor_forward b) [] with
            | None => None
            | Some ids => Some (None, ids)
            end
        end
    end) d.

(** [SHABuilds] returns all builds of a commit SHA. *)
Definition SHABuilds (d : DB) (sha : string) : outcome (list Build) :=
  match shaBuilds d sha with
  | Ok ids => idsToBuilds d ids
  | Fail err => Fail err
  | Panicked => Panicked
  end.

End Store.

(** ** Status transitions *)

Definition terminal (s : BuildStatus) : bool :=
  match s with
  | BuildSuccess | BuildError | BuildFailed => true
  | BuildQueued | BuildRunning => false
  end.

(** A build is pending while it is queued or running. *)
Definition pending (s : BuildStatus) : bool := negb (terminal s).

(** Modelled from the spec: the state machine of status transitions, queued
    to running and running to one of the three terminal statuses; the code
    that moves a build from one status to the next is not in [db/db.go]. *)
Definition forward (from to : BuildStatus) : bool :=
  match from, to with
  | BuildQueued, BuildRunning => true
  | BuildRunning, (BuildSuccess | BuildError | BuildFailed) => true
  | _, _ => false
  end.

Section Transition.

Context {codec : GobCodec}.

(** Modelled from the spec: a status transition, whose code is not in
    [db/db.go].  One update transaction rewrites the [Status] field of the
    stored record and, when the new status is terminal, deletes the entry
    of the build in the pending bucket. *)
Definition Transition_update (id : Z) (s : BuildStatus) : M (option error * unit) :=
  b <- tx_Bucket buildBucket ;;
  match b with
  | None => ret (Some ErrBuildBucketMissing, tt)
  | Some b =>
      v <- bucket_Get b (itob id) ;;
      match v with
      | None => ret (Some (ErrIdNotExist id), tt)
      | Some v =>
          match gobDecode v with
          | None => ret (Some ErrGobDecode, tt)
          | Some build =>
              if forward (Status build) s then
                match gobEncode (set_Status build s) with
                | None => ret (Some ErrGobEncode, tt)
                | Some buf =>
                    bucket_Put b (itob id) buf ;;;
                    p <- tx_CreateBucketIfNotExists pendingBucket ;;
                    (if terminal s then bucket_Delete p (itob id) else ret tt) ;;;
                    ret (None, tt)
                end
              else ret (Some (ErrTransition (Status build) s), tt)
          end
      end
  end.

Definition Transition (d : DB) (id : Z) (s : BuildStatus) : outcome unit * DB :=
  update (Transition_update id s) d.

(** *** Histories *)

(** What happens to a store: builds are created and move through their
    statuses. *)
Inductive event : Type :=
| Create (t : BuildType) (cloneURL ref commitSHA : string)
| Move (id : Z) (s : BuildStatus).

(** The store after an event, with the IDs [CreateBuild] has returned. *)
Definition apply_event (st : DB * list Z) (ev : event) : DB * list Z :=
  let '(d, ids) := st in
  match ev with
  | Create t cloneURL ref commitSHA =>
      match CreateBuild d t cloneURL ref commitSHA with
      | (Ok build, d') => (d', ids ++ [ID build])
      | (_, d') => (d', ids)
      end
  | Move id s => (snd (Transition d id s), ids)
  end.

Definition history (evs : list event) (path : string) : DB * list Z :=
  fold_left apply_event evs (Open path, []).

(** The arguments of a call of [CreateBuild]. *)
Record call : Type := MkCall {
  call_T : BuildType;
  call_CloneURL : string;
  call_Ref : string;
  call_CommitSHA : string
}.

Definition create (d : DB) (c : call) : DB :=
  snd (CreateBuild d (call_T c) (call_CloneURL c) (call_Ref c) (call_CommitSHA c)).

(** The store after a sequence of calls of [CreateBuild], failed ones
    included. *)
Definition creates (cs : list call) (d : DB) : DB := fold_left create cs d.

End Transition.

(** ** Scripts of wrapper operations *)

(** The writing operations of the wrapper, with the bucket each is called
    on. *)
Inductive op : Type :=
| OpPut (b : bucket) (k v : bytes)
| OpDelete (b : bucket) (k : bytes)
| OpNextSequence (b : bucket)
| OpCreateBucket (n : bytes)
| OpCreateNested (b : bucket) (n : bytes).

Definition run_op (o : op) : M unit :=
  match o with
  | OpPut b k v => bucket_Put b k v
  | OpDelete b k => bucket_Delete b k
  | OpNextSequence b => bucket_NextSequence b ;;; ret tt
  | OpCreateBucket n => tx_CreateBucketIfNotExists n ;;; ret tt
  | OpCreateNested b n => bucket_CreateBucketIfNotExists b n ;;; ret tt
  end.

Fixpoint run_ops (os : list op) : M unit :=
  match os with
  | [] => ret tt
  | o :: os' => run_op o ;;; run_ops os'
  end.

(** The error in what a bolt operation returns, when it returns one. *)
Definition returned_error {A : Type} (r : option ((error + A) * bolt.Tx))
  : option error :=
  match r with
  | Some (inl e, _) => Some e
  | _ => None
  end.

(** The error bolt returns to a writing operation of the wrapper when the
    operation reaches bolt on the transaction [t]. *)
Definition bolt_error (o : op) (t : bolt.Tx) : option error :=
  match o with
  | OpPut b k v =>
      match bucket_b b with
      | Some p => returned_error (bolt.ref_Put p k v t)
      | None => None
      end
  | OpDelete b k =>
      match bucket_b b with
      | Some p => returned_error (bolt.ref_Delete p k t)
      | None => None
      end
  | OpNextSequence b =>
      match bucket_b b with
      | Some p => returned_error (bolt.ref_NextSequence p t)
      | None => None
      end
  | OpCreateBucket n => returned_error (Some (bolt.Tx_CreateBucketIfNotExists n t))
  | OpCreateNested b n =>
      match bucket_b b with
      | Some p => returned_error (bolt.ref_CreateBucketIfNotExists p n t)
      | None => None
      end
  end.

(** A method call through a [*bucket] that may be nil, as the pointer
    [tx.Bucket] and [bucket.Bucket] return: every method reads [b.t] or
    [b.b] of its receiver first, so on a nil receiver it panics. *)
Definition on_bucket {A : Type} (p : option bucket) (m : bucket -> M A) : M A :=
  fun s =>
    match p with
    | Some b => m b s
    | None => None
    end.

(** A transaction function that goes on after a failed create: it looks the
    build bucket up and puts a key in it. *)
Definition put_after_failed_create : M (option error * unit) :=
  tx_CreateBucketIfNotExists [] ;;;
  (p <- tx_Bucket buildBucket ;;
   on_bucket p (fun b => bucket_Put b (itob 1) []) ;;;
   ret (None, tt)).

(** ** A codec to run the store with

    A small self-delimiting codec that has the properties of [GobCodec]:
    numbers in unary, strings byte by byte, behind a leading [x01]. *)
Module sample.

Fixpoint enc_nat (n : nat) : bytes :=
  match n with
  | O => [x00]
  | S n' => x01 :: enc_nat n'
  end.

Fixpoint dec_nat (l : bytes) : option (nat * bytes) :=
  match l with
  | x00 :: rest => Some (O, rest)
  | x01 :: l' =>
      match dec_nat l' with
      | Some (n, rest) => Some (S n, rest)
      | None => None
      end
  | _ => None
  end.

Definition enc_Z (z : Z) : bytes :=
  (if z <? 0 then x01 else x00) :: enc_nat (Z.abs_nat z).

Definition dec_Z (l : bytes) : option (Z * bytes) :=
  match l with
  | sign :: l' =>
      match dec_nat l' with
      | Some (n, rest) =>
          Some (if Byte.eqb sign x01 then - Z.of_nat n else Z.of_nat n, rest)
      | None => None
      end
  | [] => None
  end.

Fixpoint enc_bytes (s : bytes) : bytes :=
  match s with
  | [] => [x00]
  | c :: s' => x01 :: c :: enc_bytes s'
  end.

Fixpoint dec_bytes (fuel : nat) (l : bytes) : option (bytes * bytes) :=
  match fuel with
  | O => None
  | S fuel' =>
      match l with
      | x00 :: rest => Some ([], rest)
      | x01 :: c :: l' =>
          match dec_bytes fuel' l' with
          | Some (s, rest) => Some (c :: s, rest)
          | None => None
          end
      | _ => None
      end
  end.

Definition enc_string (s : string) : bytes := enc_bytes (list_byte_of_string s).

Definition dec_string (l : bytes) : option (string * bytes) :=
  match dec_bytes (S (List.length l)) l with
  | Some (s, rest) => Some (string_of_list_byte s, rest)
  | None => None
  end.

Definition enc_status (s : BuildStatus) : byte :=
  match s with
  | BuildQueued => x00
  | BuildRunning => x01
  | BuildSuccess => x02
  | BuildError => x03
  | BuildFailed => x04
  end.

Definition dec_status (c : byte) : option BuildStatus :=
  match c with
  | x00 => Some BuildQueued
  | x01 => Some BuildRunning
  | x02 => Some BuildSuccess
  | x03 => Some BuildError
  | x04 => Some BuildFailed
  | _ => None
  end.

Definition encode (build : Build) : option bytes :=
  Some (x01 :: enc_Z (ID build) ++ enc_Z (T build)
            ++ enc_string (CloneURL build) ++ enc_string (Ref build)
            ++ enc_string (CommitSHA build) ++ [enc_status (Status build)]).

Definition decode (l : bytes) : option Build :=
  match l with
  | x01 :: l =>
      match dec_Z l with
      | Some (id, l) =>
      match dec_Z l with
      | Some (t, l) =>
      match dec_string l with
      | Some (cloneURL, l) =>
      match dec_string l with
      | Some (ref, l) =>
      match dec_string l with
      | Some (commitSHA, c :: _) =>
          match dec_status c with
          | Some s => Some (MkBuild id t cloneURL ref commitSHA s None)
          | None => None
          end
      | _ => None
      end
      | None => None
      end
      | None => None
      end
      | None => None
      end
      | None => None
      end
  | _ => None
  end.

End sample.

(** ** Notions the properties are stated with *)

(** The nested bucket under a name, the empty bucket when there is none. *)
Definition child (n : bytes) (b : bolt.Bucket) : bolt.Bucket :=
  match bolt.Bucket_Bucket b n with
  | Some c => c
  | None => bolt.empty
  end.

Definition set_child (n : bytes) (c : bolt.Bucket) (b : bolt.Bucket) : bolt.Bucket :=
  bolt.MkBucket (bolt.sequence b) (bolt.put_entry n (bolt.Nested c) (bolt.entries b)).

(** The bucket once a nested bucket of the given name is there. *)
Definition ensure (n : bytes) (b : bolt.Bucket) : bolt.Bucket :=
  match bolt.Bucket_Bucket b n with
  | Some _ => b
  | None => set_child n bolt.empty b
  end.

Definition set_entries (es : list (bytes * bolt.Node)) (b : bolt.Bucket) : bolt.Bucket :=
  bolt.MkBucket (bolt.sequence b) es.

Definition set_sequence (n : Z) (b : bolt.Bucket) : bolt.Bucket :=
  bolt.MkBucket n (bolt.entries b).

Definition keys (b : bolt.Bucket) : list bytes := map fst (bolt.entries b).

(** The state of a wrapper in a writable transaction on the root [r], before
    any error. *)
Definition writing (r : bolt.Bucket) : tx := mk_tx (bolt.MkTx r true) None.

(** A run that ends with an error, returned or remembered. *)
Definition failed_run {A : Type} (x : option ((option error * A) * tx)) : Prop :=
  match x with
  | Some ((Some _, _), _) => True
  | Some ((None, _), s) => tx_err s <> None
  | None => False
  end.

(** The errors of [validate]. *)
Definition validation_error (e : error) : bool :=
  match e with
  | ErrInvalidStart _ | ErrInvalidEnd _ | ErrInvalidStartEnd _ _ => true
  | _ => false
  end.

(** A Go [int]. *)
Definition is_int (v : Z) : Prop := - 2 ^ 63 <= v < 2 ^ 63.

(** What the calls of [CreateBuild] leave in the sha and ref buckets: nothing
    under sha, and under ref only the build types and refs of the calls. *)
Definition indexed_by (cs : list call) (r : bolt.Bucket) : Prop :=
  (forall k, bolt.find k (bolt.entries (child shaBucket r)) = None) /\
  (forall tk TB,
      bolt.Bucket_Bucket (child refBucket r) tk = Some TB ->
      (exists c, In c cs /\ tk = itob (uint64 (call_T c))) /\
      (forall rk FB,
          bolt.Bucket_Bucket TB rk = Some FB ->
          exists c, In c cs /\ tk = itob (uint64 (call_T c)) /\
                    rk = bytes_of_string (call_Ref c))).

(** Strictly ascending, for keys and for IDs. *)
Fixpoint ascending_keys (l : list bytes) : Prop :=
  match l with
  | [] => True
  | k :: l' =>
      match l' with
      | [] => True
      | k' :: _ => bytes_compare k k' = Lt
      end /\ ascending_keys l'
  end.

Fixpoint ascending (l : list Z) : Prop :=
  match l with
  | [] => True
  | x :: l' =>
      match l' with
      | [] => True
      | y :: _ => x < y
      end /\ ascending l'
  end.

Section Pending_invariant_def.

Context {codec : GobCodec}.

(** The invariant of the pending index: the sequence of the build bucket is
    even; every ID [CreateBuild] has returned is odd and has a stored record
    that decodes to a build of that ID, which has an entry in the pending
    bucket exactly when its status is pending; and the keys of the pending
    bucket are in order and are keys of such IDs. *)
Definition pending_indexed (d : DB) (ids : list Z) : Prop :=
  let B := child buildBucket (bolt.committed d) in
  let P := child pendingBucket (bolt.committed d) in
  (exists n, bolt.sequence B = 2 * n /\ 0 <= bolt.sequence B < 2 ^ 64) /\
  (forall id, In id ids ->
     (exists n, id = 2 * n + 1) /\ 0 <= id < 2 ^ 64 /\
     exists buf build,
       bolt.find (itob id) (bolt.entries B) = Some (bolt.Leaf buf) /\
       gobDecode buf = Some build /\ ID build = id /\
       (In (itob id) (keys P) <-> pending (Status build) = true)) /\
  ascending_keys (keys P) /\
  (forall k, In k (keys P) -> exists id, In id ids /\ k = itob id).

End Pending_invariant_def.


(** ** The builds a sequence of calls has created *)

Section Created.

Context {codec : GobCodec}.

(** The calls of a sequence that return a build, each with its build, oldest
    first. *)
Fixpoint created (cs : list call) (d : DB) : list (call * Build) :=
  match cs with
  | [] => []
  | c :: cs' =>
      match CreateBuild d (call_T c) (call_CloneURL c) (call_Ref c) (call_CommitSHA c) with
      | (Ok b, d') => (c, b) :: created cs' d'
      | (_, d') => created cs' d'
      end
  end.

End Created.

(** Whether a call is for the ref bucket of a build type and ref. *)
Definition same_ref (t : BuildType) (ref : string) (c : call) : bool :=
  (uint64 (call_T c) =? uint64 t) && String.eqb (call_Ref c) ref.

(** The builds of a build type and ref among created ones, oldest first. *)
Definition ref_builds (t : BuildType) (ref : string) (log : list (call * Build))
  : list Build :=
  map snd (filter (fun p => same_ref t ref (fst p)) log).

(** The entries of a ref bucket: the IDs under the keys [j], [j + 1], ... *)
Fixpoint numbered (j : Z) (ids : list Z) : list (bytes * bolt.Node) :=
  match ids with
  | [] => []
  | id :: ids' => (itob j, bolt.Leaf (itob id)) :: numbered (j + 1) ids'
  end.

(** The first [m] odd numbers. *)
Definition odd_ids (m : nat) : list Z := map (fun k => 2 * Z.of_nat k + 1) (seq 0 m).

(** The store after calls of [CreateBuild] that created the builds of
    [log]: the sequence of the build bucket, the IDs, the stored records,
    the entries of the pending bucket and those of every ref bucket. *)
Definition logged {codec : GobCodec} (d : DB) (log : list (call * Build)) : Prop :=
  let r := bolt.committed d in
  let B := child buildBucket r in
  let P := child pendingBucket r in
  bolt.sequence B = 2 * Z.of_nat (List.length log) /\
  map (fun p => ID (snd p)) log = odd_ids (List.length log) /\
  (forall c b, In (c, b) log ->
     b = MkBuild (ID b) (call_T c) (call_CloneURL c) (call_Ref c) (call_CommitSHA c)
           BuildQueued (Some (bolt.file d)) /\
     exists buf,
       bolt.find (itob (ID b)) (bolt.entries B) = Some (bolt.Leaf buf) /\
       gobDecode buf = Some (set_db b None)) /\
  bolt.entries P = map (fun p => (itob (ID (snd p)), bolt.Leaf [])) log /\
  (forall t ref,
     let FB := child (bytes_of_string ref)
                 (child (itob (uint64 t)) (child refBucket r)) in
     bolt.sequence FB = Z.of_nat (List.length (ref_builds t ref log)) /\
     bolt.entries FB = numbered 1 (map ID (ref_builds t ref log))).

(** The build-type buckets after calls that created the builds of [log]:
    each holds nested buckets only, in ascending order of keys, one for each
    ref of a created build of the type. *)
Definition refs_listed (d : DB) (log : list (call * Build)) : Prop :=
  forall t : BuildType,
    let TB := child (itob (uint64 t)) (child refBucket (bolt.committed d)) in
    Forall (fun e => exists c, snd e = bolt.Nested c) (bolt.entries TB) /\
    ascending_keys (keys TB) /\
    (forall k, In k (keys TB) <->
       exists c b, In (c, b) log /\ uint64 (call_T c) = uint64 t /\
                   k = bytes_of_string (call_Ref c)).

(** The build bucket after calls that created the builds of [log]: under a
    key is the record of a created build, or the ID of a created build under
    the key of the ID plus one, or the nested bucket of a commit SHA. *)
Definition build_keys (d : DB) (log : list (call * Build)) : Prop :=
  forall k n,
    bolt.find k (bolt.entries (child buildBucket (bolt.committed d))) = Some n ->
    (exists c b, In (c, b) log /\ k = itob (ID b)) \/
    (exists c b, In (c, b) log /\ k = itob (ID b + 1) /\ n = bolt.Leaf (itob (ID b))) \/
    (exists c, n = bolt.Nested c).

(** The builds [refBuilds] keeps of the builds of a ref, newest first: all
    of them when [end] is -1, else the first [diff]. *)
Definition kept {A : Type} (end_ diff : Z) (l : list A) : list A :=
  if end_ =? -1 then l else firstn (Z.to_nat diff) l.

(** Four calls for the examples; the third has no commit SHA and fails. *)
Definition example_calls : list call :=
  [MkCall Push "https://host/r" "main" "abc123";
   MkCall Push "https://host/r" "dev" "abc123";
   MkCall Push "https://host/r" "main" "";
   MkCall Push "https://host/r" "main" "def456"].

(** * Properties *)

(** ** Integers and byte strings *)

Lemma Z_of_byte_of_Z v : Z_of_byte (byte_of_Z v) = v mod 256.
Proof.
  unfold Z_of_byte, byte_of_Z.
  assert (Hr : 0 <= v mod 256 < 256) by (apply Z.mod_pos_bound; lia).
  destruct (Byte.of_N (Z.to_N (v mod 256))) as [b|] eqn:E.
  - apply Byte.to_of_N in E. rewrite E. lia.
  - apply Byte.of_N_None_iff in E. lia.
Qed.

Lemma Z_of_byte_range b : 0 <= Z_of_byte b < 256.
Proof. unfold Z_of_byte. pose proof (Byte.to_N_bounded b). lia. Qed.

Lemma byte_of_Z_of_byte b : byte_of_Z (Z_of_byte b) = b.
Proof.
  unfold byte_of_Z. rewrite Z.mod_small by apply Z_of_byte_range.
  unfold Z_of_byte. rewrite N2Z.id, Byte.of_to_N. reflexivity.
Qed.


Lemma lor_byte_step v k k' : 0 <= k -> k' = k + 8 ->
  Z.lor (Z.shiftl (Z_of_byte (byte_of_Z (Z.shiftr v k))) k)
        (Z.shiftl (Z.shiftr v k') k')
  = Z.shiftl (Z.shiftr v k) k.
Proof.
  intros Hk ->. rewrite Z_of_byte_of_Z. change 256 with (2 ^ 8).
  apply Z.bits_inj'. intros n Hn.
  rewrite Z.lor_spec.
  destruct (Z.ltb_spec n k).
  - rewrite !Z.shiftl_spec_low by lia. reflexivity.
  - rewrite !(Z.shiftl_spec _ k) by lia.
    destruct (Z.ltb_spec n (k + 8)).
    + rewrite Z.mod_pow2_bits_low by lia.
      rewrite Z.shiftl_spec_low by lia. apply orb_false_r.
    + rewrite Z.mod_pow2_bits_high by lia.
      rewrite Z.shiftl_spec by lia. rewrite !Z.shiftr_spec by lia.
      simpl. f_equal. lia.
Qed.

Lemma btoi_itob v : 0 <= v < 2 ^ 64 -> btoi (itob v) = Some v.
Proof.
  intros Hv. unfold itob, btoi. f_equal.
  assert (Htop : Z.shiftl (Z_of_byte (byte_of_Z (Z.shiftr v 56))) 56
                 = Z.shiftl (Z.shiftr v 56) 56).
  { rewrite Z_of_byte_of_Z. rewrite Z.mod_small; [reflexivity|].
    rewrite Z.shiftr_div_pow2 by lia. split.
    - apply Z.div_pos; lia.
    - apply Z.div_lt_upper_bound; lia. }
  rewrite Htop.
  rewrite (lor_byte_step v 48 56) by lia.
  rewrite (lor_byte_step v 40 48) by lia.
  rewrite (lor_byte_step v 32 40) by lia.
  rewrite (lor_byte_step v 24 32) by lia.
  rewrite (lor_byte_step v 16 24) by lia.
  rewrite (lor_byte_step v 8 16) by lia.
  pose proof (lor_byte_step v 0 8) as H0.
  rewrite !Z.shiftl_0_r, !Z.shiftr_0_r in H0.
  apply H0; lia.
Qed.

Lemma itob_inj a b : 0 <= a < 2 ^ 64 -> 0 <= b < 2 ^ 64 -> itob a = itob b -> a = b.
Proof.
  intros Ha Hb E. apply btoi_itob in Ha, Hb. rewrite E in Ha. congruence.
Qed.

Lemma bytes_compare_eq a b : bytes_compare a b = Eq <-> a = b.
Proof.
  revert b. induction a as [|x a IH]; intros [|y b]; simpl; split;
    try discriminate; try reflexivity.
  - destruct (N.compare_spec (Byte.to_N x) (Byte.to_N y)) as [E| |]; try discriminate.
    intros H. apply IH in H. subst.
    assert (Some x = Some y) by (rewrite <- !Byte.of_to_N; congruence).
    congruence.
  - intros [= -> ->]. rewrite N.compare_refl. apply IH. reflexivity.
Qed.

Lemma bytes_eqb_eq a b : bytes_eqb a b = true <-> a = b.
Proof.
  unfold bytes_eqb. rewrite <- bytes_compare_eq.
  destruct (bytes_compare a b); split; congruence.
Qed.

Lemma bytes_eqb_refl a : bytes_eqb a a = true.
Proof. apply bytes_eqb_eq. reflexivity. Qed.

Lemma bytes_eqb_neq a b : a <> b -> bytes_eqb a b = false.
Proof.
  intros H. destruct (bytes_eqb a b) eqn:E; [|reflexivity].
  apply bytes_eqb_eq in E. contradiction.
Qed.

Lemma be_value_range l : 0 <= be_value l < 256 ^ Z.of_nat (List.length l).
Proof.
  induction l as [|x l IH].
  - simpl. lia.
  - cbn [be_value List.length]. rewrite Nat2Z.inj_succ, Z.pow_succ_r by lia.
    pose proof (Z_of_byte_range x). nia.
Qed.

Lemma bytes_compare_be_value a b :
  List.length a = List.length b ->
  bytes_compare a b = (be_value a ?= be_value b).
Proof.
  revert b. induction a as [|x a IH]; intros [|y b] Hlen; try discriminate.
  - reflexivity.
  - injection Hlen as Hlen. cbn [bytes_compare be_value].
    rewrite <- Hlen.
    pose proof (be_value_range a) as Ra. pose proof (be_value_range b) as Rb.
    rewrite <- Hlen in Rb.
    rewrite <- (N2Z.inj_compare (Byte.to_N x) (Byte.to_N y)). fold (Z_of_byte x) (Z_of_byte y).
    destruct (Z.compare_spec (Z_of_byte x) (Z_of_byte y)) as [E|L|G].
    + rewrite E, Z.add_compare_mono_l. apply IH, Hlen.
    + symmetry. apply Z.compare_lt_iff. nia.
    + symmetry. apply Z.compare_gt_iff. nia.
Qed.

Lemma be_value_itob v : 0 <= v < 2 ^ 64 -> be_value (itob v) = v.
Proof.
  intros Hv. unfold itob. cbn [be_value List.length].
  rewrite !Z_of_byte_of_Z, !Z.shiftr_div_pow2 by lia.
  change (256 ^ Z.of_nat 0) with 1.
  change (256 ^ Z.of_nat 1) with (2^8).
  change (256 ^ Z.of_nat 2) with (2^16).
  change (256 ^ Z.of_nat 3) with (2^24).
  change (256 ^ Z.of_nat 4) with (2^32).
  change (256 ^ Z.of_nat 5) with (2^40).
  change (256 ^ Z.of_nat 6) with (2^48).
  change (256 ^ Z.of_nat 7) with (2^56).
  pose proof (Z.div_mod v 256).
  pose proof (Z.div_mod (v / 2^8) 256).
  pose proof (Z.div_mod (v / 2^16) 256).
  pose proof (Z.div_mod (v / 2^24) 256).
  pose proof (Z.div_mod (v / 2^32) 256).
  pose proof (Z.div_mod (v / 2^40) 256).
  pose proof (Z.div_mod (v / 2^48) 256).
  assert (v / 2^8 / 256 = v / 2^16) by (rewrite Z.div_div by lia; reflexivity).
  assert (v / 2^16 / 256 = v / 2^24) by (rewrite Z.div_div by lia; reflexivity).
  assert (v / 2^24 / 256 = v / 2^32) by (rewrite Z.div_div by lia; reflexivity).
  assert (v / 2^32 / 256 = v / 2^40) by (rewrite Z.div_div by lia; reflexivity).
  assert (v / 2^40 / 256 = v / 2^48) by (rewrite Z.div_div by lia; reflexivity).
  assert (v / 2^48 / 256 = v / 2^56) by (rewrite Z.div_div by lia; reflexivity).
  assert (0 <= v / 2^56 < 256).
  { split. apply Z.div_pos; lia. apply Z.div_lt_upper_bound; lia. }
  rewrite (Z.mod_small (v / 2^56)) by lia.
  change (2^8) with 256 in *.
  lia.
Qed.

Lemma bytes_compare_itob a b :
  0 <= a < 2 ^ 64 -> 0 <= b < 2 ^ 64 ->
  bytes_compare (itob a) (itob b) = (a ?= b).
Proof.
  intros Ha Hb. rewrite bytes_compare_be_value by reflexivity.
  rewrite !be_value_itob by assumption. reflexivity.
Qed.

Lemma itob_uint64 v : itob (uint64 v) = itob v.
Proof.
  unfold itob, uint64.
  assert (H : forall k, 0 <= k <= 56 -> byte_of_Z (Z.shiftr (v mod 2 ^ 64) k) = byte_of_Z (Z.shiftr v k)).
  { intros k Hk. unfold byte_of_Z.
    change 256 with (2 ^ 8).
    replace (Z.shiftr (v mod 2 ^ 64) k mod 2 ^ 8) with (Z.shiftr v k mod 2 ^ 8);
      [reflexivity|].
    symmetry. apply Z.bits_inj'. intros n Hn.
    destruct (Z.ltb_spec n 8).
    - rewrite !Z.mod_pow2_bits_low by lia. rewrite !Z.shiftr_spec by lia.
      apply Z.mod_pow2_bits_low. lia.
    - rewrite !Z.mod_pow2_bits_high by lia. reflexivity. }
  rewrite !H by lia.
  rewrite <- (Z.shiftr_0_r (v mod 2^64)), H by lia. rewrite Z.shiftr_0_r. reflexivity.
Qed.

(** ** The sample codec is a codec *)

Lemma dec_enc_nat n rest : sample.dec_nat (sample.enc_nat n ++ rest) = Some (n, rest).
Proof.
  induction n as [|n IH]; simpl.
  - reflexivity.
  - rewrite IH. reflexivity.
Qed.

Lemma dec_enc_Z z rest : sample.dec_Z (sample.enc_Z z ++ rest) = Some (z, rest).
Proof.
  unfold sample.dec_Z, sample.enc_Z. cbn [app].
  rewrite dec_enc_nat. rewrite Zabs2Nat.id_abs.
  destruct (Z.ltb_spec z 0); cbn [Byte.eqb]; simpl; f_equal; f_equal; lia.
Qed.

Lemma dec_enc_bytes s rest fuel :
  (List.length s < fuel)%nat ->
  sample.dec_bytes fuel (sample.enc_bytes s ++ rest) = Some (s, rest).
Proof.
  revert fuel. induction s as [|c s IH]; intros [|fuel] Hf; simpl in *; try lia.
  - reflexivity.
  - rewrite IH by lia. reflexivity.
Qed.

Lemma length_enc_bytes s : (List.length s < List.length (sample.enc_bytes s))%nat.
Proof. induction s; simpl; lia. Qed.

Lemma dec_enc_string s rest :
  sample.dec_string (sample.enc_string s ++ rest) = Some (s, rest).
Proof.
  unfold sample.dec_string, sample.enc_string.
  rewrite dec_enc_bytes.
  - rewrite string_of_list_byte_of_string. reflexivity.
  - rewrite length_app. pose proof (length_enc_bytes (list_byte_of_string s)). lia.
Qed.

Lemma dec_enc_status s : sample.dec_status (sample.enc_status s) = Some s.
Proof. destruct s; reflexivity. Qed.

Lemma sample_round_trip build buf :
  sample.encode build = Some buf -> sample.decode buf = Some (set_db build None).
Proof.
  unfold sample.encode. intros E.
  match type of E with Some ?l = _ => assert (Hb : buf = l) by congruence end.
  rewrite Hb. unfold sample.decode. cbv beta iota.
  rewrite dec_enc_Z, dec_enc_Z, dec_enc_string, dec_enc_string, dec_enc_string.
  cbn [app]. rewrite dec_enc_status. reflexivity.
Qed.

Lemma sample_empty_message rest : sample.decode (x00 :: rest) = None.
Proof. reflexivity. Qed.

Definition sample_codec : GobCodec := {|
  gobEncode := sample.encode;
  gobDecode := sample.decode;
  gob_round_trip := sample_round_trip;
  gob_empty_message := sample_empty_message
|}.

(** The store the examples run on: three builds on a new store, with the
    sample codec. *)
Definition example_1 : outcome Build * DB :=
  @CreateBuild sample_codec (Open "ci.db") Push "https://host/r" "main" "abc123".
Definition example_2 : outcome Build * DB :=
  @CreateBuild sample_codec (snd example_1) Push "https://host/r" "main" "abc123".
Definition example_3 : outcome Build * DB :=
  @CreateBuild sample_codec (snd example_2) Push "https://host/r" "main" "abc123".

Definition example_build (id : Z) : Build :=
  MkBuild id Push "https://host/r" "main" "abc123" BuildQueued (Some "ci.db"%string).

Lemma example_1_Ok : example_1 = (Ok (example_build 1), snd example_1).
Proof. vm_compute. reflexivity. Qed.

Lemma example_2_Ok : example_2 = (Ok (example_build 3), snd example_2).
Proof. vm_compute. reflexivity. Qed.

Lemma example_3_Ok : example_3 = (Ok (example_build 5), snd example_3).
Proof. vm_compute. reflexivity. Qed.

(** ** Entries of a bucket *)

Lemma find_put_same k n es : bolt.find k (bolt.put_entry k n es) = Some n.
Proof.
  induction es as [|[k' n'] es IH]; simpl.
  - rewrite bytes_eqb_refl. reflexivity.
  - destruct (bytes_compare k k') eqn:E; simpl.
    + rewrite bytes_eqb_refl. reflexivity.
    + rewrite bytes_eqb_refl. reflexivity.
    + unfold bytes_eqb. rewrite E. exact IH.
Qed.

Lemma find_put_other k k' n es :
  k <> k' -> bolt.find k' (bolt.put_entry k n es) = bolt.find k' es.
Proof.
  intros Hne. assert (Hf : bytes_eqb k' k = false) by (apply bytes_eqb_neq; congruence).
  induction es as [|[k0 n0] es IH]; simpl.
  - rewrite Hf. reflexivity.
  - destruct (bytes_compare k k0) eqn:E; simpl.
    + apply bytes_compare_eq in E. subst k0. rewrite Hf. reflexivity.
    + rewrite Hf. reflexivity.
    + rewrite IH. reflexivity.
Qed.

Lemma find_Some_In k n es : bolt.find k es = Some n -> In (k, n) es.
Proof.
  induction es as [|[k' n'] es IH]; simpl; [discriminate|].
  destruct (bytes_eqb k k') eqn:E.
  - apply bytes_eqb_eq in E. intros [= ->]. subst. left. reflexivity.
  - intros H. right. apply IH, H.
Qed.

Lemma find_None_keys k es : bolt.find k es = None <-> ~ In k (map fst es).
Proof.
  induction es as [|[k' n'] es IH]; simpl.
  - tauto.
  - destruct (bytes_eqb k k') eqn:E.
    + apply bytes_eqb_eq in E. subst. split; [discriminate|]. intros H. exfalso. tauto.
    + rewrite IH. split.
      * intros H [H1|H1]; [|tauto]. subst. rewrite bytes_eqb_refl in E. discriminate.
      * tauto.
Qed.

Lemma keys_put_entry k n es k' :
  In k' (map fst (bolt.put_entry k n es)) <-> k' = k \/ In k' (map fst es).
Proof.
  induction es as [|[k0 n0] es IH]; simpl.
  - intuition congruence.
  - destruct (bytes_compare k k0) eqn:E; simpl.
    + apply bytes_compare_eq in E. subst. intuition congruence.
    + intuition congruence.
    + rewrite IH. intuition congruence.
Qed.

Lemma bytes_compare_antisym a b : bytes_compare b a = CompOpp (bytes_compare a b).
Proof.
  revert b. induction a as [|x a IH]; intros [|y b]; simpl; try reflexivity.
  rewrite (N.compare_antisym (Byte.to_N x) (Byte.to_N y)).
  destruct (N.compare (Byte.to_N x) (Byte.to_N y)); simpl; auto.
Qed.

Lemma bytes_compare_trans a b c :
  bytes_compare a b = Lt -> bytes_compare b c = Lt -> bytes_compare a c = Lt.
Proof.
  revert b c. induction a as [|x a IH]; intros [|y b] [|z c]; simpl;
    try discriminate; try reflexivity.
  destruct (N.compare_spec (Byte.to_N x) (Byte.to_N y)) as [E1|L1|G1]; try discriminate;
  destruct (N.compare_spec (Byte.to_N y) (Byte.to_N z)) as [E2|L2|G2]; try discriminate;
  intros H1 H2.
  - rewrite E1, E2, N.compare_refl. eapply IH; eassumption.
  - rewrite E1. apply N.compare_lt_iff in L2. rewrite L2. reflexivity.
  - rewrite <- E2. apply N.compare_lt_iff in L1. rewrite L1. reflexivity.
  - assert (L : (Byte.to_N x < Byte.to_N z)%N) by lia.
    apply N.compare_lt_iff in L. rewrite L. reflexivity.
Qed.

Lemma ascending_keys_put k n es :
  ascending_keys (map fst es) -> ascending_keys (map fst (bolt.put_entry k n es)).
Proof.
  induction es as [|[k0 n0] es IH]; simpl.
  - tauto.
  - intros [H0 Hs]. destruct (bytes_compare k k0) eqn:E; simpl.
    + apply bytes_compare_eq in E. subst. split; assumption.
    + split; [assumption|]. split; assumption.
    + split; [|apply IH, Hs].
      destruct es as [|[k1 n1] es]; simpl.
      * rewrite bytes_compare_antisym, E. reflexivity.
      * destruct (bytes_compare k k1) eqn:E1; simpl.
        -- rewrite bytes_compare_antisym, E. reflexivity.
        -- rewrite bytes_compare_antisym, E. reflexivity.
        -- simpl in H0. exact H0.
Qed.

Lemma ascending_keys_head k l k' :
  ascending_keys (k :: l) -> In k' l -> bytes_compare k k' = Lt.
Proof.
  revert k. induction l as [|k0 l IH]; intros k [H0 Hs] Hin; [contradiction|].
  destruct Hin as [->|Hin]; [exact H0|].
  eapply bytes_compare_trans; [exact H0|]. apply IH; assumption.
Qed.

Lemma bytes_compare_refl a : bytes_compare a a = Eq.
Proof. apply bytes_compare_eq. reflexivity. Qed.

Lemma keys_delete_entry k es k' :
  ascending_keys (map fst es) ->
  (In k' (map fst (bolt.delete_entry k es)) <-> k' <> k /\ In k' (map fst es)).
Proof.
  induction es as [|[k0 n0] es IH]; simpl.
  - tauto.
  - intros Hs. destruct (bytes_eqb k k0) eqn:E.
    + apply bytes_eqb_eq in E. subst k0.
      split.
      * intros Hin. split; [|tauto]. intros ->.
        pose proof (ascending_keys_head _ _ _ Hs Hin) as Hlt.
        rewrite bytes_compare_refl in Hlt. discriminate.
      * intros [Hne [Heq|Hin]]; [congruence|assumption].
    + assert (k0 <> k).
      { intros ->. rewrite bytes_eqb_refl in E. discriminate. }
      simpl. rewrite IH by apply Hs. intuition congruence.
Qed.

Lemma ascending_keys_delete k es :
  ascending_keys (map fst es) -> ascending_keys (map fst (bolt.delete_entry k es)).
Proof.
  induction es as [|[k0 n0] es IH]; simpl.
  - tauto.
  - intros [H0 Hs]. destruct (bytes_eqb k k0); [exact Hs|].
    simpl. split; [|apply IH, Hs].
    destruct es as [|[k1 n1] es]; simpl; [exact I|].
    destruct (bytes_eqb k k1); simpl.
    + destruct es as [|[k2 n2] es]; simpl; [exact I|].
      eapply bytes_compare_trans; [exact H0|]. apply Hs.
    + exact H0.
Qed.

Lemma find_delete_other k k' es :
  k <> k' -> bolt.find k' (bolt.delete_entry k es) = bolt.find k' es.
Proof.
  intros Hne. induction es as [|[k0 n0] es IH]; simpl; [reflexivity|].
  destruct (bytes_eqb k k0) eqn:E; simpl.
  - apply bytes_eqb_eq in E. subst k0.
    rewrite (bytes_eqb_neq k' k) by congruence. reflexivity.
  - rewrite IH. reflexivity.
Qed.

(** ** Operations of a bucket in a writable transaction *)

Lemma find_set_child_same n c b :
  bolt.find n (bolt.entries (set_child n c b)) = Some (bolt.Nested c).
Proof. apply find_put_same. Qed.

Lemma find_set_child_other n c b k :
  n <> k -> bolt.find k (bolt.entries (set_child n c b)) = bolt.find k (bolt.entries b).
Proof. apply find_put_other. Qed.

Lemma find_ensure_other n b k :
  n <> k -> bolt.find k (bolt.entries (ensure n b)) = bolt.find k (bolt.entries b).
Proof.
  intros Hne. unfold ensure. destruct (bolt.Bucket_Bucket b n); [reflexivity|].
  apply find_set_child_other, Hne.
Qed.

Lemma find_ensure_same n b :
  (forall v, bolt.find n (bolt.entries b) <> Some (bolt.Leaf v)) ->
  bolt.find n (bolt.entries (ensure n b)) = Some (bolt.Nested (child n b)).
Proof.
  intros Hl. unfold ensure, child, bolt.Bucket_Bucket.
  destruct (bolt.find n (bolt.entries b)) as [[v|c]|] eqn:E.
  - exfalso. eapply Hl. reflexivity.
  - exact E.
  - apply find_set_child_same.
Qed.

Lemma sequence_ensure n b : bolt.sequence (ensure n b) = bolt.sequence b.
Proof. unfold ensure. destruct (bolt.Bucket_Bucket b n); reflexivity. Qed.

Lemma Bucket_Bucket_ensure_same n b :
  (forall v, bolt.find n (bolt.entries b) <> Some (bolt.Leaf v)) ->
  bolt.Bucket_Bucket (ensure n b) n = Some (child n b).
Proof.
  intros H. unfold bolt.Bucket_Bucket at 1. rewrite find_ensure_same by exact H.
  reflexivity.
Qed.

Lemma child_ensure_other n b k : n <> k -> child k (ensure n b) = child k b.
Proof.
  intros H. unfold child, bolt.Bucket_Bucket. rewrite find_ensure_other by exact H.
  reflexivity.
Qed.

Lemma child_set_child_other n c b k : n <> k -> child k (set_child n c b) = child k b.
Proof.
  intros H. unfold child, bolt.Bucket_Bucket. rewrite find_set_child_other by exact H.
  reflexivity.
Qed.

Lemma child_set_child_same n c b : child n (set_child n c b) = c.
Proof.
  unfold child, bolt.Bucket_Bucket. rewrite find_set_child_same. reflexivity.
Qed.

Lemma child_of_Bucket_Bucket b n c : bolt.Bucket_Bucket b n = Some c -> child n b = c.
Proof. unfold child. intros ->. reflexivity. Qed.

Lemma child_of_no_Bucket b n : bolt.Bucket_Bucket b n = None -> child n b = bolt.empty.
Proof. unfold child. intros ->. reflexivity. Qed.

Lemma Bucket_Bucket_find_ext b b' k :
  bolt.find k (bolt.entries b') = bolt.find k (bolt.entries b) ->
  bolt.Bucket_Bucket b' k = bolt.Bucket_Bucket b k.
Proof. unfold bolt.Bucket_Bucket. intros ->. reflexivity. Qed.

Lemma CreateBucketIfNotExists_writable n b :
  (exists e, bolt.Bucket_CreateBucketIfNotExists true n b = inl e) \/
  (n <> [] /\ (forall v, bolt.find n (bolt.entries b) <> Some (bolt.Leaf v)) /\
   bolt.Bucket_CreateBucketIfNotExists true n b = inr (ensure n b)).
Proof.
  unfold bolt.Bucket_CreateBucketIfNotExists, bolt.Bucket_CreateBucket, ensure,
    bolt.Bucket_Bucket. cbn [negb].
  destruct n as [|x n]; [left; eexists; reflexivity|].
  destruct (bolt.find (x :: n) (bolt.entries b)) as [[v|c]|] eqn:E.
  - left. eexists. reflexivity.
  - right. repeat split; congruence.
  - right. repeat split; congruence.
Qed.

Lemma Put_writable k v b :
  (exists e, bolt.Bucket_Put true k v b = inl e) \/
  (k <> [] /\ (forall c, bolt.find k (bolt.entries b) <> Some (bolt.Nested c)) /\
   bolt.Bucket_Put true k v b
   = inr (set_entries (bolt.put_entry k (bolt.Leaf v) (bolt.entries b)) b)).
Proof.
  unfold bolt.Bucket_Put. cbn [negb].
  destruct k as [|x k]; [left; eexists; reflexivity|].
  destruct (Z.of_nat (List.length (x :: k)) >? bolt.MaxKeySize);
    [left; eexists; reflexivity|].
  destruct (Z.of_nat (List.length v) >? bolt.MaxValueSize);
    [left; eexists; reflexivity|].
  destruct (bolt.find (x :: k) (bolt.entries b)) as [[v'|c]|] eqn:E.
  - right. repeat split; congruence.
  - left. eexists. reflexivity.
  - right. repeat split; congruence.
Qed.

Lemma Delete_writable k b :
  (exists e, bolt.Bucket_Delete true k b = inl e) \/
  ((forall k' c, bolt.seek k (bolt.entries b) <> Some (k', bolt.Nested c)) /\
   bolt.Bucket_Delete true k b
   = inr (set_entries (bolt.delete_entry k (bolt.entries b)) b)).
Proof.
  unfold bolt.Bucket_Delete. cbn [negb].
  destruct (bolt.seek k (bolt.entries b)) as [[k0 [v'|c]]|] eqn:E.
  - right. repeat split; congruence.
  - left. eexists. reflexivity.
  - right. repeat split; congruence.
Qed.

(** ** Bucket pointers *)

Lemma replace_cons n p x r c :
  bolt.find n (bolt.entries r) = Some (bolt.Nested c) ->
  bolt.replace (n :: p) x r = set_child n (bolt.replace p x c) r.
Proof. intros H. cbn [bolt.replace]. rewrite H. reflexivity. Qed.

Lemma resolve_cons n p r c :
  bolt.find n (bolt.entries r) = Some (bolt.Nested c) ->
  bolt.resolve (n :: p) r = bolt.resolve p c.
Proof. intros H. cbn [bolt.resolve]. rewrite H. reflexivity. Qed.

(** ** Steps of the wrapper before any error *)

Lemma tx_CreateBucketIfNotExists_writing n r :
  (exists e, tx_CreateBucketIfNotExists n (writing r)
             = Some (mk_bucket None, mk_tx (bolt.MkTx r true) (Some e))) \/
  (n <> [] /\ (forall v, bolt.find n (bolt.entries r) <> Some (bolt.Leaf v)) /\
   tx_CreateBucketIfNotExists n (writing r)
   = Some (mk_bucket (Some [n]), writing (ensure n r))).
Proof.
  unfold tx_CreateBucketIfNotExists, writing, bolt.Tx_CreateBucketIfNotExists.
  cbn [tx_err tx_t bolt.root bolt.writable].
  destruct (CreateBucketIfNotExists_writable n r) as [[e ->]|(Hn & Hl & ->)].
  - left. exists e. reflexivity.
  - right. repeat split; assumption.
Qed.

Lemma bucket_NextSequence_writing p r c :
  bolt.resolve p r = Some c ->
  bucket_NextSequence (mk_bucket (Some p)) (writing r)
  = Some (uint64 (bolt.sequence c + 1),
          writing (bolt.replace p (set_sequence (uint64 (bolt.sequence c + 1)) c) r)).
Proof.
  intros H. unfold bucket_NextSequence, writing, invoke, bind, ret,
    bolt.ref_NextSequence, bolt.update_at.
  cbn [tx_err tx_t bucket_b bolt.root bolt.writable]. rewrite H. reflexivity.
Qed.

Lemma bucket_Put_writing p k v r c :
  bolt.resolve p r = Some c ->
  (exists e, bucket_Put (mk_bucket (Some p)) k v (writing r)
             = Some (tt, mk_tx (bolt.MkTx r true) (Some e))) \/
  (k <> [] /\ (forall c', bolt.find k (bolt.entries c) <> Some (bolt.Nested c')) /\
   bucket_Put (mk_bucket (Some p)) k v (writing r)
   = Some (tt, writing (bolt.replace p
        (set_entries (bolt.put_entry k (bolt.Leaf v) (bolt.entries c)) c) r))).
Proof.
  intros H. unfold bucket_Put, writing, invoke, bind, ret, bolt.ref_Put,
    bolt.update_at, bolt.unit_op.
  cbn [tx_err tx_t bucket_b bolt.root bolt.writable]. rewrite H.
  destruct (Put_writable k v c) as [[e ->]|(Hn & Hl & ->)].
  - left. exists e. reflexivity.
  - right. repeat split; assumption.
Qed.

Lemma bucket_Delete_writing p k r c :
  bolt.resolve p r = Some c ->
  (exists e, bucket_Delete (mk_bucket (Some p)) k (writing r)
             = Some (tt, mk_tx (bolt.MkTx r true) (Some e))) \/
  ((forall k' c', bolt.seek k (bolt.entries c) <> Some (k', bolt.Nested c')) /\
   bucket_Delete (mk_bucket (Some p)) k (writing r)
   = Some (tt, writing (bolt.replace p
        (set_entries (bolt.delete_entry k (bolt.entries c)) c) r))).
Proof.
  intros H. unfold bucket_Delete, writing, invoke, bind, ret, bolt.ref_Delete,
    bolt.update_at, bolt.unit_op.
  cbn [tx_err tx_t bucket_b bolt.root bolt.writable]. rewrite H.
  destruct (Delete_writable k c) as [[e ->]|(Hl & ->)].
  - left. exists e. reflexivity.
  - right. repeat split; assumption.
Qed.

Lemma bucket_CreateBucketIfNotExists_writing p n r c :
  bolt.resolve p r = Some c ->
  (exists e, bucket_CreateBucketIfNotExists (mk_bucket (Some p)) n (writing r)
             = Some (mk_bucket (Some p), mk_tx (bolt.MkTx r true) (Some e))) \/
  (n <> [] /\ (forall v, bolt.find n (bolt.entries c) <> Some (bolt.Leaf v)) /\
   bucket_CreateBucketIfNotExists (mk_bucket (Some p)) n (writing r)
   = Some (mk_bucket (Some (p ++ [n])), writing (bolt.replace p (ensure n c) r))).
Proof.
  intros H. unfold bucket_CreateBucketIfNotExists, writing, invoke, bind, ret,
    bolt.ref_CreateBucketIfNotExists, bolt.update_at.
  cbn [tx_err tx_t bucket_b bolt.root bolt.writable]. rewrite H.
  destruct (CreateBucketIfNotExists_writable n c) as [[e ->]|(Hn & Hl & ->)].
  - left. exists e. reflexivity.
  - right. repeat split; assumption.
Qed.

Lemma bucket_Get_writing p k r c :
  bolt.resolve p r = Some c ->
  bucket_Get (mk_bucket (Some p)) k (writing r) = Some (bolt.Bucket_Get c k, writing r).
Proof.
  intros H. unfold bucket_Get, writing, bolt.ref_Get.
  cbn [tx_err tx_t bucket_b bolt.root bolt.writable]. rewrite H. reflexivity.
Qed.

(** ** Running [CreateBuild] *)

Lemma put_put k n1 n2 es :
  bolt.put_entry k n2 (bolt.put_entry k n1 es) = bolt.put_entry k n2 es.
Proof.
  induction es as [|[k0 n0] es IH]; simpl.
  - rewrite bytes_compare_refl. reflexivity.
  - destruct (bytes_compare k k0) eqn:E; simpl.
    + rewrite bytes_compare_refl. reflexivity.
    + rewrite bytes_compare_refl. reflexivity.
    + rewrite E, IH. reflexivity.
Qed.

Lemma set_child_set_child n c1 c2 b :
  set_child n c2 (set_child n c1 b) = set_child n c2 b.
Proof. unfold set_child. cbn [bolt.sequence bolt.entries]. rewrite put_put. reflexivity. Qed.

Lemma bind_step {A B : Type} (m : M A) (k : A -> M B) s a s' :
  m s = Some (a, s') -> bind m k s = k a s'.
Proof. intros H. unfold bind. rewrite H. reflexivity. Qed.

Lemma get_err_writing r : get_err (writing r) = Some (None, writing r).
Proof. reflexivity. Qed.

Ltac find_entry :=
  repeat first
    [ rewrite find_set_child_same
    | rewrite find_set_child_other by discriminate
    | rewrite find_ensure_other by discriminate
    | rewrite find_ensure_same by assumption ];
  try reflexivity.

Ltac resolve_ref :=
  repeat (erewrite resolve_cons by find_entry); reflexivity.

Ltac tidy H :=
  repeat (erewrite replace_cons in H by find_entry);
  cbn [bolt.replace app] in H;
  unfold set_sequence, set_entries in H;
  rewrite ?sequence_ensure in H;
  cbn [bolt.sequence bolt.entries ID T CloneURL Ref CommitSHA Status db set_ID] in H;
  rewrite ?set_child_set_child in H;
  repeat first [ rewrite child_set_child_other in H by discriminate
               | rewrite child_ensure_other in H by discriminate ].

Ltac dead_run H :=
  left; rewrite <- H; cbn; first [exact I | discriminate].

Ltac run_create_tx H :=
  match type of H with
  | context [bind (tx_CreateBucketIfNotExists ?n) _ (writing ?R)] =>
      let e := fresh "e" in let E := fresh "E" in
      let Hn := fresh "Hname" in let Hl := fresh "Hleaf" in
      destruct (tx_CreateBucketIfNotExists_writing n R) as [[e E]|(Hn & Hl & E)];
      rewrite (bind_step _ _ _ _ _ E) in H; clear E; [dead_run H|tidy H; tidy Hl]
  end.

Ltac run_create H :=
  match type of H with
  | context [bind (bucket_CreateBucketIfNotExists (mk_bucket (Some ?p)) ?n) _ (writing ?R)] =>
      let e := fresh "e" in let E := fresh "E" in
      let Hn := fresh "Hname" in let Hl := fresh "Hleaf" in
      edestruct (bucket_CreateBucketIfNotExists_writing p n R) as [[e E]|(Hn & Hl & E)];
      [resolve_ref| |];
      rewrite (bind_step _ _ _ _ _ E) in H; clear E; [dead_run H|tidy H; tidy Hl]
  end.

Ltac run_put H :=
  match type of H with
  | context [bind (bucket_Put (mk_bucket (Some ?p)) ?k ?v) _ (writing ?R)] =>
      let e := fresh "e" in let E := fresh "E" in
      let Hn := fresh "Hkey" in let Hl := fresh "Hnested" in
      edestruct (bucket_Put_writing p k v R) as [[e E]|(Hn & Hl & E)];
      [resolve_ref| |];
      rewrite (bind_step _ _ _ _ _ E) in H; clear E; [dead_run H|tidy H; tidy Hl]
  end.

Ltac run_next H :=
  erewrite bind_step in H by (apply bucket_NextSequence_writing; resolve_ref);
  tidy H.

Lemma uint64_range v : 0 <= uint64 v < 2 ^ 64.
Proof. unfold uint64. apply Z.mod_pos_bound. lia. Qed.

Lemma uint64_small v : 0 <= v < 2 ^ 64 -> uint64 v = v.
Proof. apply Z.mod_small. Qed.

Lemma uint64_succ_neq v : 0 <= v < 2 ^ 64 -> uint64 (v + 1) <> v.
Proof.
  intros Hv. unfold uint64.
  destruct (Z.eq_dec v (2 ^ 64 - 1)) as [->|Hne].
  - vm_compute. discriminate.
  - rewrite Z.mod_small by lia. lia.
Qed.

Lemma itob_succ_neq v : 0 <= v < 2 ^ 64 -> itob (uint64 (v + 1)) <> itob v.
Proof.
  intros Hv E. apply itob_inj in E; try assumption; try apply uint64_range.
  revert E. apply uint64_succ_neq, Hv.
Qed.

Ltac other_key := first [discriminate | congruence].

Ltac find_key :=
  repeat first
    [ rewrite find_set_child_same
    | rewrite find_put_same
    | rewrite find_set_child_other by other_key
    | rewrite find_put_other by other_key
    | rewrite find_ensure_other by other_key
    | rewrite find_ensure_same by assumption
    | progress cbn [bolt.entries] ];
  try reflexivity.

Section CreateBuild_run.

Context {codec : GobCodec}.

Lemma CreateBuild_update_writing build r x :
  CreateBuild_update build (writing r) = x ->
  let B0 := child buildBucket r in
  let id := uint64 (bolt.sequence B0 + 1) in
  let shakey := bytes_of_string (CommitSHA build) in
  let tk := itob (uint64 (T build)) in
  let rk := bytes_of_string (Ref build) in
  let RB0 := child refBucket r in
  let TB0 := child tk RB0 in
  let FB0 := child rk TB0 in
  let rid := uint64 (bolt.sequence FB0 + 1) in
  let P0 := child pendingBucket r in
  failed_run x \/
  exists buf r' B' RB' TB',
    x = Some ((None, set_ID build id), writing r') /\
    gobEncode (set_ID build id) = Some buf /\
    (bolt.Bucket_Bucket r' buildBucket = Some B' /\
     bolt.sequence B' = uint64 (id + 1) /\
     bolt.find (itob id) (bolt.entries B') = Some (bolt.Leaf buf) /\
     bolt.find (itob (uint64 (id + 1))) (bolt.entries B') = Some (bolt.Leaf (itob id)) /\
     bolt.find shakey (bolt.entries B') = Some (bolt.Nested (child shakey B0)) /\
     (forall v, bolt.find shakey (bolt.entries B0) <> Some (bolt.Leaf v)) /\
     (forall k, k <> itob id -> k <> itob (uint64 (id + 1)) -> k <> shakey ->
                bolt.find k (bolt.entries B') = bolt.find k (bolt.entries B0))) /\
    bolt.Bucket_Bucket r' shaBucket = Some (child shaBucket r) /\
    (bolt.Bucket_Bucket r' refBucket = Some RB' /\
     bolt.Bucket_Bucket RB' tk = Some TB' /\
     bolt.Bucket_Bucket TB' rk
     = Some (bolt.MkBucket rid
               (bolt.put_entry (itob rid) (bolt.Leaf (itob id)) (bolt.entries FB0))) /\
     (forall k, k <> tk -> bolt.find k (bolt.entries RB') = bolt.find k (bolt.entries RB0)) /\
     (forall k, k <> rk -> bolt.find k (bolt.entries TB') = bolt.find k (bolt.entries TB0))) /\
    bolt.Bucket_Bucket r' pendingBucket
    = Some (bolt.MkBucket (bolt.sequence P0)
              (bolt.put_entry (itob id) (bolt.Leaf []) (bolt.entries P0))) /\
    (forall k, k <> buildBucket -> k <> shaBucket -> k <> refBucket ->
               k <> pendingBucket ->
               bolt.find k (bolt.entries r') = bolt.find k (bolt.entries r)).
Proof.
  intros Hx B0 id shakey tk rk RB0 TB0 FB0 rid P0.
  unfold CreateBuild_update in Hx.
  run_create_tx Hx.
  run_next Hx. fold B0 id in Hx.
  erewrite bind_step in Hx by apply get_err_writing. cbv beta iota in Hx.
  destruct (gobEncode (set_ID build id)) as [buf|] eqn:Henc; [|dead_run Hx].
  run_put Hx.
  run_create_tx Hx.
  run_create Hx. fold shakey in Hx, Hleaf1.
  run_next Hx.
  run_put Hx. fold shakey in Hnested0.
  run_create_tx Hx. fold RB0 in Hx.
  run_create Hx. fold tk in Hx, Hleaf3. fold TB0 in Hx.
  run_create Hx. fold rk in Hx, Hleaf4. fold RB0 tk TB0 in Hleaf4. fold FB0 in Hx.
  run_next Hx. fold rid in Hx.
  run_put Hx.
  run_create_tx Hx. fold P0 in Hx.
  run_put Hx.
  assert (Hid : 0 <= id < 2 ^ 64) by apply uint64_range.
  assert (N1 : itob (uint64 (id + 1)) <> itob id) by (apply itob_succ_neq, Hid).
  assert (N2 : shakey <> itob id).
  { intros E. apply (Hleaf1 buf). rewrite E. apply find_put_same. }
  assert (N3 : itob (uint64 (id + 1)) <> shakey).
  { intros E. eapply Hnested0. rewrite E. apply find_ensure_same. exact Hleaf1. }
  right. eexists buf, _, _, _, _.
  split; [symmetry; exact Hx|]. split; [reflexivity|].
  repeat match goal with |- _ /\ _ => split end.
  - unfold bolt.Bucket_Bucket. find_key.
  - reflexivity.
  - cbn [bolt.entries]. find_key.
  - cbn [bolt.entries]. find_key.
  - cbn [bolt.entries]. find_key. unfold child, bolt.Bucket_Bucket.
    cbn [bolt.entries]. find_key.
  - intros v E. apply (Hleaf1 v). rewrite find_put_other by congruence. exact E.
  - intros k K1 K2 K3. cbn [bolt.entries]. find_key.
  - unfold bolt.Bucket_Bucket. find_key.
    repeat first [ rewrite child_set_child_other by discriminate
                 | rewrite child_ensure_other by discriminate ].
    reflexivity.
  - unfold bolt.Bucket_Bucket. find_key.
  - unfold bolt.Bucket_Bucket. find_key.
  - unfold bolt.Bucket_Bucket. find_key.
  - intros k K. find_key.
  - intros k K. find_key.
  - unfold bolt.Bucket_Bucket. find_key.
  - intros k K1 K2 K3 K4. find_key.
Qed.

End CreateBuild_run.

(** ** What a successful [CreateBuild] commits *)

Section CreateBuild_commit.

Context {codec : GobCodec}.

(** A call of [CreateBuild] that does not return a build leaves the store
    as it was. *)
Lemma CreateBuild_rollback d t cloneURL ref commitSHA :
  (exists build, fst (CreateBuild d t cloneURL ref commitSHA) = Ok build) \/
  snd (CreateBuild d t cloneURL ref commitSHA) = d.
Proof.
  unfold CreateBuild, update, bolt.Update.
  destruct (dispatch _ _) as [[[[e|] a] t']|]; cbn.
  - right. reflexivity.
  - left. eexists. reflexivity.
  - right. reflexivity.
Qed.

Lemma CreateBuild_Ok d t cloneURL ref commitSHA build d' :
  CreateBuild d t cloneURL ref commitSHA = (Ok build, d') ->
  let r := bolt.committed d in
  let r' := bolt.committed d' in
  let B0 := child buildBucket r in
  let id := uint64 (bolt.sequence B0 + 1) in
  let shakey := bytes_of_string commitSHA in
  let tk := itob (uint64 t) in
  let rk := bytes_of_string ref in
  let RB0 := child refBucket r in
  let TB0 := child tk RB0 in
  let FB0 := child rk TB0 in
  let rid := uint64 (bolt.sequence FB0 + 1) in
  let P0 := child pendingBucket r in
  bolt.file d' = bolt.file d /\
  build = MkBuild id t cloneURL ref commitSHA BuildQueued (Some (bolt.file d)) /\
  exists buf B' RB' TB',
    gobEncode (MkBuild id t cloneURL ref commitSHA BuildQueued None) = Some buf /\
    (bolt.Bucket_Bucket r' buildBucket = Some B' /\
     bolt.sequence B' = uint64 (id + 1) /\
     bolt.find (itob id) (bolt.entries B') = Some (bolt.Leaf buf) /\
     bolt.find (itob (uint64 (id + 1))) (bolt.entries B') = Some (bolt.Leaf (itob id)) /\
     bolt.find shakey (bolt.entries B') = Some (bolt.Nested (child shakey B0)) /\
     (forall v, bolt.find shakey (bolt.entries B0) <> Some (bolt.Leaf v)) /\
     (forall k, k <> itob id -> k <> itob (uint64 (id + 1)) -> k <> shakey ->
                bolt.find k (bolt.entries B') = bolt.find k (bolt.entries B0))) /\
    bolt.Bucket_Bucket r' shaBucket = Some (child shaBucket r) /\
    (bolt.Bucket_Bucket r' refBucket = Some RB' /\
     bolt.Bucket_Bucket RB' tk = Some TB' /\
     bolt.Bucket_Bucket TB' rk
     = Some (bolt.MkBucket rid
               (bolt.put_entry (itob rid) (bolt.Leaf (itob id)) (bolt.entries FB0))) /\
     (forall k, k <> tk -> bolt.find k (bolt.entries RB') = bolt.find k (bolt.entries RB0)) /\
     (forall k, k <> rk -> bolt.find k (bolt.entries TB') = bolt.find k (bolt.entries TB0))) /\
    bolt.Bucket_Bucket r' pendingBucket
    = Some (bolt.MkBucket (bolt.sequence P0)
              (bolt.put_entry (itob id) (bolt.Leaf []) (bolt.entries P0))) /\
    (forall k, k <> buildBucket -> k <> shaBucket -> k <> refBucket ->
               k <> pendingBucket ->
               bolt.find k (bolt.entries r') = bolt.find k (bolt.entries r)).
Proof.
  intros H r r' B0 id shakey tk rk RB0 TB0 FB0 rid P0.
  unfold CreateBuild, update, bolt.Update, dispatch in H.
  fold (writing (bolt.committed d)) in H.
  destruct (CreateBuild_update_writing
              (MkBuild 0 t cloneURL ref commitSHA BuildQueued None)
              (bolt.committed d) _ eq_refl) as [Hf|Hok].
  - exfalso. unfold failed_run in Hf.
    destruct (CreateBuild_update _ _) as [[[[e|] a] s]|]; try contradiction.
    + destruct (tx_err s); discriminate.
    + destruct (tx_err s); [discriminate|congruence].
  - destruct Hok as (buf & r1 & B' & RB' & TB' & Hx & Henc & Hobs).
    cbn [T CloneURL Ref CommitSHA set_ID Status db] in *.
    rewrite Hx in H. cbn in H. injection H as <- <-.
    cbn [bolt.committed bolt.file]. subst r'. cbn [bolt.committed].
    split; [reflexivity|]. split; [reflexivity|].
    exists buf, B', RB', TB'. split; [exact Henc|exact Hobs].
Qed.

End CreateBuild_commit.

(** ** Errors inside a transaction *)

Lemma run_op_failed o s e : tx_err s = Some e -> run_op o s = Some (tt, s).
Proof.
  intros H. destruct o; cbn [run_op];
    unfold bind, bucket_Put, bucket_Delete, bucket_NextSequence,
      tx_CreateBucketIfNotExists, bucket_CreateBucketIfNotExists, ret;
    rewrite H; reflexivity.
Qed.

Lemma run_ops_failed os s e : tx_err s = Some e -> run_ops os s = Some (tt, s).
Proof.
  intros H. induction os as [|o os IH]; cbn [run_ops].
  - reflexivity.
  - unfold bind. rewrite (run_op_failed o s e H). exact IH.
Qed.

Lemma run_ops_app os1 os2 s :
  run_ops (os1 ++ os2) s
  = match run_ops os1 s with
    | Some (_, s1) => run_ops os2 s1
    | None => None
    end.
Proof.
  revert s. induction os1 as [|o os1 IH]; intros s; cbn [run_ops app].
  - reflexivity.
  - unfold bind. destruct (run_op o s) as [[[] s0]|]; [apply IH|reflexivity].
Qed.

Lemma run_op_remembers o t e :
  bolt_error o t = Some e -> run_op o (mk_tx t None) = Some (tt, mk_tx t (Some e)).
Proof.
  destruct o as [b k v|b k|b|n|b n]; cbn [bolt_error run_op];
    unfold bucket_Put, bucket_Delete, bucket_NextSequence,
      tx_CreateBucketIfNotExists, bucket_CreateBucketIfNotExists;
    unfold bind, invoke, ret,
      bolt.ref_Put, bolt.ref_Delete, bolt.ref_NextSequence,
      bolt.ref_CreateBucketIfNotExists, bolt.Tx_CreateBucketIfNotExists,
      bolt.update_at, bolt.unit_op, returned_error;
    cbn [tx_err tx_t].
  - destruct (bucket_b b) as [p|]; [|discriminate].
    destruct (bolt.resolve p (bolt.root t)) as [c|]; [|discriminate].
    destruct (bolt.Bucket_Put _ k v c); [|discriminate].
    intros [= ->]. reflexivity.
  - destruct (bucket_b b) as [p|]; [|discriminate].
    destruct (bolt.resolve p (bolt.root t)) as [c|]; [|discriminate].
    destruct (bolt.Bucket_Delete _ k c); [|discriminate].
    intros [= ->]. reflexivity.
  - destruct (bucket_b b) as [p|]; [|discriminate].
    destruct (bolt.resolve p (bolt.root t)) as [c|]; [|discriminate].
    destruct (bolt.Bucket_NextSequence _ c) as [e'|[n c']]; [|discriminate].
    intros [= ->]. reflexivity.
  - destruct (bolt.Bucket_CreateBucketIfNotExists _ n (bolt.root t)); [|discriminate].
    cbn. intros [= ->]. reflexivity.
  - destruct (bucket_b b) as [p|]; [|discriminate].
    destruct (bolt.resolve p (bolt.root t)) as [c|]; [|discriminate].
    destruct (bolt.Bucket_CreateBucketIfNotExists _ n c); [|discriminate].
    intros [= ->]. reflexivity.
Qed.

Lemma run_ops_first_error os1 o os2 s0 t e :
  run_ops os1 s0 = Some (tt, mk_tx t None) ->
  bolt_error o t = Some e ->
  run_ops (os1 ++ o :: os2) s0 = Some (tt, mk_tx t (Some e)).
Proof.
  intros H1 He. rewrite run_ops_app, H1. cbn [run_ops]. unfold bind.
  rewrite (run_op_remembers o t e He).
  apply (run_ops_failed os2 _ e). reflexivity.
Qed.

(** C6: when bolt returns an error to [Put], [Delete], [NextSequence] or a
    create-bucket operation of a transaction in which the operations before
    succeeded, the handle holds that error afterwards.  From then on [Put],
    [Delete], [NextSequence] and the two create-bucket operations on any
    bucket of the handle return at once and leave the handle as it is, so
    the first error stays; [tx.Bucket] and [bucket.Bucket] return nil, and a
    method call on a nil bucket panics; and [dispatch], [update] and [view]
    report the held error whatever the transaction function returns. *)
Theorem tx_error_short_circuit (os1 : list op) (o : op) (t t1 : bolt.Tx) (e : error) :
  run_ops os1 (mk_tx t None) = Some (tt, mk_tx t1 None) ->
  bolt_error o t1 = Some e ->
  let s := mk_tx t1 (Some e) in
  run_op o (mk_tx t1 None) = Some (tt, s) /\
  (forall b k v, bucket_Put b k v s = Some (tt, s)) /\
  (forall b k, bucket_Delete b k s = Some (tt, s)) /\
  (forall b, bucket_NextSequence b s = Some (0, s)) /\
  (forall n, tx_CreateBucketIfNotExists n s = Some (mk_bucket None, s)) /\
  (forall b n, bucket_CreateBucketIfNotExists b n s = Some (mk_bucket None, s)) /\
  (forall n, tx_Bucket n s = Some (None, s)) /\
  (forall b n, bucket_Bucket b n s = Some (None, s)) /\
  (forall (A : Type) (m : bucket -> M A), on_bucket None m s = None) /\
  (forall os2, run_ops (os1 ++ o :: os2) (mk_tx t None) = Some (tt, s)) /\
  (forall os2 (A : Type) (r : option error) (a : A),
      dispatch (run_ops (os1 ++ o :: os2) ;;; ret (r, a)) t = Some ((Some e, a), t1)) /\
  (forall os2 (A : Type) (r : option error) (a : A) d,
      t = bolt.MkTx (bolt.committed d) true ->
      update (run_ops (os1 ++ o :: os2) ;;; ret (r, a)) d = (Fail e, d)) /\
  (forall os2 (A : Type) (r : option error) (a : A) d,
      t = bolt.MkTx (bolt.committed d) false ->
      view (run_ops (os1 ++ o :: os2) ;;; ret (r, a)) d = Fail e) /\
  (forall (A : Type) (f : M (option error * A)) r a,
      f (mk_tx t None) = Some ((r, a), s) ->
      dispatch f t = Some ((Some e, a), t1)).
Proof.
  intros H1 He s.
  assert (Hs : tx_err s = Some e) by reflexivity.
  assert (Hrun : forall os2, run_ops (os1 ++ o :: os2) (mk_tx t None) = Some (tt, s))
    by (intros os2; apply run_ops_first_error; assumption).
  repeat match goal with |- _ /\ _ => split end.
  - apply run_op_remembers, He.
  - intros b k v. reflexivity.
  - intros b k. reflexivity.
  - intros b. reflexivity.
  - intros n. reflexivity.
  - intros b n. reflexivity.
  - intros n. reflexivity.
  - intros b n. reflexivity.
  - intros A m. reflexivity.
  - exact Hrun.
  - intros os2 A r a. unfold dispatch, bind. rewrite Hrun. reflexivity.
  - intros os2 A r a d ->. unfold update, bolt.Update, dispatch, bind.
    rewrite Hrun. reflexivity.
  - intros os2 A r a d ->. unfold view, bolt.View, dispatch, bind.
    rewrite Hrun. reflexivity.
  - intros A f r a Hf. unfold dispatch. rewrite Hf. reflexivity.
Qed.

Lemma tx_error_short_circuit_witness :
  update (run_ops ([OpCreateBucket buildBucket]
                   ++ OpPut (mk_bucket (Some [buildBucket])) [] (itob 1)
                      :: [OpPut (mk_bucket (Some [buildBucket])) (itob 1) []])
          ;;; ret (None, tt))
    (Open "ci.db")
  = (Fail ErrKeyRequired, Open "ci.db").
Proof.
  apply (tx_error_short_circuit [OpCreateBucket buildBucket]
           (OpPut (mk_bucket (Some [buildBucket])) [] (itob 1))
           (bolt.MkTx (bolt.committed (Open "ci.db")) true)
           (bolt.MkTx (set_child buildBucket bolt.empty bolt.empty) true)
           ErrKeyRequired).
  - reflexivity.
  - reflexivity.
  - reflexivity.
Defined.

(** On the store of the first example, which has the build bucket: after a
    failed create has left its error in the handle, [tx.Bucket] returns nil
    for the build bucket, and the [Put] of [put_after_failed_create] on that
    nil bucket is no no-op: it panics, and the transaction ends in the
    panic, not in the error held. *)
Lemma Put_on_nil_bucket_after_error :
  tx_CreateBucketIfNotExists [] (writing (bolt.committed (snd example_1)))
  = Some (mk_bucket None,
          mk_tx (bolt.MkTx (bolt.committed (snd example_1)) true)
            (Some ErrBucketNameRequired)) /\
  tx_Bucket buildBucket (writing (bolt.committed (snd example_1)))
  = Some (Some (mk_bucket (Some [buildBucket])),
          writing (bolt.committed (snd example_1))) /\
  tx_Bucket buildBucket
    (mk_tx (bolt.MkTx (bolt.committed (snd example_1)) true)
       (Some ErrBucketNameRequired))
  = Some (None,
          mk_tx (bolt.MkTx (bolt.committed (snd example_1)) true)
            (Some ErrBucketNameRequired)) /\
  on_bucket None (fun b => bucket_Put b (itob 1) [])
    (mk_tx (bolt.MkTx (bolt.committed (snd example_1)) true)
       (Some ErrBucketNameRequired))
  <> Some (tt, mk_tx (bolt.MkTx (bolt.committed (snd example_1)) true)
                 (Some ErrBucketNameRequired)) /\
  update put_after_failed_create (snd example_1) = (Panicked, snd example_1) /\
  update put_after_failed_create (snd example_1)
  <> (Fail ErrBucketNameRequired, snd example_1).
Proof.
  repeat match goal with |- _ /\ _ => split end;
    try (vm_compute; reflexivity); vm_compute; discriminate.
Qed.

(** ** Range validation *)

Section Queries.

Context {codec : GobCodec}.

Lemma DB_Build_Fail d id err : DB_Build d id = Fail err -> validation_error err = false.
Proof.
  unfold DB_Build, bolt.View. cbn [bolt.root].
  destruct (bolt.Bucket_Bucket (bolt.committed d) buildBucket) as [b|]; [|intros [= <-]; reflexivity].
  destruct (bolt.Bucket_Get b (itob id)) as [v|]; [|intros [= <-]; reflexivity].
  destruct (gobDecode v); [discriminate|intros [= <-]; reflexivity].
Qed.

Lemma idsToBuilds_from_Fail d ids bs err :
  idsToBuilds_from d ids bs = Fail err -> validation_error err = false.
Proof.
  revert bs. induction ids as [|id ids IH]; intros bs; cbn [idsToBuilds_from].
  - discriminate.
  - destruct (DB_Build d id) as [b|e|] eqn:E.
    + apply IH.
    + intros [= <-]. eapply DB_Build_Fail, E.
    + discriminate.
Qed.

Lemma refBuilds_not_Fail d t ref start end_ err : refBuilds d t ref start end_ <> Fail err.
Proof.
  unfold refBuilds, bolt.View. cbn [bolt.root].
  destruct (bolt.Bucket_Bucket (bolt.committed d) refBucket) as [b|]; [|discriminate].
  destruct (bolt.Bucket_Bucket b (itob (uint64 t))) as [b0|]; [|discriminate].
  destruct (bolt.Bucket_Bucket b0 (bytes_of_string ref)) as [b1|]; [|discriminate].
  destruct (refBuilds_loop _ _ _ _); discriminate.
Qed.

(** C7: [RefBuilds] fails with the error of [validate], whatever the store
    holds, exactly when [start < 0], [end < -1] or [end >= 0] and
    [start > end]; for every other range [validate] passes and no error of
    [RefBuilds] is a validation error. *)
Theorem RefBuilds_validation (d : DB) (t : BuildType) (ref : string) (start end_ : Z) :
  (validate start end_ <> None
   <-> (start < 0 \/ end_ < -1 \/ (end_ >= 0 /\ start > end_))) /\
  match validate start end_ with
  | Some err =>
      validation_error err = true /\ RefBuilds d t ref start end_ = Fail err
  | None =>
      forall err, RefBuilds d t ref start end_ = Fail err -> validation_error err = false
  end.
Proof.
  unfold RefBuilds, validate.
  destruct (Z.ltb_spec start 0); [split; [split; [lia|discriminate]|split; reflexivity]|].
  destruct (Z.ltb_spec end_ (-1)); [split; [split; [lia|discriminate]|split; reflexivity]|].
  destruct (Z.geb_spec end_ 0); destruct (Z.gtb_spec start end_); cbn [andb];
    try (split; [split; [lia|discriminate]|split; reflexivity]).
  all: split; [split; [congruence|lia]|].
  all: intros err; destruct (start =? end_); [discriminate|].
  all: destruct (refBuilds d t ref start end_) as [ids|e|] eqn:E;
    [apply idsToBuilds_from_Fail|exfalso; eapply refBuilds_not_Fail, E|discriminate].
Qed.

(** C8: for every [k >= 0], [RefBuilds] on the range from [k] to [k] returns
    no build and no error, whatever the store holds. *)
Theorem RefBuilds_empty_range (d : DB) (t : BuildType) (ref : string) (k : Z) :
  0 <= k -> RefBuilds d t ref k k = Ok [].
Proof.
  intros Hk. unfold RefBuilds, validate.
  destruct (Z.ltb_spec k 0); [lia|].
  destruct (Z.ltb_spec k (-1)); [lia|].
  destruct (Z.gtb_spec k k); [lia|]. rewrite andb_false_r.
  rewrite Z.eqb_refl. reflexivity.
Qed.

End Queries.

Lemma RefBuilds_empty_range_witness :
  @RefBuilds sample_codec (Open "ci.db") Push "main" 3 3 = Ok [].
Proof. apply (@RefBuilds_empty_range sample_codec). lia. Defined.

(** ** Builds after [CreateBuild] *)

Lemma uint64_add_idemp a b : uint64 (uint64 a + b) = uint64 (a + b).
Proof. unfold uint64. apply Z.add_mod_idemp_l. lia. Qed.

Lemma itob_leading_zero v : 0 <= v < 2 ^ 56 -> exists rest, itob v = x00 :: rest.
Proof.
  intros Hv. unfold itob. eexists.
  replace (Z.shiftr v 56) with 0; [reflexivity|].
  rewrite Z.shiftr_div_pow2 by lia. symmetry. apply Z.div_small. lia.
Qed.

Lemma child_Open_find k path : bolt.find k (bolt.entries (bolt.committed (Open path))) = None.
Proof. reflexivity. Qed.

Section After_CreateBuild.

Context {codec : GobCodec}.

Lemma DB_Build_stored d id B buf build :
  bolt.Bucket_Bucket (bolt.committed d) buildBucket = Some B ->
  bolt.find (itob id) (bolt.entries B) = Some (bolt.Leaf buf) ->
  gobDecode buf = Some build ->
  DB_Build d id = Ok (set_db build (Some (bolt.file d))).
Proof.
  intros HB Hf Hd. unfold DB_Build, bolt.View, bolt.Bucket_Get. cbn [bolt.root].
  rewrite HB, Hf, Hd. reflexivity.
Qed.

Lemma CreateBuild_stores_build d d' t cloneURL ref commitSHA build :
  CreateBuild d t cloneURL ref commitSHA = (Ok build, d') ->
  DB_Build d' (ID build) = Ok build.
Proof.
  intros H. apply CreateBuild_Ok in H. cbv zeta in H.
  destruct H as (Hfile & -> & buf & B' & RB' & TB' & Henc & HB & _).
  destruct HB as (HB & _ & Hid & _). cbn [ID].
  erewrite DB_Build_stored; [|exact HB|exact Hid|apply (gob_round_trip _ _ Henc)].
  rewrite Hfile. reflexivity.
Qed.

Lemma CreateBuild_sequence d d' t cloneURL ref commitSHA build :
  CreateBuild d t cloneURL ref commitSHA = (Ok build, d') ->
  let B0 := child buildBucket (bolt.committed d) in
  ID build = uint64 (bolt.sequence B0 + 1) /\
  bolt.sequence (child buildBucket (bolt.committed d')) = uint64 (bolt.sequence B0 + 2).
Proof.
  intros H B0. apply CreateBuild_Ok in H. cbv zeta in H. fold B0 in H.
  destruct H as (_ & -> & buf & B' & RB' & TB' & _ & HB & _).
  destruct HB as (HB & Hseq & _). cbn [ID]. split; [reflexivity|].
  rewrite (child_of_Bucket_Bucket _ _ _ HB), Hseq, uint64_add_idemp.
  f_equal. lia.
Qed.

(** C3: when [CreateBuild] returns a build [b], [Build(b.ID)] on the store
    it leaves returns [b]. *)
Theorem Build_after_CreateBuild (d d' : DB) (t : BuildType)
    (cloneURL ref commitSHA : string) (build : Build) :
  CreateBuild d t cloneURL ref commitSHA = (Ok build, d') ->
  DB_Build d' (ID build) = Ok build.
Proof. apply CreateBuild_stores_build. Qed.

(** C9: a successful [CreateBuild] takes the ID of the build from the
    sequence of the build bucket and advances that sequence a second time;
    under the build bucket it stores the encoded record at the key of the ID,
    the 8-byte ID at the key of ID + 1 and a nested bucket named by the commit
    SHA, while the top-level sha bucket stays as it was, empty when it was
    new; the next successful [CreateBuild] returns the ID plus two, and
    [Build(ID + 1)] fails on the 8-byte value (for IDs below 2^56, whose
    first byte is zero). *)
Theorem CreateBuild_advances_twice (d d' : DB) (t : BuildType)
    (cloneURL ref commitSHA : string) (build : Build) :
  CreateBuild d t cloneURL ref commitSHA = (Ok build, d') ->
  let B0 := child buildBucket (bolt.committed d) in
  exists B' buf,
    bolt.Bucket_Bucket (bolt.committed d') buildBucket = Some B' /\
    ID build = uint64 (bolt.sequence B0 + 1) /\
    bolt.sequence B' = uint64 (bolt.sequence B0 + 2) /\
    gobEncode (set_db build None) = Some buf /\
    bolt.Bucket_Get B' (itob (ID build)) = Some buf /\
    bolt.Bucket_Get B' (itob (ID build + 1)) = Some (itob (ID build)) /\
    List.length (itob (ID build)) = 8%nat /\
    bolt.Bucket_Bucket B' (bytes_of_string commitSHA)
    = Some (child (bytes_of_string commitSHA) B0) /\
    bolt.Bucket_Bucket (bolt.committed d') shaBucket
    = Some (child shaBucket (bolt.committed d)) /\
    (forall t2 cloneURL2 ref2 commitSHA2 build2 d2,
        CreateBuild d' t2 cloneURL2 ref2 commitSHA2 = (Ok build2, d2) ->
        ID build2 = uint64 (ID build + 2)) /\
    (ID build < 2 ^ 56 -> DB_Build d' (ID build + 1) = Fail ErrGobDecode).
Proof.
  intros H B0. apply CreateBuild_Ok in H. cbv zeta in H. fold B0 in H.
  destruct H as (Hfile & -> & buf & B' & RB' & TB' & Henc & HB & Hsha & _).
  destruct HB as (HB & Hseq & Hid & Hjunk & Hsub & _).
  cbn [ID set_db T CloneURL Ref CommitSHA Status].
  set (id := uint64 (bolt.sequence B0 + 1)) in *.
  assert (Rid : 0 <= id < 2 ^ 64) by apply uint64_range.
  exists B', buf. repeat match goal with |- _ /\ _ => split end.
  - exact HB.
  - reflexivity.
  - rewrite Hseq. unfold id. rewrite uint64_add_idemp. f_equal. lia.
  - exact Henc.
  - unfold bolt.Bucket_Get. rewrite Hid. reflexivity.
  - unfold bolt.Bucket_Get. rewrite <- (itob_uint64 (id + 1)), Hjunk. reflexivity.
  - reflexivity.
  - unfold bolt.Bucket_Bucket. rewrite Hsub. reflexivity.
  - exact Hsha.
  - intros t2 cloneURL2 ref2 commitSHA2 build2 d2 H2.
    apply CreateBuild_Ok in H2. cbv zeta in H2.
    destruct H2 as (_ & -> & _). cbn [ID].
    unfold child. rewrite HB, Hseq. rewrite uint64_add_idemp. f_equal. lia.
  - intros Hsmall.
    destruct (itob_leading_zero id) as [rest Hrest]; [lia|].
    unfold DB_Build, bolt.View, bolt.Bucket_Get. cbn [bolt.root].
    rewrite HB, <- (itob_uint64 (id + 1)), Hjunk, Hrest, gob_empty_message.
    reflexivity.
Qed.

(** C2: on a new store the first build gets ID 1 and the second gets ID 3,
    not 2: the IDs increase, by two. *)
Theorem second_build_has_ID_3 (path : string) (d1 d2 : DB) (t1 t2 : BuildType)
    (cloneURL1 ref1 commitSHA1 cloneURL2 ref2 commitSHA2 : string) (b1 b2 : Build) :
  CreateBuild (Open path) t1 cloneURL1 ref1 commitSHA1 = (Ok b1, d1) ->
  CreateBuild d1 t2 cloneURL2 ref2 commitSHA2 = (Ok b2, d2) ->
  ID b1 = 1 /\ ID b2 = 3 /\ ID b2 <> 2.
Proof.
  intros H1 H2.
  destruct (CreateBuild_sequence _ _ _ _ _ _ _ H1) as [Hid1 Hseq1].
  destruct (CreateBuild_sequence _ _ _ _ _ _ _ H2) as [Hid2 _].
  rewrite Hid2, Hseq1, Hid1.
  change (bolt.sequence (child buildBucket (bolt.committed (Open path)))) with 0.
  vm_compute. repeat split; discriminate.
Qed.

End After_CreateBuild.


Lemma Build_after_CreateBuild_witness :
  @DB_Build sample_codec (snd example_1) (ID (example_build 1)) = Ok (example_build 1).
Proof.
  apply (@Build_after_CreateBuild sample_codec (Open "ci.db") (snd example_1)
           Push "https://host/r" "main" "abc123" (example_build 1)).
  vm_compute. reflexivity.
Defined.

Lemma CreateBuild_advances_twice_witness :
  exists B' buf,
    bolt.Bucket_Bucket (bolt.committed (snd example_1)) buildBucket = Some B' /\
    bolt.sequence B' = 2 /\
    bolt.Bucket_Get B' (itob 1) = Some buf /\
    bolt.Bucket_Get B' (itob 2) = Some (itob 1) /\
    @DB_Build sample_codec (snd example_1) 2 = Fail ErrGobDecode.
Proof.
  destruct (@CreateBuild_advances_twice sample_codec (Open "ci.db") (snd example_1)
              Push "https://host/r" "main" "abc123" (example_build 1))
    as (B' & buf & HB & Hid & Hseq & Henc & Hrec & Hjunk & Hlen & Hsub & Hsha & Hnext & Hbuild).
  { vm_compute. reflexivity. }
  exists B', buf. repeat match goal with |- _ /\ _ => split end.
  - exact HB.
  - exact Hseq.
  - exact Hrec.
  - exact Hjunk.
  - apply Hbuild. reflexivity.
Defined.

Lemma second_build_has_ID_3_witness :
  ID (example_build 1) = 1 /\ ID (example_build 3) = 3 /\ ID (example_build 3) <> 2.
Proof.
  apply (@second_build_has_ID_3 sample_codec "ci.db" (snd example_1) (snd example_2)
           Push Push "https://host/r" "main" "abc123" "https://host/r" "main" "abc123").
  - vm_compute. reflexivity.
  - vm_compute. reflexivity.
Defined.

(** ** Names no call has used *)

Lemma uint64_inj_int a b : is_int a -> is_int b -> uint64 a = uint64 b -> a = b.
Proof.
  unfold is_int, uint64. intros Ha Hb E.
  pose proof (Z.div_mod a (2 ^ 64)). pose proof (Z.div_mod b (2 ^ 64)). lia.
Qed.

Lemma bytes_of_string_inj a b : bytes_of_string a = bytes_of_string b -> a = b.
Proof.
  unfold bytes_of_string. intros E.
  rewrite <- (string_of_list_byte_of_string a), E.
  apply string_of_list_byte_of_string.
Qed.

Lemma indexed_by_more cs cs' r :
  (forall c, In c cs -> In c cs') -> indexed_by cs r -> indexed_by cs' r.
Proof.
  intros Hsub [Hsha Href]. split; [exact Hsha|].
  intros tk TB HT. destruct (Href tk TB HT) as [(c & Hc & E) Hr]. split.
  - exists c. auto.
  - intros rk FB HF. destruct (Hr rk FB HF) as (c' & Hc' & E1 & E2).
    exists c'. auto.
Qed.

Section Unused.

Context {codec : GobCodec}.

Lemma create_indexed cs d c :
  indexed_by cs (bolt.committed d) ->
  indexed_by (cs ++ [c]) (bolt.committed (create d c)).
Proof.
  intros Inv. unfold create.
  destruct (CreateBuild_rollback d (call_T c) (call_CloneURL c) (call_Ref c)
              (call_CommitSHA c)) as [[build Hok]|Hsame].
  2:{ rewrite Hsame. eapply indexed_by_more; [|exact Inv].
      intros c0 H0. apply in_or_app. left. exact H0. }
  destruct (CreateBuild d _ _ _ _) as [o d'] eqn:E. cbn [fst snd] in *. subst o.
  apply CreateBuild_Ok in E. cbv zeta in E.
  destruct E as (_ & _ & buf & B' & RB' & TB' & _ & _ & Hsha & Href & _).
  destruct Href as (HRB & HTB & HFB & Htypes & Hrefs).
  destruct Inv as [Isha Iref].
  assert (Hlast : In c (cs ++ [c])) by (apply in_or_app; right; left; reflexivity).
  split.
  - intros k. rewrite (child_of_Bucket_Bucket _ _ _ Hsha). apply Isha.
  - rewrite (child_of_Bucket_Bucket _ _ _ HRB).
    intros tk TB HT.
    destruct (list_eq_dec Byte.byte_eq_dec tk (itob (uint64 (call_T c)))) as [->|Htk].
    + rewrite HTB in HT. injection HT as <-. split.
      * exists c. split; [exact Hlast|reflexivity].
      * intros rk FB HF.
        destruct (list_eq_dec Byte.byte_eq_dec rk (bytes_of_string (call_Ref c)))
          as [->|Hrk].
        -- exists c. repeat split; [exact Hlast].
        -- rewrite (Bucket_Bucket_find_ext _ _ _ (Hrefs rk Hrk)) in HF.
           destruct (bolt.Bucket_Bucket (child refBucket (bolt.committed d))
                       (itob (uint64 (call_T c)))) as [TB0|] eqn:E0.
           ++ rewrite (child_of_Bucket_Bucket _ _ _ E0) in HF.
              destruct (Iref _ _ E0) as [_ Hr].
              destruct (Hr rk FB HF) as (c' & Hc' & E1 & E2).
              exists c'. repeat split; [apply in_or_app; left; exact Hc'|exact E1|exact E2].
           ++ rewrite (child_of_no_Bucket _ _ E0) in HF. discriminate.
    + rewrite (Bucket_Bucket_find_ext _ _ _ (Htypes tk Htk)) in HT.
      destruct (Iref _ _ HT) as [(c' & Hc' & E1) Hr]. split.
      * exists c'. split; [apply in_or_app; left; exact Hc'|exact E1].
      * intros rk FB HF. destruct (Hr rk FB HF) as (c2 & Hc2 & E2 & E3).
        exists c2. repeat split; [apply in_or_app; left; exact Hc2|exact E2|exact E3].
Qed.

Lemma creates_indexed cs path :
  indexed_by cs (bolt.committed (creates cs (Open path))).
Proof.
  induction cs as [|c cs IH] using rev_ind.
  - split.
    + intros k. reflexivity.
    + intros tk TB HT. discriminate.
  - unfold creates. rewrite fold_left_app. apply create_indexed, IH.
Qed.

Lemma idsToBuilds_nil d : idsToBuilds d [] = Ok [].
Proof. reflexivity. Qed.

Lemma SHABuilds_indexed cs d sha : indexed_by cs (bolt.committed d) -> SHABuilds d sha = Ok [].
Proof.
  intros [Hsha _]. unfold SHABuilds, shaBuilds, bolt.View. cbn [bolt.root].
  destruct (bolt.Bucket_Bucket (bolt.committed d) shaBucket) as [S|] eqn:E;
    [|reflexivity].
  specialize (Hsha (bytes_of_string sha)).
  rewrite (child_of_Bucket_Bucket _ _ _ E) in Hsha.
  unfold bolt.Bucket_Bucket. rewrite Hsha. reflexivity.
Qed.

(** C10: on the store a sequence of [CreateBuild] calls leaves, [Refs] of a
    build type none of the calls had, [RefBuilds] with a valid range of a
    build type and ref no call had together, and [SHABuilds] of a commit SHA
    no call had all return an empty list and no error. *)
Theorem unused_names_have_no_builds (path : string) (cs : list call)
    (t : BuildType) (ref sha : string) (start end_ : Z) :
  is_int t ->
  Forall (fun c => is_int (call_T c)) cs ->
  let d := creates cs (Open path) in
  (Forall (fun c => call_T c <> t) cs -> Refs d t = Ok []) /\
  (Forall (fun c => call_T c <> t \/ call_Ref c <> ref) cs ->
   validate start end_ = None ->
   RefBuilds d t ref start end_ = Ok []) /\
  (Forall (fun c => call_CommitSHA c <> sha) cs -> SHABuilds d sha = Ok []).
Proof.
  intros Ht Hcs d. pose proof (creates_indexed cs path) as Inv. fold d in Inv.
  rewrite Forall_forall in Hcs.
  repeat match goal with |- _ /\ _ => split end.
  - intros Hno. rewrite Forall_forall in Hno.
    unfold Refs, bolt.View. cbn [bolt.root].
    destruct (bolt.Bucket_Bucket (bolt.committed d) refBucket) as [RB|] eqn:ER;
      [|reflexivity].
    destruct (bolt.Bucket_Bucket RB (itob (uint64 t))) as [TB|] eqn:ET; [|reflexivity].
    exfalso. destruct Inv as [_ Iref].
    rewrite <- (child_of_Bucket_Bucket _ _ _ ER) in ET.
    destruct (Iref _ _ ET) as [(c & Hc & E) _].
    apply itob_inj in E; try apply uint64_range.
    apply uint64_inj_int in E; [|exact Ht|apply Hcs, Hc].
    apply (Hno c Hc). congruence.
  - intros Hno Hvalid. rewrite Forall_forall in Hno.
    unfold RefBuilds. rewrite Hvalid.
    destruct (start =? end_); [reflexivity|].
    unfold refBuilds, bolt.View. cbn [bolt.root].
    destruct (bolt.Bucket_Bucket (bolt.committed d) refBucket) as [RB|] eqn:ER;
      [|reflexivity].
    destruct (bolt.Bucket_Bucket RB (itob (uint64 t))) as [TB|] eqn:ET; [|reflexivity].
    destruct (bolt.Bucket_Bucket TB (bytes_of_string ref)) as [FB|] eqn:EF; [|reflexivity].
    exfalso. destruct Inv as [_ Iref].
    rewrite <- (child_of_Bucket_Bucket _ _ _ ER) in ET.
    destruct (Iref _ _ ET) as [_ Hr].
    destruct (Hr _ _ EF) as (c & Hc & E1 & E2).
    apply itob_inj in E1; try apply uint64_range.
    apply uint64_inj_int in E1; [|exact Ht|apply Hcs, Hc].
    apply bytes_of_string_inj in E2.
    destruct (Hno c Hc) as [H|H]; apply H; congruence.
  - intros _. apply (SHABuilds_indexed cs), Inv.
Qed.

End Unused.

(** ** The ref and sha indices *)

Lemma refBuilds_loop_unbounded diff diff' c ids :
  refBuilds_loop (-1) diff c ids = refBuilds_loop (-1) diff' c ids.
Proof.
  revert ids. induction c as [|[k v] c IH]; intros ids; cbn [refBuilds_loop].
  - reflexivity.
  - cbn [Z.eqb orb]. destruct (btoi_value v); [apply IH|reflexivity].
Qed.

Lemma refBuilds_unbounded d t ref start start' :
  refBuilds d t ref start (-1) = refBuilds d t ref start' (-1).
Proof.
  unfold refBuilds, bolt.View. cbn [bolt.root].
  destruct (bolt.Bucket_Bucket (bolt.committed d) refBucket) as [b|]; [|reflexivity].
  destruct (bolt.Bucket_Bucket b (itob (uint64 t))) as [b0|]; [|reflexivity].
  destruct (bolt.Bucket_Bucket b0 (bytes_of_string ref)) as [b1|]; [|reflexivity].
  rewrite (refBuilds_loop_unbounded _ (int (-1 - start'))). reflexivity.
Qed.

(** C4: [RefBuilds] never skips to the offset [start].  With [end = -1] its
    result is the same for every [start >= 0], on every store; with three
    builds of one ref, IDs 1, 3 and 5, from offset 1 to the oldest it returns
    all three builds, newest first, and from offset 1 to offset 3 it returns
    the two newest, 5 and 3. *)
Theorem RefBuilds_ignores_start :
  (forall (codec : GobCodec) (d : DB) (t : BuildType) (ref : string) (start : Z),
      0 <= start ->
      @RefBuilds codec d t ref start (-1) = @RefBuilds codec d t ref 0 (-1)) /\
  @RefBuilds sample_codec (snd example_3) Push "main" 1 (-1)
  = Ok [example_build 5; example_build 3; example_build 1] /\
  @RefBuilds sample_codec (snd example_3) Push "main" 1 3
  = Ok [example_build 5; example_build 3].
Proof.
  split; [|split; vm_compute; reflexivity].
  intros codec d t ref start Hs. unfold RefBuilds, validate.
  destruct (Z.ltb_spec start 0); [lia|]. cbn [Z.ltb Z.compare Z.geb andb Z.eqb].
  destruct (Z.eqb_spec start (-1)); [lia|].
  rewrite (refBuilds_unbounded d t ref start 0). reflexivity.
Qed.

(** C5: [SHABuilds] returns no build for any commit SHA on any store that
    calls of [CreateBuild] leave, since [CreateBuild] writes the entry of the
    commit under the build bucket; after three builds of one commit SHA it
    returns the empty list, and the sha bucket is empty. *)
Theorem SHABuilds_after_three_builds :
  (forall (codec : GobCodec) (cs : list call) (path sha : string),
      @SHABuilds codec (@creates codec cs (Open path)) sha = Ok []) /\
  @SHABuilds sample_codec (snd example_3) "abc123" = Ok [] /\
  bolt.Bucket_Bucket (bolt.committed (snd example_3)) shaBucket = Some bolt.empty.
Proof.
  split; [|split; vm_compute; reflexivity].
  intros codec cs path sha. apply (SHABuilds_indexed cs), creates_indexed.
Qed.

Ltac each_call tac := repeat (apply Forall_cons; [tac|]); apply Forall_nil.

Lemma unused_names_have_no_builds_witness :
  let cs := [MkCall Push "https://host/r" "main" "abc123";
             MkCall Push "https://host/r" "dev" "abc123"] in
  let d := @creates sample_codec cs (Open "ci.db") in
  Refs d PullRequest = Ok [] /\
  @RefBuilds sample_codec d Push "release" 0 (-1) = Ok [] /\
  @SHABuilds sample_codec d "fff" = Ok [].
Proof.
  intros cs d.
  destruct (@unused_names_have_no_builds sample_codec "ci.db" cs PullRequest
              "release" "fff" 0 (-1)) as (H1 & _ & H3).
  { unfold is_int, PullRequest. lia. }
  { each_call ltac:(unfold is_int, call_T, Push; lia). }
  destruct (@unused_names_have_no_builds sample_codec "ci.db" cs Push
              "release" "fff" 0 (-1)) as (_ & H2 & _).
  { unfold is_int, Push. lia. }
  { each_call ltac:(unfold is_int, call_T, Push; lia). }
  split; [|split].
  - apply H1. each_call ltac:(discriminate).
  - apply H2; [|reflexivity]. each_call ltac:(right; discriminate).
  - apply H3. each_call ltac:(discriminate).
Defined.

(** ** Running a status transition *)

Ltac run_delete H :=
  match type of H with
  | context [bind (bucket_Delete (mk_bucket (Some ?p)) ?k) _ (writing ?R)] =>
      let e := fresh "e" in let E := fresh "E" in
      let Hl := fresh "Hnested" in
      edestruct (bucket_Delete_writing p k R) as [[e E]|(Hl & E)];
      [resolve_ref| |];
      rewrite (bind_step _ _ _ _ _ E) in H; clear E; [dead_run H|tidy H; tidy Hl]
  end.

Lemma tx_Bucket_writing n r :
  tx_Bucket n (writing r)
  = Some (match bolt.Bucket_Bucket r n with
          | Some _ => Some (mk_bucket (Some [n]))
          | None => None
          end, writing r).
Proof.
  unfold tx_Bucket, writing, bolt.Tx_Bucket. cbn [tx_err tx_t bolt.root].
  destruct (bolt.Bucket_Bucket r n); reflexivity.
Qed.

Section Transition_run.

Context {codec : GobCodec}.

Lemma Transition_update_writing id s r x :
  Transition_update id s (writing r) = x ->
  let B0 := child buildBucket r in
  let P0 := child pendingBucket r in
  failed_run x \/
  exists v build buf r',
    x = Some ((None, tt), writing r') /\
    bolt.find (itob id) (bolt.entries B0) = Some (bolt.Leaf v) /\
    gobDecode v = Some build /\
    forward (Status build) s = true /\
    gobEncode (set_Status build s) = Some buf /\
    bolt.Bucket_Bucket r' buildBucket
    = Some (bolt.MkBucket (bolt.sequence B0)
              (bolt.put_entry (itob id) (bolt.Leaf buf) (bolt.entries B0))) /\
    bolt.Bucket_Bucket r' pendingBucket
    = Some (if terminal s
            then bolt.MkBucket (bolt.sequence P0)
                   (bolt.delete_entry (itob id) (bolt.entries P0))
            else P0).
Proof.
  intros Hx B0 P0. unfold Transition_update in Hx.
  rewrite (bind_step _ _ _ _ _ (tx_Bucket_writing buildBucket r)) in Hx.
  assert (HB : bolt.Bucket_Bucket r buildBucket = Some B0 \/
               bolt.Bucket_Bucket r buildBucket = None).
  { unfold B0, child. destruct (bolt.Bucket_Bucket r buildBucket); auto. }
  destruct HB as [HB|HB]; rewrite HB in Hx; [|dead_run Hx].
  assert (HF : bolt.find buildBucket (bolt.entries r) = Some (bolt.Nested B0)).
  { unfold bolt.Bucket_Bucket in HB.
    destruct (bolt.find buildBucket (bolt.entries r)) as [[?|?]|]; congruence. }
  erewrite bind_step in Hx
    by (apply bucket_Get_writing; erewrite resolve_cons by exact HF; reflexivity).
  unfold bolt.Bucket_Get in Hx.
  destruct (bolt.find (itob id) (bolt.entries B0)) as [[v|c]|] eqn:Hv;
    [|dead_run Hx|dead_run Hx].
  destruct (gobDecode v) as [build|] eqn:Hdec; [|dead_run Hx].
  destruct (forward (Status build) s) eqn:Hfw; [|dead_run Hx].
  destruct (gobEncode (set_Status build s)) as [buf|] eqn:Henc; [|dead_run Hx].
  destruct (terminal s) eqn:Hterm.
  - match type of Hx with
    | context [bind (bucket_Put (mk_bucket (Some ?p)) ?k ?v0) _ (writing ?R)] =>
        edestruct (bucket_Put_writing p k v0 R) as [[e E]|(Hkey & Hnested & E)];
        [erewrite resolve_cons by exact HF; reflexivity| |];
        rewrite (bind_step _ _ _ _ _ E) in Hx; clear E; [dead_run Hx|]
    end.
    erewrite replace_cons in Hx by exact HF. tidy Hx.
    run_create_tx Hx. fold P0 in Hx.
    run_delete Hx. fold P0 in Hx.
    right. exists v, build, buf. eexists.
    split; [symmetry; exact Hx|].
    repeat match goal with |- _ /\ _ => split end; try reflexivity; try assumption.
    + unfold bolt.Bucket_Bucket. find_key.
    + unfold bolt.Bucket_Bucket. find_key.
  - match type of Hx with
    | context [bind (bucket_Put (mk_bucket (Some ?p)) ?k ?v0) _ (writing ?R)] =>
        edestruct (bucket_Put_writing p k v0 R) as [[e E]|(Hkey & Hnested & E)];
        [erewrite resolve_cons by exact HF; reflexivity| |];
        rewrite (bind_step _ _ _ _ _ E) in Hx; clear E; [dead_run Hx|]
    end.
    erewrite replace_cons in Hx by exact HF. tidy Hx.
    run_create_tx Hx. fold P0 in Hx.
    erewrite bind_step in Hx by reflexivity.
    right. exists v, build, buf. eexists.
    split; [symmetry; exact Hx|].
    repeat match goal with |- _ /\ _ => split end; try reflexivity; try assumption.
    + unfold bolt.Bucket_Bucket. find_key.
    + unfold bolt.Bucket_Bucket. find_key.
      rewrite child_set_child_other by discriminate. reflexivity.
Qed.

Lemma Transition_rollback d id s :
  fst (Transition d id s) = Ok tt \/ snd (Transition d id s) = d.
Proof.
  unfold Transition, update, bolt.Update.
  destruct (dispatch _ _) as [[[[e|] []] t']|]; cbn.
  - right. reflexivity.
  - left. reflexivity.
  - right. reflexivity.
Qed.

Lemma Transition_Ok d id s d' :
  Transition d id s = (Ok tt, d') ->
  let B0 := child buildBucket (bolt.committed d) in
  let P0 := child pendingBucket (bolt.committed d) in
  bolt.file d' = bolt.file d /\
  exists v build buf,
    bolt.find (itob id) (bolt.entries B0) = Some (bolt.Leaf v) /\
    gobDecode v = Some build /\
    forward (Status build) s = true /\
    gobEncode (set_Status build s) = Some buf /\
    bolt.Bucket_Bucket (bolt.committed d') buildBucket
    = Some (bolt.MkBucket (bolt.sequence B0)
              (bolt.put_entry (itob id) (bolt.Leaf buf) (bolt.entries B0))) /\
    bolt.Bucket_Bucket (bolt.committed d') pendingBucket
    = Some (if terminal s
            then bolt.MkBucket (bolt.sequence P0)
                   (bolt.delete_entry (itob id) (bolt.entries P0))
            else P0).
Proof.
  intros H B0 P0.
  unfold Transition, update, bolt.Update, dispatch in H.
  fold (writing (bolt.committed d)) in H.
  destruct (Transition_update_writing id s (bolt.committed d) _ eq_refl) as [Hf|Hok].
  - exfalso. unfold failed_run in Hf.
    destruct (Transition_update _ _ _) as [[[[e|] a] s0]|]; try contradiction.
    + destruct (tx_err s0); discriminate.
    + destruct (tx_err s0); [discriminate|congruence].
  - destruct Hok as (v & build & buf & r1 & Hx & Hobs).
    rewrite Hx in H. cbn in H. injection H as <-.
    cbn [bolt.committed bolt.file].
    split; [reflexivity|]. exists v, build, buf. exact Hobs.
Qed.

End Transition_run.

(** ** The pending index *)

Lemma itob_neq a b : 0 <= a < 2 ^ 64 -> 0 <= b < 2 ^ 64 -> a <> b -> itob a <> itob b.
Proof. intros Ha Hb Hne E. apply Hne. apply itob_inj; assumption. Qed.

Section Pending_invariant.

Context {codec : GobCodec}.

Lemma pending_indexed_Open path : pending_indexed (Open path) [].
Proof.
  unfold pending_indexed. cbn.
  repeat match goal with |- _ /\ _ => split end.
  - exists 0. lia.
  - intros id [].
  - exact I.
  - intros k [].
Qed.

Lemma pending_indexed_create d ids t cloneURL ref commitSHA build d' :
  pending_indexed d ids ->
  CreateBuild d t cloneURL ref commitSHA = (Ok build, d') ->
  pending_indexed d' (ids ++ [ID build]).
Proof.
  intros (Hseq & Hids & Hasc & Hkeys) H.
  apply CreateBuild_Ok in H. cbv zeta in H.
  destruct H as (_ & -> & buf & B' & RB' & TB' & Henc & HB & _ & _ & HP & _).
  destruct HB as (HB & Hseq' & Hrec & Hjunk & Hsub & Hnoleaf & Hframe).
  cbn [ID].
  set (B0 := child buildBucket (bolt.committed d)) in *.
  set (P0 := child pendingBucket (bolt.committed d)) in *.
  destruct Hseq as (n & Hn & Hr).
  assert (Hid : uint64 (bolt.sequence B0 + 1) = bolt.sequence B0 + 1)
    by (apply uint64_small; lia).
  rewrite Hid in *.
  set (id := bolt.sequence B0 + 1) in *.
  assert (Rid : 0 <= id < 2 ^ 64) by (unfold id; lia).
  assert (Hjeven : exists m, uint64 (id + 1) = 2 * m).
  { unfold uint64. destruct (Z.eq_dec (id + 1) (2 ^ 64)) as [E|E].
    - rewrite E, Z.mod_same by lia. exists 0. lia.
    - rewrite Z.mod_small by lia. exists (n + 1). unfold id. lia. }
  pose proof (uint64_range (id + 1)) as Rj.
  apply gob_round_trip in Henc. cbn [set_db ID T CloneURL Ref CommitSHA Status] in Henc.
  unfold pending_indexed.
  rewrite (child_of_Bucket_Bucket _ _ _ HB), (child_of_Bucket_Bucket _ _ _ HP).
  unfold keys. cbn [bolt.entries bolt.sequence].
  repeat match goal with |- _ /\ _ => split end.
  - destruct Hjeven as (m & Hm). exists m. rewrite Hseq'. lia.
  - intros x Hx.
    destruct (Z.eq_dec x id) as [->|Hne].
    + split; [exists n; unfold id; lia|]. split; [exact Rid|].
      eexists buf, _. split; [exact Hrec|]. split; [exact Henc|].
      split; [reflexivity|]. cbn [Status]. split; [reflexivity|].
      intros _. apply keys_put_entry. left. reflexivity.
    + apply in_app_or in Hx. destruct Hx as [Hx|[Hx|[]]]; [|congruence].
      destruct (Hids x Hx) as ((m & Hm) & Rx & bufx & bx & Hfx & Hdx & Hix & Hpx).
      split; [exists m; exact Hm|]. split; [exact Rx|].
      exists bufx, bx. split.
      * rewrite Hframe; [exact Hfx| | |].
        -- apply itob_neq; assumption.
        -- destruct Hjeven as (j & Hj). apply itob_neq; try assumption. lia.
        -- intros E. eapply Hnoleaf. rewrite <- E. exact Hfx.
      * split; [exact Hdx|]. split; [exact Hix|].
        rewrite keys_put_entry. rewrite <- Hpx. unfold keys. split.
        -- intros [E|Hin]; [|exact Hin]. exfalso.
           apply itob_inj in E; try assumption. contradiction.
        -- intros Hin. right. exact Hin.
  - apply ascending_keys_put. exact Hasc.
  - intros k Hk. apply keys_put_entry in Hk. destruct Hk as [->|Hk].
    + exists id. split; [apply in_or_app; right; left; reflexivity|reflexivity].
    + destruct (Hkeys k Hk) as (x & Hx & E). exists x.
      split; [apply in_or_app; left; exact Hx|exact E].
Qed.

Lemma forward_not_terminal from to :
  forward from to = true -> terminal to = false ->
  pending from = true /\ pending to = true.
Proof. destruct from, to; cbn; intros; try discriminate; split; reflexivity. Qed.

Lemma pending_indexed_move d ids id s d' :
  pending_indexed d ids ->
  Transition d id s = (Ok tt, d') ->
  pending_indexed d' ids.
Proof.
  intros (Hseq & Hids & Hasc & Hkeys) H.
  apply Transition_Ok in H. cbv zeta in H.
  destruct H as (_ & v & build & buf & Hv & Hdec & Hfw & Henc & HB & HP).
  set (B0 := child buildBucket (bolt.committed d)) in *.
  set (P0 := child pendingBucket (bolt.committed d)) in *.
  apply gob_round_trip in Henc.
  unfold pending_indexed.
  rewrite (child_of_Bucket_Bucket _ _ _ HB), (child_of_Bucket_Bucket _ _ _ HP).
  cbn [bolt.entries bolt.sequence].
  assert (Hkeys' : forall k,
             In k (keys (if terminal s
                         then bolt.MkBucket (bolt.sequence P0)
                                (bolt.delete_entry (itob id) (bolt.entries P0))
                         else P0))
             <-> (terminal s = true -> k <> itob id) /\ In k (keys P0)).
  { intros k. destruct (terminal s).
    - unfold keys. cbn [bolt.entries]. rewrite keys_delete_entry by exact Hasc.
      intuition congruence.
    - intuition congruence. }
  repeat match goal with |- _ /\ _ => split end.
  - exact Hseq.
  - intros x Hx.
    destruct (Hids x Hx) as (Hodd & Rx & bufx & bx & Hfx & Hdx & Hix & Hpx).
    split; [exact Hodd|]. split; [exact Rx|].
    destruct (list_eq_dec Byte.byte_eq_dec (itob x) (itob id)) as [E|E].
    + rewrite E in Hfx. rewrite Hv in Hfx. injection Hfx as <-.
      rewrite Hdec in Hdx. injection Hdx as <-.
      eexists buf, _. rewrite E. split; [apply find_put_same|].
      split; [exact Henc|]. split; [exact Hix|].
      cbn [set_db set_Status Status]. rewrite Hkeys'. rewrite <- E.
      destruct (terminal s) eqn:Ht.
      * unfold pending. rewrite Ht. cbn. split; [|discriminate].
        intros [Hc _]. exfalso. apply Hc; reflexivity.
      * destruct (forward_not_terminal _ _ Hfw Ht) as [Hp1 Hp2].
        split; [intros _; exact Hp2|].
        intros _. split; [discriminate|]. apply Hpx. exact Hp1.
    + exists bufx, bx. split; [rewrite find_put_other by congruence; exact Hfx|].
      split; [exact Hdx|]. split; [exact Hix|].
      rewrite Hkeys'. rewrite <- Hpx. tauto.
  - destruct (terminal s); [|exact Hasc].
    unfold keys. cbn [bolt.entries]. apply ascending_keys_delete, Hasc.
  - intros k Hk. apply Hkeys' in Hk. apply Hkeys, Hk.
Qed.

Lemma pending_indexed_event d ids ev :
  pending_indexed d ids ->
  pending_indexed (fst (apply_event (d, ids) ev)) (snd (apply_event (d, ids) ev)).
Proof.
  intros Inv. destruct ev as [t cloneURL ref commitSHA|id s]; cbn [apply_event].
  - destruct (CreateBuild_rollback d t cloneURL ref commitSHA) as [[build Hok]|Hsame].
    + destruct (CreateBuild d t cloneURL ref commitSHA) as [o d'] eqn:E.
      cbn [fst] in Hok. subst o. cbn [fst snd].
      eapply pending_indexed_create; eassumption.
    + destruct (CreateBuild d t cloneURL ref commitSHA) as [o d'] eqn:E.
      cbn [snd] in Hsame. subst d'.
      destruct o; cbn [fst snd]; try exact Inv.
      eapply pending_indexed_create; eassumption.
  - cbn [fst snd].
    destruct (Transition_rollback d id s) as [Hok|Hsame].
    + destruct (Transition d id s) as [o d'] eqn:E. cbn [fst snd] in *. subst o.
      eapply pending_indexed_move; eassumption.
    + rewrite Hsame. exact Inv.
Qed.

Lemma pending_indexed_history evs path :
  pending_indexed (fst (history evs path)) (snd (history evs path)).
Proof.
  unfold history. induction evs as [|ev evs IH] using rev_ind.
  - apply pending_indexed_Open.
  - rewrite fold_left_app. cbn [fold_left].
    destruct (fold_left apply_event evs (Open path, [])) as [d ids].
    apply pending_indexed_event. exact IH.
Qed.

End Pending_invariant.

(** ** Reading the pending index *)

Lemma pending_iff s : pending s = true <-> s = BuildQueued \/ s = BuildRunning.
Proof. destruct s; cbn; intuition discriminate. Qed.

Lemma ascending_of_keys pids :
  Forall (fun id => 0 <= id < 2 ^ 64) pids ->
  ascending_keys (map itob pids) -> ascending pids.
Proof.
  induction pids as [|x pids IH]; intros Hr Hs; [exact I|].
  inversion Hr as [|? ? Hx Hr']; subst.
  cbn [map ascending_keys ascending] in *. destruct Hs as [H0 Hs].
  split; [|apply IH; assumption].
  destruct pids as [|y pids]; [exact I|].
  inversion Hr' as [|? ? Hy _]; subst. cbn [map] in H0.
  rewrite bytes_compare_itob in H0 by assumption.
  apply Z.compare_lt_iff. exact H0.
Qed.

Lemma In_map_itob id pids :
  0 <= id < 2 ^ 64 -> Forall (fun id => 0 <= id < 2 ^ 64) pids ->
  (In (itob id) (map itob pids) <-> In id pids).
Proof.
  intros Hid Hr. rewrite Forall_forall in Hr. split.
  - intros H. apply in_map_iff in H. destruct H as (x & E & Hx).
    apply itob_inj in E; [subst; exact Hx|apply Hr, Hx|exact Hid].
  - apply in_map.
Qed.

Section Pending_read.

Context {codec : GobCodec}.

Lemma pendingBuilds_loop_keys es acc :
  (forall k, In k (map fst es) -> exists id, 0 <= id < 2 ^ 64 /\ k = itob id) ->
  exists pids,
    pendingBuilds_loop (map bolt.item es) acc = Some (acc ++ pids) /\
    map fst es = map itob pids /\
    Forall (fun id => 0 <= id < 2 ^ 64) pids.
Proof.
  revert acc. induction es as [|[k n] es IH]; intros acc Hk.
  - exists []. rewrite app_nil_r. repeat split. constructor.
  - destruct (Hk k) as (id & Rid & ->); [left; reflexivity|].
    destruct (IH (acc ++ [id])) as (pids & Hl & Hm & Hr).
    { intros k' Hk'. apply Hk. right. exact Hk'. }
    exists (id :: pids). cbn [map fst].
    assert (Hitem : bolt.item (itob id, n) = (itob id, snd (bolt.item (itob id, n))))
      by (destruct n; reflexivity).
    rewrite Hitem. cbn [pendingBuilds_loop].
    rewrite btoi_itob by exact Rid. rewrite Hl, <- app_assoc. cbn [app].
    repeat split; [f_equal; exact Hm|constructor; assumption].
Qed.

Lemma idsToBuilds_from_all d ids acc :
  (forall id, In id ids -> exists b, DB_Build d id = Ok b /\ ID b = id) ->
  exists bs,
    idsToBuilds_from d ids acc = Ok (acc ++ bs) /\
    Forall2 (fun id b => DB_Build d id = Ok b) ids bs /\
    map ID bs = ids.
Proof.
  revert acc. induction ids as [|id ids IH]; intros acc Hall.
  - exists []. rewrite app_nil_r. repeat split. constructor.
  - destruct (Hall id) as (b & Hb & Hid); [left; reflexivity|].
    destruct (IH (acc ++ [b])) as (bs & Hl & Hf & Hm).
    { intros x Hx. apply Hall. right. exact Hx. }
    exists (b :: bs). cbn [idsToBuilds_from]. rewrite Hb, Hl, <- app_assoc.
    repeat split; [constructor; assumption|cbn [map]; congruence].
Qed.

Lemma Forall2_In_l {A B : Type} (R : A -> B -> Prop) l l' x :
  Forall2 R l l' -> In x l -> exists y, In y l' /\ R x y.
Proof.
  induction 1 as [|a b l l' Hab _ IH]; intros Hin; [contradiction|].
  destruct Hin as [->|Hin].
  - exists b. split; [left; reflexivity|exact Hab].
  - destruct (IH Hin) as (y & Hy & Hr). exists y. split; [right; exact Hy|exact Hr].
Qed.

Lemma pending_indexed_DB_Build d ids id :
  pending_indexed d ids -> In id ids ->
  exists build,
    DB_Build d id = Ok build /\ ID build = id /\
    (In (itob id) (keys (child pendingBucket (bolt.committed d)))
     <-> pending (Status build) = true).
Proof.
  intros (_ & Hids & _ & _) Hin.
  destruct (Hids id Hin) as (_ & _ & buf & build & Hf & Hd & Hi & Hp).
  exists (set_db build (Some (bolt.file d))).
  split; [|split; [exact Hi|exact Hp]].
  eapply DB_Build_stored; [|exact Hf|exact Hd].
  unfold child in *.
  destruct (bolt.Bucket_Bucket (bolt.committed d) buildBucket); [reflexivity|].
  discriminate.
Qed.

Lemma pending_indexed_read d ids :
  pending_indexed d ids ->
  exists pids builds,
    pendingBuilds d = Ok pids /\
    PendingBuilds d = Ok builds /\
    map ID builds = pids /\
    ascending pids /\
    (forall id, In id pids -> In id ids) /\
    (forall id, In id ids ->
       exists build,
         DB_Build d id = Ok build /\ ID build = id /\
         (In id pids <-> Status build = BuildQueued \/ Status build = BuildRunning) /\
         (In id pids <-> In build builds)).
Proof.
  intros Inv. pose proof Inv as (_ & Hids & Hasc & Hkeys).
  set (P := child pendingBucket (bolt.committed d)) in *.
  destruct (pendingBuilds_loop_keys (bolt.entries P) []) as (pids & Hloop & Hmap & Hr).
  { intros k Hk. destruct (Hkeys k Hk) as (id & Hid & ->).
    exists id. split; [apply (Hids id Hid)|reflexivity]. }
  cbn [app] in Hloop. fold (keys P) in Hmap.
  assert (Hsub : forall id, In id pids -> In id ids).
  { intros id Hid. destruct (Hkeys (itob id)) as (x & Hx & E).
    - rewrite Hmap. apply in_map, Hid.
    - rewrite Forall_forall in Hr.
      apply itob_inj in E; [subst; exact Hx|apply Hr, Hid|apply (Hids x Hx)]. }
  assert (Hpb : pendingBuilds d = Ok pids).
  { unfold pendingBuilds, bolt.View. cbn [bolt.root].
    unfold P, child in Hloop, Hmap.
    destruct (bolt.Bucket_Bucket (bolt.committed d) pendingBucket) as [P'|].
    - unfold bolt.Cursor_forward. rewrite Hloop. reflexivity.
    - destruct pids; [reflexivity|discriminate]. }
  destruct (idsToBuilds_from_all d pids []) as (builds & Hbs & Hf2 & Hm).
  { intros id Hid.
    destruct (pending_indexed_DB_Build d ids id Inv (Hsub id Hid)) as (b & Hb & Hi & _).
    exists b. split; assumption. }
  cbn [app] in Hbs.
  exists pids, builds. repeat match goal with |- _ /\ _ => split end.
  - exact Hpb.
  - unfold PendingBuilds. rewrite Hpb. exact Hbs.
  - exact Hm.
  - apply ascending_of_keys; [exact Hr|]. rewrite <- Hmap. exact Hasc.
  - exact Hsub.
  - intros id Hid.
    destruct (pending_indexed_DB_Build d ids id Inv Hid) as (b & Hb & Hi & Hp).
    exists b. split; [exact Hb|]. split; [exact Hi|].
    fold P in Hp. rewrite Hmap in Hp.
    rewrite In_map_itob in Hp; [|apply (Hids id Hid)|exact Hr].
    split; [rewrite Hp; apply pending_iff|].
    split.
    + intros Hin. destruct (Forall2_In_l _ _ _ _ Hf2 Hin) as (y & Hy & Hry).
      rewrite Hb in Hry. injection Hry as <-. exact Hy.
    + intros Hin. rewrite <- Hm, <- Hi. apply in_map, Hin.
Qed.

(** C1: in every store that creations and status transitions lead to from a
    new one, [pendingBuilds] lists, in ascending order, IDs that [CreateBuild]
    has returned, [PendingBuilds] returns their builds, and a created build is
    listed exactly when its status is queued or running; a build that
    [CreateBuild] returns is in [PendingBuilds] right after. *)
Theorem pending_index_invariant (evs : list event) (path : string) :
  let d := fst (history evs path) in
  let ids := snd (history evs path) in
  exists pids builds,
    pendingBuilds d = Ok pids /\
    PendingBuilds d = Ok builds /\
    map ID builds = pids /\
    ascending pids /\
    (forall id, In id pids -> In id ids) /\
    (forall id, In id ids ->
       exists build,
         DB_Build d id = Ok build /\ ID build = id /\
         (In id pids <-> Status build = BuildQueued \/ Status build = BuildRunning) /\
         (In id pids <-> In build builds)) /\
    (forall t cloneURL ref commitSHA build d',
        CreateBuild d t cloneURL ref commitSHA = (Ok build, d') ->
        exists builds', PendingBuilds d' = Ok builds' /\ In build builds').
Proof.
  intros d ids. pose proof (pending_indexed_history evs path) as Inv.
  fold d ids in Inv.
  destruct (pending_indexed_read d ids Inv)
    as (pids & builds & H1 & H2 & H3 & H4 & H5 & H6).
  exists pids, builds.
  repeat match goal with |- _ /\ _ => split end; try assumption.
  intros t cloneURL ref commitSHA build d' Hc.
  pose proof (pending_indexed_create _ _ _ _ _ _ _ _ Inv Hc) as Inv'.
  destruct (pending_indexed_read d' _ Inv')
    as (pids' & builds' & _ & H2' & _ & _ & _ & H6').
  exists builds'. split; [exact H2'|].
  destruct (H6' (ID build)) as (b & Hb & _ & Hst & Hin).
  { apply in_or_app. right. left. reflexivity. }
  rewrite (CreateBuild_stores_build _ _ _ _ _ _ _ Hc) in Hb. injection Hb as <-.
  apply Hin, Hst. left.
  apply CreateBuild_Ok in Hc. cbv zeta in Hc. destruct Hc as (_ & -> & _). reflexivity.
Qed.

End Pending_read.

(** The example store once build 1 has run and failed: builds 3 and 5 are
    pending. *)
Example pending_after_failure :
  let d1 := snd (@Transition sample_codec (snd example_3) 1 BuildRunning) in
  let d2 := snd (@Transition sample_codec d1 1 BuildFailed) in
  pendingBuilds (snd example_3) = Ok [1; 3; 5] /\
  pendingBuilds d1 = Ok [1; 3; 5] /\
  pendingBuilds d2 = Ok [3; 5] /\
  @PendingBuilds sample_codec d2 = Ok [example_build 3; example_build 5].
Proof. repeat split; vm_compute; reflexivity. Qed.

(** * Further properties of the code *)

(** ** The byte order of IDs *)

Lemma be_value_inj a b :
  List.length a = List.length b -> be_value a = be_value b -> a = b.
Proof.
  intros Hl E. apply bytes_compare_eq. rewrite bytes_compare_be_value by exact Hl.
  rewrite E. apply Z.compare_refl.
Qed.

Lemma itob_be_value l : List.length l = 8%nat -> itob (be_value l) = l.
Proof.
  intros Hl. pose proof (be_value_range l) as Hr. rewrite Hl in Hr.
  change (256 ^ Z.of_nat 8) with (2 ^ 64) in Hr.
  apply be_value_inj; [rewrite Hl; reflexivity|].
  apply be_value_itob, Hr.
Qed.

Lemma btoi_prefix b0 b1 b2 b3 b4 b5 b6 b7 rest :
  btoi (b0 :: b1 :: b2 :: b3 :: b4 :: b5 :: b6 :: b7 :: rest)
  = btoi [b0; b1; b2; b3; b4; b5; b6; b7].
Proof. reflexivity. Qed.

(** X1: [btoi] undoes [itob]: for every integer [v], [btoi (itob v)] is [v]
    as a [uint64]. *)
Theorem btoi_of_itob (v : Z) : btoi (itob v) = Some (uint64 v).
Proof.
  rewrite <- itob_uint64. apply btoi_itob, uint64_range.
Qed.

(** X2: [btoi] panics exactly on a slice shorter than eight bytes; on a
    longer one it returns a [uint64] whose [itob] is the first eight bytes,
    whatever follows them. *)
Theorem btoi_reads_eight_bytes (b : bytes) :
  match btoi b with
  | None => (List.length b < 8)%nat
  | Some v => (8 <= List.length b)%nat /\ 0 <= v < 2 ^ 64 /\ itob v = firstn 8 b
  end.
Proof.
  destruct b as [|b0 [|b1 [|b2 [|b3 [|b4 [|b5 [|b6 [|b7 rest]]]]]]]];
    try (cbn; lia).
  rewrite btoi_prefix.
  set (l := [b0; b1; b2; b3; b4; b5; b6; b7]).
  assert (Hl : itob (be_value l) = l) by (apply itob_be_value; reflexivity).
  assert (Hr : 0 <= be_value l < 2 ^ 64) by (apply (be_value_range l)).
  pose proof (btoi_itob _ Hr) as Hb. rewrite Hl in Hb. rewrite Hb.
  split; [cbn; lia|]. split; [exact Hr|exact Hl].
Qed.

(** X3: the byte order of the 8-byte keys is the numeric order of the
    [uint64] values they encode, so a cursor visits keys made by [itob] in
    ascending numeric order and two values have the same key only when
    they are equal. *)
Theorem itob_order (a b : Z) :
  bytes_compare (itob a) (itob b) = (uint64 a ?= uint64 b) /\
  (itob a = itob b <-> uint64 a = uint64 b).
Proof.
  rewrite <- (itob_uint64 a), <- (itob_uint64 b).
  split.
  - apply bytes_compare_itob; apply uint64_range.
  - split.
    + apply itob_inj; apply uint64_range.
    + intros ->. reflexivity.
Qed.

(** ** More about what [CreateBuild] commits *)

Section CreateBuild_shape.

Context {codec : GobCodec}.

Lemma CreateBuild_update_shape build r x :
  CreateBuild_update build (writing r) = x ->
  let B0 := child buildBucket r in
  let id := uint64 (bolt.sequence B0 + 1) in
  let tk := itob (uint64 (T build)) in
  let rk := bytes_of_string (Ref build) in
  let TB0 := child tk (child refBucket r) in
  let FB0 := child rk TB0 in
  let rid := uint64 (bolt.sequence FB0 + 1) in
  failed_run x \/
  exists r' RB',
    x = Some ((None, set_ID build id), writing r') /\
    bytes_of_string (CommitSHA build) <> [] /\
    rk <> [] /\
    bolt.Bucket_Bucket r' refBucket = Some RB' /\
    bolt.Bucket_Bucket RB' tk
    = Some (set_child rk
              (bolt.MkBucket rid
                 (bolt.put_entry (itob rid) (bolt.Leaf (itob id)) (bolt.entries FB0)))
              (ensure rk TB0)).
Proof.
  intros Hx B0 id tk rk TB0 FB0 rid.
  unfold CreateBuild_update in Hx.
  run_create_tx Hx.
  run_next Hx. fold B0 id in Hx.
  erewrite bind_step in Hx by apply get_err_writing. cbv beta iota in Hx.
  destruct (gobEncode (set_ID build id)) as [buf|] eqn:Henc; [|dead_run Hx].
  run_put Hx.
  run_create_tx Hx.
  run_create Hx.
  run_next Hx.
  run_put Hx.
  run_create_tx Hx.
  run_create Hx. fold tk in Hx. fold TB0 in Hx.
  run_create Hx. fold rk in Hx. fold FB0 in Hx.
  run_next Hx. fold rid in Hx.
  run_put Hx.
  run_create_tx Hx.
  run_put Hx.
  cbn [CommitSHA Ref set_ID] in *.
  right. eexists _, _.
  split; [symmetry; exact Hx|].
  split; [assumption|]. split; [assumption|].
  split.
  - unfold bolt.Bucket_Bucket. find_key.
  - unfold bolt.Bucket_Bucket. find_key.
Qed.

Lemma CreateBuild_not_Panicked d t cloneURL ref commitSHA :
  fst (CreateBuild d t cloneURL ref commitSHA) <> Panicked.
Proof.
  unfold CreateBuild, update, bolt.Update, dispatch.
  fold (writing (bolt.committed d)).
  destruct (CreateBuild_update_shape
              (MkBuild 0 t cloneURL ref commitSHA BuildQueued None)
              (bolt.committed d) _ eq_refl) as [Hf|(r' & RB' & Hx & _)].
  - unfold failed_run in Hf.
    destruct (CreateBuild_update _ _) as [[[[e|] a] s]|]; try contradiction.
    + destruct (tx_err s); discriminate.
    + destruct (tx_err s); discriminate.
  - rewrite Hx. cbn. discriminate.
Qed.

Lemma CreateBuild_Ok_shape d t cloneURL ref commitSHA build d' :
  CreateBuild d t cloneURL ref commitSHA = (Ok build, d') ->
  let tk := itob (uint64 t) in
  let rk := bytes_of_string ref in
  let TB0 := child tk (child refBucket (bolt.committed d)) in
  let FB0 := child rk TB0 in
  let rid := uint64 (bolt.sequence FB0 + 1) in
  bytes_of_string commitSHA <> [] /\
  rk <> [] /\
  exists RB',
    bolt.Bucket_Bucket (bolt.committed d') refBucket = Some RB' /\
    bolt.Bucket_Bucket RB' tk
    = Some (set_child rk
              (bolt.MkBucket rid
                 (bolt.put_entry (itob rid) (bolt.Leaf (itob (ID build)))
                    (bolt.entries FB0)))
              (ensure rk TB0)).
Proof.
  intros H tk rk TB0 FB0 rid.
  unfold CreateBuild, update, bolt.Update, dispatch in H.
  fold (writing (bolt.committed d)) in H.
  destruct (CreateBuild_update_shape
              (MkBuild 0 t cloneURL ref commitSHA BuildQueued None)
              (bolt.committed d) _ eq_refl) as [Hf|Hok].
  - exfalso. unfold failed_run in Hf.
    destruct (CreateBuild_update _ _) as [[[[e|] a] s]|]; try contradiction.
    + destruct (tx_err s); discriminate.
    + destruct (tx_err s); [discriminate|congruence].
  - destruct Hok as (r1 & RB' & Hx & Hsha & Href & HRB & HTB).
    cbn [T CloneURL Ref CommitSHA set_ID Status db] in *.
    rewrite Hx in H. cbn in H. injection H as <- <-.
    cbn [bolt.committed ID].
    split; [exact Hsha|]. split; [exact Href|].
    exists RB'. split; assumption.
Qed.

(** X4: [CreateBuild] never panics, since every bucket it gets from a failed
    create is used through the guarded methods only; it keeps the file of
    the database, and when it returns an error the store is as it was. *)
Theorem CreateBuild_is_atomic (d : DB) (t : BuildType) (cloneURL ref commitSHA : string) :
  let r := CreateBuild d t cloneURL ref commitSHA in
  fst r <> Panicked /\
  bolt.file (snd r) = bolt.file d /\
  (forall err, fst r = Fail err -> snd r = d).
Proof.
  intros r. split; [apply CreateBuild_not_Panicked|].
  unfold r, CreateBuild, update, bolt.Update.
  destruct (dispatch _ _) as [[[[e|] a] t']|]; cbn; split;
    try reflexivity; try discriminate; intros; reflexivity.
Qed.

(** X5: with an empty commit SHA or an empty ref [CreateBuild] creates no
    build: bolt refuses a bucket without a name, so the call returns an
    error and leaves the store as it was. *)
Theorem CreateBuild_needs_names (d : DB) (t : BuildType) (cloneURL ref commitSHA : string) :
  commitSHA = ""%string \/ ref = ""%string ->
  exists err, CreateBuild d t cloneURL ref commitSHA = (Fail err, d).
Proof.
  intros Hempty.
  destruct (CreateBuild d t cloneURL ref commitSHA) as [o d'] eqn:E.
  pose proof (CreateBuild_not_Panicked d t cloneURL ref commitSHA) as Hp.
  rewrite E in Hp. cbn [fst] in Hp.
  destruct o as [build|err|]; [|exists err|contradiction].
  - exfalso. apply CreateBuild_Ok_shape in E. cbv zeta in E.
    destruct E as (Hsha & Href & _).
    destruct Hempty as [->| ->]; [apply Hsha|apply Href]; reflexivity.
  - destruct (CreateBuild_rollback d t cloneURL ref commitSHA) as [[b Hb]|Hs];
      rewrite E in *; cbn [fst snd] in *; [discriminate|subst; reflexivity].
Qed.

End CreateBuild_shape.

Lemma CreateBuild_needs_names_witness :
  exists err,
    @CreateBuild sample_codec (snd example_1) Push "https://host/r" "main" ""
    = (Fail err, snd example_1).
Proof.
  apply (@CreateBuild_needs_names sample_codec (snd example_1) Push
           "https://host/r" "main" ""). left. reflexivity.
Defined.

(** ** Hydrating IDs *)

Section Hydrate.

Context {codec : GobCodec}.

Lemma idsToBuilds_from_Ok d ids acc bs :
  idsToBuilds_from d ids acc = Ok bs <->
  exists bs', bs = acc ++ bs' /\ Forall2 (fun id b => DB_Build d id = Ok b) ids bs'.
Proof.
  revert acc. induction ids as [|id ids IH]; intros acc; cbn [idsToBuilds_from].
  - split.
    + intros [= <-]. exists []. rewrite app_nil_r. split; [reflexivity|constructor].
    + intros (bs' & -> & H). inversion H. rewrite app_nil_r. reflexivity.
  - destruct (DB_Build d id) as [b|e|] eqn:E.
    + rewrite IH. split.
      * intros (bs' & -> & H). exists (b :: bs'). rewrite <- app_assoc.
        split; [reflexivity|constructor; assumption].
      * intros (bs' & -> & H). inversion H as [|? b' ? bs'' Hb Hrest]; subst.
        rewrite E in Hb. injection Hb as <-.
        exists bs''. rewrite <- app_assoc. split; [reflexivity|exact Hrest].
    + split; [discriminate|]. intros (bs' & _ & H).
      inversion H as [|? b' ? bs'' Hb Hrest]; subst. congruence.
    + split; [discriminate|]. intros (bs' & _ & H).
      inversion H as [|? b' ? bs'' Hb Hrest]; subst. congruence.
Qed.

Lemma idsToBuilds_from_first_Fail d ids acc err :
  idsToBuilds_from d ids acc = Fail err ->
  exists pre id post,
    ids = pre ++ id :: post /\
    Forall (fun x => exists b, DB_Build d x = Ok b) pre /\
    DB_Build d id = Fail err.
Proof.
  revert acc. induction ids as [|id ids IH]; intros acc; cbn [idsToBuilds_from].
  - discriminate.
  - destruct (DB_Build d id) as [b|e|] eqn:E.
    + intros H. destruct (IH _ H) as (pre & x & post & -> & Hpre & Hx).
      exists (id :: pre), x, post. split; [reflexivity|].
      split; [constructor; [exists b; exact E|exact Hpre]|exact Hx].
    + intros [= <-]. exists [], id, ids. split; [reflexivity|].
      split; [constructor|exact E].
    + discriminate.
Qed.

(** X6: [idsToBuilds] returns builds exactly when [Build] succeeds on every
    ID, and then the builds are those of the IDs, one for one and in the
    order of the IDs; when it returns an error, the error is that of the
    first ID on which [Build] fails. *)
Theorem idsToBuilds_all_or_first_error (d : DB) (ids : list Z) :
  (forall bs, idsToBuilds d ids = Ok bs
              <-> Forall2 (fun id b => DB_Build d id = Ok b) ids bs) /\
  (forall err, idsToBuilds d ids = Fail err ->
     exists pre id post,
       ids = pre ++ id :: post /\
       Forall (fun x => exists b, DB_Build d x = Ok b) pre /\
       DB_Build d id = Fail err).
Proof.
  split.
  - intros bs. unfold idsToBuilds. rewrite idsToBuilds_from_Ok. cbn [app]. split.
    + intros (bs' & -> & H). exact H.
    + intros H. exists bs. split; [reflexivity|exact H].
  - intros err. apply idsToBuilds_from_first_Fail.
Qed.

(** ** The refs of a build type *)

Lemma Refs_loop_acc c refs x : In x refs -> In x (Refs_loop c refs).
Proof.
  revert refs. induction c as [|[k [v|]] c IH]; intros refs H; cbn [Refs_loop].
  - exact H.
  - apply IH, H.
  - apply IH, in_or_app. left. exact H.
Qed.

Lemma Refs_loop_nested k c0 es refs :
  In (k, bolt.Nested c0) es ->
  In (string_of_list_byte k) (Refs_loop (map bolt.item es) refs).
Proof.
  revert refs. induction es as [|[k' n] es IH]; intros refs H; [contradiction|].
  destruct H as [[= -> ->]|H].
  - cbn [map bolt.item Refs_loop]. apply Refs_loop_acc, in_or_app.
    right. left. reflexivity.
  - cbn [map]. destruct n as [v|c1]; cbn [bolt.item Refs_loop]; apply IH, H.
Qed.

(** X7: once [CreateBuild] has returned a build of a build type and ref,
    [Refs] of that build type succeeds and lists the ref, whatever the store
    held before. *)
Theorem Refs_after_CreateBuild (d d' : DB) (t : BuildType)
    (cloneURL ref commitSHA : string) (build : Build) :
  CreateBuild d t cloneURL ref commitSHA = (Ok build, d') ->
  exists refs, Refs d' t = Ok refs /\ In ref refs.
Proof.
  intros H. apply CreateBuild_Ok in H. cbv zeta in H.
  destruct H as (_ & _ & buf & B' & RB' & TB' & _ & _ & _ & Href & _).
  destruct Href as (HRB & HTB & HFB & _).
  unfold Refs, bolt.View. cbn [bolt.root]. rewrite HRB, HTB.
  eexists. split; [reflexivity|].
  unfold bolt.Bucket_Bucket in HFB.
  destruct (bolt.find (bytes_of_string ref) (bolt.entries TB')) as [[v|c]|] eqn:E;
    try discriminate.
  apply find_Some_In in E.
  rewrite <- (string_of_list_byte_of_string ref).
  unfold bolt.Cursor_forward. eapply Refs_loop_nested. exact E.
Qed.

End Hydrate.

Lemma Refs_after_CreateBuild_witness :
  exists refs, Refs (snd example_1) Push = Ok refs /\ In "main"%string refs.
Proof.
  apply (@Refs_after_CreateBuild sample_codec (Open "ci.db") (snd example_1) Push
           "https://host/r" "main" "abc123" (example_build 1)).
  vm_compute. reflexivity.
Defined.

(** ** Buckets of a failed create *)

(** X8: the bucket [tx.CreateBucketIfNotExists] returns when the transaction
    holds an error has no bolt bucket: [Put], [Delete] and [NextSequence] on
    it return at once, but [Get] and [Cursor], which do not look at the
    error, dereference nil and panic. *)
Theorem failed_create_bucket (n : bytes) (s s' : tx) (b : bucket) :
  tx_CreateBucketIfNotExists n s = Some (b, s') ->
  tx_err s' <> None ->
  bucket_b b = None /\
  (forall k v, bucket_Put b k v s' = Some (tt, s')) /\
  (forall k, bucket_Delete b k s' = Some (tt, s')) /\
  bucket_NextSequence b s' = Some (0, s') /\
  (forall k, bucket_Get b k s' = None) /\
  bucket_Cursor b s' = None.
Proof.
  intros H Herr.
  assert (Hb : bucket_b b = None).
  { unfold tx_CreateBucketIfNotExists in H.
    destruct (tx_err s) eqn:Es.
    - injection H as <- <-. reflexivity.
    - destruct (bolt.Tx_CreateBucketIfNotExists n (tx_t s)) as [[e|bk] t'].
      + injection H as <- <-. reflexivity.
      + injection H as <- <-. cbn in Herr. congruence. }
  destruct (tx_err s') as [e|] eqn:Ee; [|congruence].
  repeat match goal with |- _ /\ _ => split end.
  - exact Hb.
  - intros k v. unfold bucket_Put. rewrite Ee. reflexivity.
  - intros k. unfold bucket_Delete. rewrite Ee. reflexivity.
  - unfold bucket_NextSequence. rewrite Ee. reflexivity.
  - intros k. unfold bucket_Get. rewrite Hb. reflexivity.
  - unfold bucket_Cursor. rewrite Hb. reflexivity.
Qed.

Lemma failed_create_bucket_witness :
  let s' := mk_tx (bolt.MkTx bolt.empty true) (Some ErrBucketNameRequired) in
  bucket_Get (mk_bucket None) (itob 1) s' = None.
Proof.
  intros s'.
  apply (failed_create_bucket [] (writing bolt.empty) s' (mk_bucket None)).
  - reflexivity.
  - discriminate.
Defined.

(** ** The store after a sequence of calls *)

Lemma put_entry_last k n es :
  (forall k', In k' (map fst es) -> bytes_compare k' k = Lt) ->
  bolt.put_entry k n es = es ++ [(k, n)].
Proof.
  induction es as [|[k0 n0] es IH]; intros H; cbn [bolt.put_entry app].
  - reflexivity.
  - rewrite bytes_compare_antisym, (H k0) by (left; reflexivity). cbn [CompOpp].
    rewrite IH; [reflexivity|]. intros k' Hk'. apply H. right. exact Hk'.
Qed.

Lemma numbered_app j ids id :
  numbered j (ids ++ [id])
  = numbered j ids ++ [(itob (j + Z.of_nat (List.length ids)), bolt.Leaf (itob id))].
Proof.
  revert j. induction ids as [|x ids IH]; intros j; cbn [numbered app List.length].
  - rewrite Z.add_0_r. reflexivity.
  - rewrite IH.
    replace (j + 1 + Z.of_nat (List.length ids))
      with (j + Z.of_nat (S (List.length ids))) by lia.
    reflexivity.
Qed.

Lemma numbered_keys j ids k :
  In k (map fst (numbered j ids)) ->
  exists i, k = itob i /\ j <= i < j + Z.of_nat (List.length ids).
Proof.
  revert j. induction ids as [|x ids IH]; intros j H; [contradiction|].
  cbn [numbered map fst List.length] in *. destruct H as [<-|H].
  - exists j. split; [reflexivity|lia].
  - destruct (IH _ H) as (i & E & Hi). exists i. split; [exact E|lia].
Qed.

Lemma odd_ids_S m : odd_ids (S m) = odd_ids m ++ [2 * Z.of_nat m + 1].
Proof. unfold odd_ids. rewrite seq_S, map_app. reflexivity. Qed.

Lemma odd_ids_In m x : In x (odd_ids m) -> exists k, x = 2 * k + 1 /\ 0 <= k < Z.of_nat m.
Proof.
  unfold odd_ids. intros H. apply in_map_iff in H. destruct H as (k & <- & Hk).
  apply in_seq in Hk. exists (Z.of_nat k). split; [reflexivity|lia].
Qed.

Lemma same_ref_true t ref c :
  same_ref t ref c = true ->
  itob (uint64 (call_T c)) = itob (uint64 t) /\ call_Ref c = ref.
Proof.
  unfold same_ref. intros H. apply andb_prop in H. destruct H as [H1 H2].
  apply Z.eqb_eq in H1. apply String.eqb_eq in H2. rewrite H1. split; [reflexivity|exact H2].
Qed.

Lemma same_ref_false t ref c :
  same_ref t ref c = false ->
  itob (uint64 (call_T c)) <> itob (uint64 t) \/
  bytes_of_string (call_Ref c) <> bytes_of_string ref.
Proof.
  unfold same_ref. intros H. apply andb_false_iff in H. destruct H as [H|H].
  - left. apply Z.eqb_neq in H. apply itob_neq; try apply uint64_range. exact H.
  - right. apply String.eqb_neq in H. intros E. apply H, bytes_of_string_inj, E.
Qed.

Lemma child_find_ext b b' k :
  bolt.find k (bolt.entries b') = bolt.find k (bolt.entries b) -> child k b' = child k b.
Proof. unfold child, bolt.Bucket_Bucket. intros ->. reflexivity. Qed.

Lemma ref_builds_app t ref log c b :
  ref_builds t ref (log ++ [(c, b)])
  = ref_builds t ref log ++ (if same_ref t ref c then [b] else []).
Proof.
  unfold ref_builds. rewrite filter_app, map_app. cbn [filter fst].
  destruct (same_ref t ref c); reflexivity.
Qed.

Lemma ref_builds_length t ref log :
  (List.length (ref_builds t ref log) <= List.length log)%nat.
Proof. unfold ref_builds. rewrite length_map. apply filter_length_le. Qed.

Section Logged.

Context {codec : GobCodec}.

Lemma logged_Open path : logged (Open path) [].
Proof.
  unfold logged. cbn.
  repeat match goal with |- _ /\ _ => split end; try reflexivity.
  - intros c b [].
  - intros t ref. split; reflexivity.
Qed.

Lemma logged_ID d log c b :
  logged d log -> In (c, b) log ->
  exists k, ID b = 2 * k + 1 /\ 0 <= k < Z.of_nat (List.length log).
Proof.
  intros (_ & Hids & _) Hin. apply odd_ids_In. rewrite <- Hids.
  apply (in_map (fun p => ID (snd p)) _ _ Hin).
Qed.

Lemma logged_create d log c b d' :
  logged d log ->
  2 * Z.of_nat (List.length log) + 2 < 2 ^ 64 ->
  CreateBuild d (call_T c) (call_CloneURL c) (call_Ref c) (call_CommitSHA c) = (Ok b, d') ->
  logged d' (log ++ [(c, b)]).
Proof.
  intros Inv Hbound H. pose proof Inv as (Hseq & Hids & Hrec & Hpend & Hrefs).
  apply CreateBuild_Ok in H. cbv zeta in H.
  destruct H as (Hfile & Hb & buf & B' & RB' & TB' & Henc & HB & _ & Href & HP & _).
  destruct HB as (HB & Hseq' & Hnew & Hjunk & Hsub & Hnoleaf & Hframe).
  destruct Href as (HRB & HTB & HFB & Htypes & Hkeep).
  set (m := List.length log) in *.
  rewrite Hseq in *.
  assert (Hid : uint64 (2 * Z.of_nat m + 1) = 2 * Z.of_nat m + 1)
    by (apply uint64_small; lia).
  rewrite Hid in *.
  set (id := 2 * Z.of_nat m + 1) in *.
  assert (Hj : uint64 (id + 1) = 2 * Z.of_nat m + 2)
    by (rewrite uint64_small by (unfold id; lia); unfold id; lia).
  rewrite Hj in *.
  assert (HID : ID b = id) by (rewrite Hb; reflexivity).
  apply gob_round_trip in Henc. cbn [set_db ID T CloneURL Ref CommitSHA Status] in Henc.
  assert (Hlen : List.length (log ++ [(c, b)]) = S m)
    by (rewrite length_app; cbn; unfold m; lia).
  unfold logged. rewrite Hlen.
  rewrite (child_of_Bucket_Bucket _ _ _ HB), (child_of_Bucket_Bucket _ _ _ HP),
    (child_of_Bucket_Bucket _ _ _ HRB).
  cbn [bolt.entries bolt.sequence].
  repeat match goal with |- _ /\ _ => split end.
  - rewrite Hseq'. lia.
  - rewrite map_app, Hids, odd_ids_S. cbn [map snd]. rewrite HID. reflexivity.
  - intros c' b' Hin. apply in_app_or in Hin. destruct Hin as [Hin|[[= <- <-]|[]]].
    + destruct (Hrec c' b' Hin) as (Hb' & buf' & Hf' & Hd').
      destruct (logged_ID _ _ _ _ Inv Hin) as (k & Hk & Rk). fold m in Rk.
      split; [rewrite Hfile; exact Hb'|].
      exists buf'. split; [|exact Hd'].
      rewrite Hframe; [exact Hf'| | |].
      * apply itob_neq; unfold id; lia.
      * apply itob_neq; lia.
      * intros E. eapply Hnoleaf. rewrite <- E. exact Hf'.
    + split; [rewrite Hfile, HID; exact Hb|].
      exists buf. rewrite HID. split; [exact Hnew|].
      rewrite Henc, Hb. reflexivity.
  - rewrite map_app. cbn [map snd]. rewrite HID, <- Hpend.
    apply put_entry_last. intros k' Hk'. rewrite Hpend, map_map in Hk'.
    cbn [fst] in Hk'. apply in_map_iff in Hk'. destruct Hk' as ([c' b'] & <- & Hin).
    destruct (logged_ID _ _ _ _ Inv Hin) as (k & Hk & Rk). fold m in Rk.
    cbn [snd]. rewrite bytes_compare_itob by (unfold id; lia).
    apply Z.compare_lt_iff. unfold id. lia.
  - intros t ref. cbv zeta.
    rewrite ref_builds_app.
    destruct (Hrefs t ref) as (Hfs & Hfe).
    destruct (same_ref t ref c) eqn:Es.
    + apply same_ref_true in Es. destruct Es as [Et Er].
      rewrite <- Et, <- Er.
      rewrite (child_of_Bucket_Bucket _ _ _ HTB), (child_of_Bucket_Bucket _ _ _ HFB).
      rewrite <- Et, <- Er in Hfs, Hfe.
      pose proof (ref_builds_length t ref log) as Hle. fold m in Hle.
      rewrite Et, Er in *.
      set (n := List.length (ref_builds t ref log)) in *.
      rewrite Hfs, Hfe.
      assert (Hrid : uint64 (Z.of_nat n + 1) = Z.of_nat n + 1)
        by (apply uint64_small; lia).
      rewrite Hrid. cbn [bolt.sequence bolt.entries].
      rewrite length_app, map_app. cbn [List.length map]. fold n.
      split; [lia|].
      rewrite numbered_app, length_map. fold n. rewrite HID.
      rewrite (Z.add_comm 1). apply put_entry_last.
      intros k' Hk'. apply numbered_keys in Hk'. destruct Hk' as (i & -> & Hi).
      rewrite length_map in Hi. fold n in Hi.
      rewrite bytes_compare_itob by lia. apply Z.compare_lt_iff. lia.
    + rewrite app_nil_r. apply same_ref_false in Es.
      destruct (list_eq_dec Byte.byte_eq_dec (itob (uint64 t)) (itob (uint64 (call_T c))))
        as [Et|Et].
      * destruct Es as [Es|Es]; [congruence|].
        rewrite Et, (child_of_Bucket_Bucket _ _ _ HTB).
        rewrite (child_find_ext _ _ _ (Hkeep _ (not_eq_sym Es))).
        rewrite <- Et. split; assumption.
      * rewrite (child_find_ext _ _ _ (Htypes _ Et)). split; assumption.
Qed.

Lemma logged_creates cs d log :
  logged d log ->
  Z.of_nat (List.length log + List.length cs) < 2 ^ 63 ->
  logged (creates cs d) (log ++ created cs d).
Proof.
  revert d log. induction cs as [|c cs IH]; intros d log Inv Hbound.
  - cbn. rewrite app_nil_r. exact Inv.
  - cbn [creates fold_left created]. unfold create at 2.
    cbn [List.length] in Hbound.
    destruct (CreateBuild_rollback d (call_T c) (call_CloneURL c) (call_Ref c)
                (call_CommitSHA c)) as [[b Hok]|Hsame];
      destruct (CreateBuild d (call_T c) (call_CloneURL c) (call_Ref c)
                  (call_CommitSHA c)) as [o d'] eqn:E; cbn [fst snd] in *.
    + subst o.
      replace (log ++ (c, b) :: created cs d') with ((log ++ [(c, b)]) ++ created cs d')
        by (rewrite <- app_assoc; reflexivity).
      apply IH.
      * eapply logged_create; [exact Inv|lia|exact E].
      * rewrite length_app. cbn [List.length]. lia.
    + subst d'. destruct o as [b| |].
      * replace (log ++ (c, b) :: created cs d) with ((log ++ [(c, b)]) ++ created cs d)
          by (rewrite <- app_assoc; reflexivity).
        apply IH.
        -- eapply logged_create; [exact Inv|lia|exact E].
        -- rewrite length_app. cbn [List.length]. lia.
      * apply IH; [exact Inv|lia].
      * apply IH; [exact Inv|lia].
Qed.

Lemma created_length cs d : (List.length (created cs d) <= List.length cs)%nat.
Proof.
  revert d. induction cs as [|c cs IH]; intros d; cbn [created List.length]; [lia|].
  destruct (CreateBuild d _ _ _ _) as [[b| |] d']; cbn [List.length];
    specialize (IH d'); lia.
Qed.

Lemma logged_history cs path :
  Z.of_nat (List.length cs) < 2 ^ 63 ->
  logged (creates cs (Open path)) (created cs (Open path)).
Proof.
  intros Hbound. apply (logged_creates cs (Open path) []).
  - apply logged_Open.
  - cbn [List.length]. lia.
Qed.

End Logged.

(** ** Reading the store after a sequence of calls *)

Lemma Forall2_map_l {A B : Type} (R : A -> B -> Prop) (f : B -> A) l :
  (forall b, In b l -> R (f b) b) -> Forall2 R (map f l) l.
Proof.
  induction l as [|b l IH]; intros H; cbn [map]; constructor.
  - apply H. left. reflexivity.
  - apply IH. intros b' Hb'. apply H. right. exact Hb'.
Qed.

Lemma child_empty k : child k bolt.empty = bolt.empty.
Proof. reflexivity. Qed.

Lemma numbered_values j ids :
  map snd (map bolt.item (numbered j ids)) = map (fun id => Some (itob id)) ids.
Proof.
  revert j. induction ids as [|id ids IH]; intros j; cbn [numbered map]; [reflexivity|].
  rewrite IH. reflexivity.
Qed.

Lemma refBuilds_loop_values end_ diff c l acc :
  map snd c = map (fun id => Some (itob id)) l ->
  Forall (fun id => 0 <= id < 2 ^ 64) l ->
  refBuilds_loop end_ diff c acc
  = Some (acc ++ kept end_ (diff - Z.of_nat (List.length acc)) l).
Proof.
  revert l acc. induction c as [|[k v] c IH]; intros l acc Hm Hr.
  - destruct l; [|discriminate]. cbn [refBuilds_loop]. unfold kept.
    destruct (end_ =? -1); rewrite ?firstn_nil, app_nil_r; reflexivity.
  - destruct l as [|id l]; [discriminate|]. cbn [map snd] in Hm.
    injection Hm as -> Hm. inversion Hr as [|? ? Hid Hr']; subst.
    cbn [refBuilds_loop]. unfold kept.
    destruct (Z.eqb_spec end_ (-1)) as [->|Hne]; cbn [orb].
    + cbn [btoi_value]. rewrite btoi_itob by exact Hid.
      rewrite (IH l (acc ++ [id]) Hm Hr'). unfold kept. cbn [Z.eqb].
      rewrite <- app_assoc. reflexivity.
    + destruct (Z.ltb_spec (Z.of_nat (List.length acc)) diff) as [Hlt|Hge].
      * cbn [btoi_value]. rewrite btoi_itob by exact Hid.
        rewrite (IH l (acc ++ [id]) Hm Hr'). unfold kept.
        destruct (Z.eqb_spec end_ (-1)); [contradiction|].
        rewrite length_app. cbn [List.length].
        replace (Z.to_nat (diff - Z.of_nat (List.length acc)))
          with (S (Z.to_nat (diff - Z.of_nat (List.length acc + 1)))) by lia.
        cbn [firstn]. rewrite <- app_assoc. reflexivity.
      * replace (Z.to_nat (diff - Z.of_nat (List.length acc))) with O by lia.
        cbn [firstn]. rewrite app_nil_r. reflexivity.
Qed.

Lemma pendingBuilds_loop_logged (log : list (call * Build)) acc :
  Forall (fun p => 0 <= ID (snd p) < 2 ^ 64) log ->
  pendingBuilds_loop
    (map bolt.item (map (fun p => (itob (ID (snd p)), bolt.Leaf [])) log)) acc
  = Some (acc ++ map (fun p => ID (snd p)) log).
Proof.
  revert acc. induction log as [|p log IH]; intros acc Hr; cbn [map pendingBuilds_loop bolt.item].
  - rewrite app_nil_r. reflexivity.
  - inversion Hr as [|? ? Hp Hr']; subst.
    rewrite btoi_itob by exact Hp. rewrite IH by exact Hr'.
    rewrite <- app_assoc. reflexivity.
Qed.

Lemma int_small v : - 2 ^ 63 <= v < 2 ^ 63 -> int v = v.
Proof. intros H. unfold int. rewrite Z.mod_small by lia. lia. Qed.

Section Logged_read.

Context {codec : GobCodec}.

Lemma logged_range d log :
  logged d log ->
  Z.of_nat (List.length log) < 2 ^ 63 ->
  Forall (fun p => 0 <= ID (snd p) < 2 ^ 64) log.
Proof.
  intros Inv Hb. apply Forall_forall. intros [c b] Hin.
  destruct (logged_ID _ _ _ _ Inv Hin) as (k & Hk & Rk). cbn [snd]. lia.
Qed.

Lemma logged_DB_Build d log c b :
  logged d log -> In (c, b) log -> DB_Build d (ID b) = Ok b.
Proof.
  intros (_ & _ & Hrec & _) Hin.
  destruct (Hrec c b Hin) as (Hb & buf & Hf & Hd).
  erewrite DB_Build_stored; [| |exact Hf|exact Hd].
  - rewrite Hb at 2. rewrite Hb at 1. reflexivity.
  - unfold child in *.
    destruct (bolt.Bucket_Bucket (bolt.committed d) buildBucket); [reflexivity|].
    discriminate.
Qed.

Lemma logged_PendingBuilds d log :
  logged d log -> Z.of_nat (List.length log) < 2 ^ 63 ->
  pendingBuilds d = Ok (map (fun p => ID (snd p)) log) /\
  PendingBuilds d = Ok (map snd log).
Proof.
  intros Inv Hb. pose proof Inv as (_ & _ & _ & Hpend & _).
  assert (Hp : pendingBuilds d = Ok (map (fun p => ID (snd p)) log)).
  { unfold pendingBuilds, bolt.View. cbn [bolt.root]. unfold child in Hpend.
    destruct (bolt.Bucket_Bucket (bolt.committed d) pendingBucket) as [P|].
    - unfold bolt.Cursor_forward. rewrite Hpend.
      rewrite pendingBuilds_loop_logged by (eapply logged_range; eassumption).
      reflexivity.
    - destruct log; [reflexivity|discriminate]. }
  split; [exact Hp|].
  unfold PendingBuilds. rewrite Hp. unfold idsToBuilds.
  apply idsToBuilds_from_Ok. exists (map snd log). split; [reflexivity|].
  rewrite <- (map_map snd ID). apply Forall2_map_l.
  intros b Hin. apply in_map_iff in Hin. destruct Hin as ([c b'] & <- & Hin).
  eapply logged_DB_Build; eassumption.
Qed.

Lemma logged_refBuilds d log t ref start end_ :
  logged d log -> Z.of_nat (List.length log) < 2 ^ 63 ->
  refBuilds d t ref start end_
  = Ok (map ID (kept end_ (int (end_ - start)) (rev (ref_builds t ref log)))).
Proof.
  intros Inv Hb. pose proof Inv as (_ & _ & _ & _ & Hrefs).
  destruct (Hrefs t ref) as (_ & Hfe). cbv zeta in Hfe.
  assert (Hr : Forall (fun id => 0 <= id < 2 ^ 64) (rev (map ID (ref_builds t ref log)))).
  { apply Forall_forall. intros id Hin. apply in_rev in Hin.
    apply in_map_iff in Hin. destruct Hin as (b & <- & Hin).
    unfold ref_builds in Hin. apply in_map_iff in Hin.
    destruct Hin as ([c b'] & <- & Hin). apply filter_In in Hin. destruct Hin as [Hin _].
    pose proof (logged_range d log Inv Hb) as Hall. rewrite Forall_forall in Hall.
    apply (Hall _ Hin). }
  assert (Hkept : forall A B (f : A -> B) e n l, map f (kept e n l) = kept e n (map f l)).
  { intros A B f e n l. unfold kept. destruct (e =? -1); [reflexivity|].
    symmetry. apply firstn_map. }
  rewrite Hkept, map_rev.
  unfold refBuilds, bolt.View. cbn [bolt.root]. unfold child in Hfe.
  destruct (bolt.Bucket_Bucket (bolt.committed d) refBucket) as [RB|].
  - destruct (bolt.Bucket_Bucket RB (itob (uint64 t))) as [TB|].
    + destruct (bolt.Bucket_Bucket TB (bytes_of_string ref)) as [FB|].
      * unfold bolt.Cursor_backward, bolt.Cursor_forward. rewrite Hfe.
        erewrite refBuilds_loop_values; [|rewrite map_rev, numbered_values, <- map_rev; reflexivity|exact Hr].
        cbn [app List.length]. rewrite Z.sub_0_r. reflexivity.
      * cbn in Hfe. destruct (map ID (ref_builds t ref log)); [|discriminate].
        unfold kept. destruct (end_ =? -1); rewrite ?firstn_nil; reflexivity.
    + cbn in Hfe. destruct (map ID (ref_builds t ref log)); [|discriminate].
      unfold kept. destruct (end_ =? -1); rewrite ?firstn_nil; reflexivity.
  - cbn in Hfe. destruct (map ID (ref_builds t ref log)); [|discriminate].
    unfold kept. destruct (end_ =? -1); rewrite ?firstn_nil; reflexivity.
Qed.

Lemma kept_incl {A : Type} e n (l : list A) x : In x (kept e n l) -> In x l.
Proof.
  unfold kept. destruct (e =? -1); [auto|]. intros H.
  rewrite <- (firstn_skipn (Z.to_nat n) l). apply in_or_app. left. exact H.
Qed.

Lemma logged_RefBuilds d log t ref start end_ :
  logged d log -> Z.of_nat (List.length log) < 2 ^ 63 ->
  validate start end_ = None ->
  RefBuilds d t ref start end_
  = Ok (if start =? end_ then []
        else kept end_ (int (end_ - start)) (rev (ref_builds t ref log))).
Proof.
  intros Inv Hb Hv. unfold RefBuilds. rewrite Hv.
  destruct (start =? end_); [reflexivity|].
  rewrite (logged_refBuilds d log) by assumption.
  unfold idsToBuilds. apply idsToBuilds_from_Ok. eexists. split; [reflexivity|].
  apply Forall2_map_l. intros b Hin. apply kept_incl in Hin. apply in_rev in Hin.
  unfold ref_builds in Hin. apply in_map_iff in Hin.
  destruct Hin as ([c b'] & <- & Hin). apply filter_In in Hin. destruct Hin as [Hin _].
  eapply logged_DB_Build; eassumption.
Qed.

End Logged_read.

(** ** Builds created on a new store *)

Lemma StronglySorted_map_lt {A : Type} (f : A -> Z) l :
  StronglySorted Z.lt (map f l) -> StronglySorted (fun x y => f x < f y) l.
Proof.
  induction l as [|a l IH]; intros H; [constructor|].
  cbn [map] in H. inversion H as [|? ? Hs Hall]; subst.
  constructor; [apply IH, Hs|].
  rewrite Forall_forall in *. intros x Hx. apply Hall, in_map, Hx.
Qed.

Lemma StronglySorted_filter {A : Type} (R : A -> A -> Prop) (p : A -> bool) l :
  StronglySorted R l -> StronglySorted R (filter p l).
Proof.
  induction 1 as [|a l Hs IH Hall]; cbn [filter]; [constructor|].
  destruct (p a); [|exact IH].
  constructor; [exact IH|].
  rewrite Forall_forall in *. intros x Hx. apply filter_In in Hx. apply Hall, Hx.
Qed.

Lemma StronglySorted_app_one {A : Type} (R : A -> A -> Prop) l x :
  StronglySorted R l -> Forall (fun y => R y x) l -> StronglySorted R (l ++ [x]).
Proof.
  induction 1 as [|a l Hs IH Hall]; intros Hx; cbn [app].
  - constructor; constructor.
  - inversion Hx as [|? ? Hax Hx']; subst.
    constructor; [apply IH, Hx'|].
    apply Forall_app. split; [exact Hall|]. constructor; [exact Hax|constructor].
Qed.

Lemma StronglySorted_rev {A : Type} (R : A -> A -> Prop) l :
  StronglySorted R l -> StronglySorted (fun x y => R y x) (rev l).
Proof.
  induction 1 as [|a l Hs IH Hall]; cbn [rev]; [constructor|].
  apply StronglySorted_app_one; [exact IH|].
  rewrite Forall_forall in *. intros y Hy. apply Hall, in_rev, Hy.
Qed.

Lemma StronglySorted_firstn {A : Type} (R : A -> A -> Prop) n l :
  StronglySorted R l -> StronglySorted R (firstn n l).
Proof.
  intros H. revert n. induction H as [|a l Hs IH Hall]; intros [|n]; cbn [firstn];
    try constructor.
  - apply IH.
  - rewrite Forall_forall in *. intros x Hx. apply Hall.
    rewrite <- (firstn_skipn n l). apply in_or_app. left. exact Hx.
Qed.

Lemma StronglySorted_map_gt {A : Type} (f : A -> Z) l :
  StronglySorted (fun x y => f y < f x) l -> StronglySorted Z.gt (map f l).
Proof.
  induction 1 as [|a l Hs IH Hall]; cbn [map]; constructor; [exact IH|].
  rewrite Forall_forall in *. intros y Hy. apply in_map_iff in Hy.
  destruct Hy as (x & <- & Hx). apply Z.lt_gt, Hall, Hx.
Qed.

Lemma odd_ids_sorted m : StronglySorted Z.lt (odd_ids m).
Proof.
  induction m as [|m IH]; [constructor|].
  rewrite odd_ids_S. apply StronglySorted_app_one; [exact IH|].
  apply Forall_forall. intros y Hy. apply odd_ids_In in Hy.
  destruct Hy as (k & -> & Hk). lia.
Qed.

Section New_store.

Context {codec : GobCodec}.

Lemma created_bound cs d :
  Z.of_nat (List.length cs) < 2 ^ 63 ->
  Z.of_nat (List.length (created cs d)) < 2 ^ 63.
Proof. intros H. pose proof (created_length cs d). lia. Qed.

Lemma creates_file cs d : bolt.file (creates cs d) = bolt.file d.
Proof.
  revert d. induction cs as [|c cs IH]; intros d; [reflexivity|].
  unfold creates in *. cbn [fold_left]. rewrite IH.
  unfold create.
  destruct (CreateBuild_rollback d (call_T c) (call_CloneURL c) (call_Ref c)
              (call_CommitSHA c)) as [[b Hb]|Hs].
  - destruct (CreateBuild d (call_T c) (call_CloneURL c) (call_Ref c) (call_CommitSHA c))
      as [o d'] eqn:E.
    cbn [fst snd] in *. subst o. apply (CreateBuild_Ok _ _ _ _ _ _ _ E).
  - rewrite Hs. reflexivity.
Qed.

(** X9: on a new store the builds a sequence of calls creates have the IDs
    1, 3, 5, ... in the order of their creation: IDs start at 1, grow by two
    and a failed call uses none. *)
Theorem created_IDs (cs : list call) (path : string) :
  Z.of_nat (List.length cs) < 2 ^ 63 ->
  map (fun p => ID (snd p)) (created cs (Open path))
  = odd_ids (List.length (created cs (Open path))).
Proof.
  intros Hb. apply (logged_history cs path Hb).
Qed.

(** X10: a build that a call has returned stays readable: after any later
    calls, [Build] of its ID returns the build as it was returned, with the
    arguments of its call, the queued status and the database it is in. *)
Theorem created_builds_stay (cs : list call) (path : string) (c : call) (b : Build) :
  Z.of_nat (List.length cs) < 2 ^ 63 ->
  In (c, b) (created cs (Open path)) ->
  DB_Build (creates cs (Open path)) (ID b) = Ok b /\
  b = MkBuild (ID b) (call_T c) (call_CloneURL c) (call_Ref c) (call_CommitSHA c)
        BuildQueued (Some path).
Proof.
  intros Hb Hin. pose proof (logged_history cs path Hb) as Inv. split.
  - eapply logged_DB_Build; eassumption.
  - destruct Inv as (_ & _ & Hrec & _). destruct (Hrec c b Hin) as (Hbuild & _).
    rewrite creates_file in Hbuild. exact Hbuild.
Qed.

(** X11: with the operations of [db/db.go] alone every created build stays
    pending: after a sequence of calls on a new store [PendingBuilds] returns
    the created builds, all of them, in the order of their creation. *)
Theorem PendingBuilds_lists_created (cs : list call) (path : string) :
  Z.of_nat (List.length cs) < 2 ^ 63 ->
  PendingBuilds (creates cs (Open path)) = Ok (map snd (created cs (Open path))).
Proof.
  intros Hb.
  apply (logged_PendingBuilds _ _ (logged_history cs path Hb)).
  apply created_bound, Hb.
Qed.

(** X12: after a sequence of calls on a new store, [RefBuilds] with a valid
    range returns builds created with that build type and ref, newest first:
    none when [start = end], all of them when [end = -1], and else the
    [end - start] newest; [start] is not used as an offset. *)
Theorem RefBuilds_newest_first (cs : list call) (path : string)
    (t : BuildType) (ref : string) (start end_ : Z) :
  Z.of_nat (List.length cs) < 2 ^ 63 ->
  is_int start -> is_int end_ ->
  validate start end_ = None ->
  RefBuilds (creates cs (Open path)) t ref start end_
  = Ok (if start =? end_ then []
        else if end_ =? -1 then rev (ref_builds t ref (created cs (Open path)))
        else firstn (Z.to_nat (end_ - start))
               (rev (ref_builds t ref (created cs (Open path))))).
Proof.
  intros Hb Hs He Hv.
  rewrite (logged_RefBuilds _ _ t ref start end_ (logged_history cs path Hb)
             (created_bound cs _ Hb) Hv).
  unfold kept. destruct (start =? end_); [reflexivity|].
  destruct (Z.eqb_spec end_ (-1)); [reflexivity|].
  rewrite int_small; [reflexivity|].
  unfold validate in Hv. unfold is_int in *.
  destruct (Z.ltb_spec start 0); [discriminate|].
  destruct (Z.ltb_spec end_ (-1)); [discriminate|].
  destruct (Z.geb_spec end_ 0); destruct (Z.gtb_spec start end_);
    cbn [andb] in Hv; try discriminate; lia.
Qed.

Lemma ref_builds_sorted t ref (log : list (call * Build)) :
  map (fun p => ID (snd p)) log = odd_ids (List.length log) ->
  StronglySorted (fun x y => ID y < ID x) (rev (ref_builds t ref log)).
Proof.
  intros Hids. apply (StronglySorted_rev (fun x y => ID x < ID y)).
  apply StronglySorted_map_lt. unfold ref_builds. rewrite map_map.
  assert (H : StronglySorted (fun x y : call * Build => ID (snd x) < ID (snd y)) log).
  { apply (StronglySorted_map_lt (fun p => ID (snd p))). rewrite Hids.
    apply odd_ids_sorted. }
  apply (StronglySorted_filter _ (fun p => same_ref t ref (fst p))) in H.
  clear Hids. induction H as [|a l Hs IH Hall]; cbn [map]; constructor; [exact IH|].
  rewrite Forall_forall in *. intros y Hy. apply in_map_iff in Hy.
  destruct Hy as (x & <- & Hx). apply Hall, Hx.
Qed.

(** X13: the builds [RefBuilds] returns after a sequence of calls on a new
    store are in strictly descending order of ID, and there are as many as
    the ref has when [end = -1], and else [end - start] or as many as the ref
    has, whichever is less. *)
Theorem RefBuilds_descending (cs : list call) (path : string)
    (t : BuildType) (ref : string) (start end_ : Z) :
  Z.of_nat (List.length cs) < 2 ^ 63 ->
  is_int start -> is_int end_ ->
  validate start end_ = None ->
  exists bs,
    RefBuilds (creates cs (Open path)) t ref start end_ = Ok bs /\
    StronglySorted Z.gt (map ID bs) /\
    List.length bs
    = (if end_ =? -1
       then List.length (ref_builds t ref (created cs (Open path)))
       else Nat.min (Z.to_nat (end_ - start))
              (List.length (ref_builds t ref (created cs (Open path))))).
Proof.
  intros Hb Hs He Hv.
  rewrite (logged_RefBuilds _ _ t ref start end_ (logged_history cs path Hb)
             (created_bound cs _ Hb) Hv).
  eexists. split; [reflexivity|].
  pose proof (ref_builds_sorted t ref (created cs (Open path))
                (proj1 (proj2 (logged_history cs path Hb)))) as Hsorted.
  assert (Hint : end_ <> -1 -> int (end_ - start) = end_ - start).
  { intros Hne. apply int_small.
    unfold validate in Hv. unfold is_int in *.
    destruct (Z.ltb_spec start 0); [discriminate|].
    destruct (Z.ltb_spec end_ (-1)); [discriminate|].
    destruct (Z.geb_spec end_ 0); destruct (Z.gtb_spec start end_);
      cbn [andb] in Hv; try discriminate; lia. }
  assert (Hse : start = end_ -> end_ <> -1).
  { intros <-. unfold validate in Hv.
    destruct (Z.ltb_spec start 0); [discriminate|lia]. }
  unfold kept.
  destruct (Z.eqb_spec start end_) as [E|E].
  - split; [constructor|]. specialize (Hse E).
    destruct (Z.eqb_spec end_ (-1)); [contradiction|].
    subst. rewrite Z.sub_diag. reflexivity.
  - destruct (Z.eqb_spec end_ (-1)) as [E1|E1].
    + split; [apply StronglySorted_map_gt, Hsorted|apply length_rev].
    + rewrite (Hint E1). split.
      * apply StronglySorted_map_gt, StronglySorted_firstn, Hsorted.
      * rewrite length_firstn, length_rev. reflexivity.
Qed.

End New_store.

Lemma created_IDs_witness :
  map (fun p => ID (snd p)) (@created sample_codec example_calls (Open "ci.db"))
  = odd_ids (List.length (@created sample_codec example_calls (Open "ci.db"))).
Proof. apply (@created_IDs sample_codec example_calls "ci.db"). reflexivity. Defined.

Lemma created_builds_stay_witness :
  let c := MkCall Push "https://host/r" "main" "abc123" in
  let b := example_build 1 in
  @DB_Build sample_codec (@creates sample_codec example_calls (Open "ci.db")) (ID b) = Ok b /\
  b = MkBuild (ID b) (call_T c) (call_CloneURL c) (call_Ref c) (call_CommitSHA c)
        BuildQueued (Some "ci.db"%string).
Proof.
  intros c b.
  apply (@created_builds_stay sample_codec example_calls "ci.db" c b).
  - reflexivity.
  - vm_compute. left. reflexivity.
Defined.

Lemma PendingBuilds_lists_created_witness :
  @PendingBuilds sample_codec (@creates sample_codec example_calls (Open "ci.db"))
  = Ok (map snd (@created sample_codec example_calls (Open "ci.db"))).
Proof.
  apply (@PendingBuilds_lists_created sample_codec example_calls "ci.db"). reflexivity.
Defined.

Lemma RefBuilds_newest_first_witness :
  @RefBuilds sample_codec (@creates sample_codec example_calls (Open "ci.db"))
    Push "main" 1 2
  = Ok (firstn 1 (rev (ref_builds Push "main"
                         (@created sample_codec example_calls (Open "ci.db"))))).
Proof.
  apply (@RefBuilds_newest_first sample_codec example_calls "ci.db" Push "main" 1 2).
  - reflexivity.
  - unfold is_int. lia.
  - unfold is_int. lia.
  - reflexivity.
Defined.

Lemma RefBuilds_descending_witness :
  exists bs,
    @RefBuilds sample_codec (@creates sample_codec example_calls (Open "ci.db"))
      Push "main" 0 (-1) = Ok bs /\
    StronglySorted Z.gt (map ID bs) /\
    List.length bs
    = List.length (ref_builds Push "main"
                     (@created sample_codec example_calls (Open "ci.db"))).
Proof.
  apply (@RefBuilds_descending sample_codec example_calls "ci.db" Push "main" 0 (-1)).
  - reflexivity.
  - unfold is_int. lia.
  - unfold is_int. lia.
  - reflexivity.
Defined.

(** ** What the store holds besides *)

Lemma put_entry_nested k c es :
  Forall (fun e : bytes * bolt.Node => exists c, snd e = bolt.Nested c) es ->
  Forall (fun e : bytes * bolt.Node => exists c, snd e = bolt.Nested c)
    (bolt.put_entry k (bolt.Nested c) es).
Proof.
  induction 1 as [|[k0 n0] es H0 Hs IH]; cbn [bolt.put_entry].
  - constructor; [eexists; reflexivity|constructor].
  - destruct (bytes_compare k k0).
    + constructor; [eexists; reflexivity|exact Hs].
    + constructor; [eexists; reflexivity|]. constructor; assumption.
    + constructor; assumption.
Qed.

Lemma Refs_loop_all_nested es refs :
  Forall (fun e : bytes * bolt.Node => exists c, snd e = bolt.Nested c) es ->
  Refs_loop (map bolt.item es) refs = refs ++ map string_of_list_byte (map fst es).
Proof.
  intros H. revert refs. induction H as [|[k n] es [c Hc] Hs IH]; intros refs.
  - cbn. rewrite app_nil_r. reflexivity.
  - cbn [snd] in Hc. subst n. cbn [map bolt.item Refs_loop fst].
    rewrite IH, <- app_assoc. reflexivity.
Qed.

Section Created_induction.

Context {codec : GobCodec}.

Variable I : DB -> list (call * Build) -> Prop.

Hypothesis I_create : forall d log c b d',
  I d log ->
  CreateBuild d (call_T c) (call_CloneURL c) (call_Ref c) (call_CommitSHA c) = (Ok b, d') ->
  I d' (log ++ [(c, b)]).

Lemma created_induction cs d log : I d log -> I (creates cs d) (log ++ created cs d).
Proof.
  revert d log. induction cs as [|c cs IH]; intros d log Inv.
  - cbn. rewrite app_nil_r. exact Inv.
  - cbn [creates fold_left created]. unfold create at 2.
    destruct (CreateBuild_rollback d (call_T c) (call_CloneURL c) (call_Ref c)
                (call_CommitSHA c)) as [[b Hok]|Hsame];
      destruct (CreateBuild d (call_T c) (call_CloneURL c) (call_Ref c)
                  (call_CommitSHA c)) as [o d'] eqn:E; cbn [fst snd] in *.
    + subst o.
      replace (log ++ (c, b) :: created cs d') with ((log ++ [(c, b)]) ++ created cs d')
        by (rewrite <- app_assoc; reflexivity).
      apply IH. eapply I_create; eassumption.
    + subst d'. destruct o as [b| |].
      * replace (log ++ (c, b) :: created cs d) with ((log ++ [(c, b)]) ++ created cs d)
          by (rewrite <- app_assoc; reflexivity).
        apply IH. eapply I_create; eassumption.
      * apply IH, Inv.
      * apply IH, Inv.
Qed.

End Created_induction.

Section Listed.

Context {codec : GobCodec}.

Lemma refs_listed_create d log c b d' :
  refs_listed d log ->
  CreateBuild d (call_T c) (call_CloneURL c) (call_Ref c) (call_CommitSHA c) = (Ok b, d') ->
  refs_listed d' (log ++ [(c, b)]).
Proof.
  intros Inv H t. cbv zeta.
  pose proof (CreateBuild_Ok_shape _ _ _ _ _ _ _ H) as Hshape. cbv zeta in Hshape.
  destruct Hshape as (_ & _ & RB' & HRB & HTB).
  apply CreateBuild_Ok in H. cbv zeta in H.
  destruct H as (_ & _ & buf & B' & RB1 & TB' & _ & _ & _ & Href & _).
  destruct Href as (HRB1 & _ & _ & Htypes & _).
  rewrite HRB in HRB1. injection HRB1 as <-.
  rewrite (child_of_Bucket_Bucket _ _ _ HRB).
  destruct (Inv t) as (Hn & Ha & Hk). cbv zeta in Hn, Ha, Hk.
  destruct (list_eq_dec Byte.byte_eq_dec (itob (uint64 t)) (itob (uint64 (call_T c))))
    as [Et|Et].
  - rewrite Et, (child_of_Bucket_Bucket _ _ _ HTB). rewrite Et in Hn, Ha, Hk.
    set (TB0 := child (itob (uint64 (call_T c))) (child refBucket (bolt.committed d))) in *.
    assert (Eu : uint64 (call_T c) = uint64 t).
    { symmetry. apply itob_inj; [apply uint64_range|apply uint64_range|].
      rewrite !itob_uint64. rewrite !itob_uint64 in Et. exact Et. }
    assert (He : Forall (fun e : bytes * bolt.Node => exists c, snd e = bolt.Nested c)
                   (bolt.entries (ensure (bytes_of_string (call_Ref c)) TB0)) /\
                 ascending_keys (keys (ensure (bytes_of_string (call_Ref c)) TB0)) /\
                 (forall k, In k (keys (ensure (bytes_of_string (call_Ref c)) TB0)) ->
                            k = bytes_of_string (call_Ref c) \/ In k (keys TB0)) /\
                 (forall k, In k (keys TB0) ->
                            In k (keys (ensure (bytes_of_string (call_Ref c)) TB0)))).
    { unfold ensure.
      destruct (bolt.Bucket_Bucket TB0 (bytes_of_string (call_Ref c))).
      - repeat match goal with |- _ /\ _ => split end; auto.
      - unfold set_child, keys. cbn [bolt.entries].
        repeat match goal with |- _ /\ _ => split end.
        + apply put_entry_nested, Hn.
        + apply ascending_keys_put, Ha.
        + intros k Hin. apply keys_put_entry in Hin. exact Hin.
        + intros k Hin. apply keys_put_entry. right. exact Hin. }
    destruct He as (Hn' & Ha' & Hk1 & Hk2).
    unfold set_child, keys. cbn [bolt.entries].
    repeat match goal with |- _ /\ _ => split end.
    + apply put_entry_nested, Hn'.
    + apply ascending_keys_put, Ha'.
    + intros k. split.
      * intros Hin. apply keys_put_entry in Hin.
        assert (Hcases : k = bytes_of_string (call_Ref c) \/ In k (keys TB0)).
        { destruct Hin as [Hin|Hin]; [left; exact Hin|apply Hk1, Hin]. }
        destruct Hcases as [->|Hin'].
        -- exists c, b. split; [apply in_or_app; right; left; reflexivity|].
           split; [exact Eu|reflexivity].
        -- apply Hk in Hin'. destruct Hin' as (c' & b' & Hin' & Hc').
           exists c', b'. split; [apply in_or_app; left; exact Hin'|exact Hc'].
      * intros (c' & b' & Hin & Hu & ->). apply keys_put_entry.
        apply in_app_or in Hin. destruct Hin as [Hin|[[= <- <-]|[]]].
        -- right. apply Hk2, Hk. exists c', b'. auto.
        -- left. reflexivity.
  - rewrite (child_find_ext _ _ _ (Htypes _ Et)).
    split; [exact Hn|]. split; [exact Ha|].
    intros k. split.
    + intros Hin. apply Hk in Hin. destruct Hin as (c' & b' & Hin & Hc').
      exists c', b'. split; [apply in_or_app; left; exact Hin|exact Hc'].
    + intros (c' & b' & Hin & Hu & ->).
      apply in_app_or in Hin. destruct Hin as [Hin|[[= <- <-]|[]]].
      * apply Hk. exists c', b'. auto.
      * exfalso. apply Et. rewrite Hu. reflexivity.
Qed.

Lemma refs_listed_Open path : refs_listed (Open path) [].
Proof.
  intros t. cbn. split; [constructor|]. split; [exact Logic.I|].
  intros k. split; [intros []|intros (c & b & [] & _)].
Qed.

Lemma build_keys_create d log c b d' :
  build_keys d log ->
  CreateBuild d (call_T c) (call_CloneURL c) (call_Ref c) (call_CommitSHA c) = (Ok b, d') ->
  build_keys d' (log ++ [(c, b)]).
Proof.
  intros Inv H k n Hf.
  apply CreateBuild_Ok in H. cbv zeta in H.
  destruct H as (_ & Hb & buf & B' & RB' & TB' & _ & HB & _).
  destruct HB as (HB & _ & Hnew & Hjunk & Hsub & _ & Hframe).
  rewrite (child_of_Bucket_Bucket _ _ _ HB) in Hf.
  assert (HID : ID b = uint64 (bolt.sequence (child buildBucket (bolt.committed d)) + 1))
    by (rewrite Hb; reflexivity).
  rewrite <- HID in *.
  assert (Hlast : In (c, b) (log ++ [(c, b)])) by (apply in_or_app; right; left; reflexivity).
  destruct (list_eq_dec Byte.byte_eq_dec k (itob (ID b))) as [E1|E1].
  { left. exists c, b. split; [exact Hlast|exact E1]. }
  destruct (list_eq_dec Byte.byte_eq_dec k (itob (uint64 (ID b + 1)))) as [E2|E2].
  { right. left. exists c, b. subst k. rewrite Hjunk in Hf. injection Hf as <-.
    split; [exact Hlast|]. split; [apply itob_uint64|reflexivity]. }
  destruct (list_eq_dec Byte.byte_eq_dec k (bytes_of_string (call_CommitSHA c))) as [E3|E3].
  { right. right. subst k. rewrite Hsub in Hf. injection Hf as <-. eexists. reflexivity. }
  rewrite (Hframe k E1 E2 E3) in Hf.
  destruct (Inv k n Hf) as [(c' & b' & Hin & Hk)|[(c' & b' & Hin & Hk & Hn)|Hn]].
  - left. exists c', b'. split; [apply in_or_app; left; exact Hin|exact Hk].
  - right. left. exists c', b'. split; [apply in_or_app; left; exact Hin|]. split; assumption.
  - right. right. exact Hn.
Qed.

Lemma build_keys_Open path : build_keys (Open path) [].
Proof. intros k n Hf. discriminate. Qed.

(** X14: after a sequence of calls on a new store, [Refs] of a build type
    returns the refs of the builds created with that type and no others,
    each once, in ascending order of their bytes. *)
Theorem Refs_lists_created_refs (cs : list call) (path : string) (t : BuildType) :
  exists refs,
    Refs (creates cs (Open path)) t = Ok refs /\
    ascending_keys (map bytes_of_string refs) /\
    (forall ref, In ref refs <->
       exists c b, In (c, b) (created cs (Open path)) /\
                   uint64 (call_T c) = uint64 t /\ call_Ref c = ref).
Proof.
  pose proof (created_induction refs_listed refs_listed_create cs (Open path) []
                (refs_listed_Open path)) as Inv.
  cbn [app] in Inv. destruct (Inv t) as (Hn & Ha & Hk). cbv zeta in Hn, Ha, Hk.
  set (TB := child (itob (uint64 t))
               (child refBucket (bolt.committed (creates cs (Open path))))) in *.
  exists (map string_of_list_byte (keys TB)).
  assert (Hback : map bytes_of_string (map string_of_list_byte (keys TB)) = keys TB).
  { rewrite map_map. rewrite <- (map_id (keys TB)) at 2. apply map_ext.
    intros k. apply list_byte_of_string_of_list_byte. }
  repeat match goal with |- _ /\ _ => split end.
  - clear Ha Hk Hback. unfold Refs, bolt.View. cbn [bolt.root].
    subst TB. unfold child in *.
    destruct (bolt.Bucket_Bucket (bolt.committed (creates cs (Open path))) refBucket)
      as [RB|]; [|reflexivity].
    destruct (bolt.Bucket_Bucket RB (itob (uint64 t))) as [TB1|]; [|reflexivity].
    unfold bolt.Cursor_forward. rewrite (Refs_loop_all_nested _ _ Hn). reflexivity.
  - rewrite Hback. exact Ha.
  - intros ref. split.
    + intros Hin. apply (in_map bytes_of_string) in Hin. rewrite Hback in Hin.
      apply Hk in Hin. destruct Hin as (c & b & Hin & Hu & E).
      exists c, b. split; [exact Hin|]. split; [exact Hu|].
      symmetry. apply bytes_of_string_inj, E.
    + intros (c & b & Hin & Hu & <-).
      rewrite <- (string_of_list_byte_of_string (call_Ref c)).
      apply in_map. apply Hk. exists c, b. auto.
Qed.

(** X15: after fewer than 2^55 calls on a new store, [Build] returns a
    build for an ID exactly when a call has returned that build under that
    ID: the entries [CreateBuild] leaves under the even keys, which hold an
    8-byte ID, are refused by a decoder that refuses a leading zero byte. *)
Theorem Build_returns_created_only (cs : list call) (path : string) (id : Z) (b : Build) :
  Z.of_nat (List.length cs) < 2 ^ 55 ->
  DB_Build (creates cs (Open path)) id = Ok b <->
  (exists c, In (c, b) (created cs (Open path))) /\ ID b = uint64 id.
Proof.
  intros Hb55.
  assert (Hb : Z.of_nat (List.length cs) < 2 ^ 63) by lia.
  pose proof (logged_history cs path Hb) as Inv.
  pose proof (created_induction build_keys build_keys_create cs (Open path) []
                (build_keys_Open path)) as Keys.
  cbn [app] in Keys.
  pose proof (created_length cs (Open path)) as Hlen.
  set (d := creates cs (Open path)) in *. set (log := created cs (Open path)) in *.
  assert (Hrange : forall c' b', In (c', b') log -> 0 <= ID b' < 2 ^ 56 - 1).
  { intros c' b' Hin. destruct (logged_ID _ _ _ _ Inv Hin) as (k & Hk & Rk). lia. }
  split.
  - intros H. unfold DB_Build, bolt.View in H. cbn [bolt.root] in H.
    destruct (bolt.Bucket_Bucket (bolt.committed d) buildBucket) as [B|] eqn:EB;
      [|discriminate].
    unfold bolt.Bucket_Get in H.
    destruct (bolt.find (itob id) (bolt.entries B)) as [[v|c0]|] eqn:Ef; try discriminate.
    destruct (gobDecode v) as [build|] eqn:Ed; [|discriminate].
    injection H as <-.
    rewrite <- (child_of_Bucket_Bucket _ _ _ EB) in Ef.
    destruct (Keys _ _ Ef) as [(c' & b' & Hin & Hk)|[(c' & b' & Hin & Hk & Hn)|[c1 Hn]]].
    + destruct Inv as (_ & _ & Hrec & _).
      destruct (Hrec c' b' Hin) as (Hb' & buf & Hf & Hd).
      rewrite <- Hk, Ef in Hf. injection Hf as <-.
      rewrite Hd in Ed. injection Ed as <-.
      assert (E : set_db (set_db b' None) (Some (bolt.file d)) = b').
      { rewrite Hb' at 2. rewrite Hb' at 1. reflexivity. }
      rewrite E. split; [exists c'; exact Hin|].
      rewrite <- itob_uint64 in Hk. apply itob_inj in Hk.
      * symmetry. exact Hk.
      * apply uint64_range.
      * specialize (Hrange _ _ Hin). lia.
    + exfalso. injection Hn as ->.
      destruct (itob_leading_zero (ID b')) as [rest Hrest].
      * specialize (Hrange _ _ Hin). lia.
      * rewrite Hrest, gob_empty_message in Ed. discriminate.
    + discriminate.
  - intros [[c Hin] Hid].
    destruct Inv as (_ & _ & Hrec & _).
    destruct (Hrec c b Hin) as (Hb' & buf & Hf & Hd).
    rewrite Hid, itob_uint64 in Hf.
    destruct (bolt.Bucket_Bucket (bolt.committed d) buildBucket) as [B|] eqn:EB.
    + rewrite (child_of_Bucket_Bucket _ _ _ EB) in Hf.
      rewrite (DB_Build_stored d id B buf _ EB Hf Hd).
      rewrite Hb' at 2. rewrite Hb' at 1. reflexivity.
    + rewrite (child_of_no_Bucket _ _ EB) in Hf. discriminate.
Qed.

End Listed.

Lemma Build_returns_created_only_witness :
  @DB_Build sample_codec (@creates sample_codec example_calls (Open "ci.db")) 3
  = Ok (MkBuild 3 Push "https://host/r" "dev" "abc123" BuildQueued (Some "ci.db"%string))
  <->
  (exists c, In (c, MkBuild 3 Push "https://host/r" "dev" "abc123" BuildQueued
                      (Some "ci.db"%string))
               (@created sample_codec example_calls (Open "ci.db"))) /\
  ID (MkBuild 3 Push "https://host/r" "dev" "abc123" BuildQueued (Some "ci.db"%string))
  = uint64 3.
Proof.
  apply (@Build_returns_created_only sample_codec example_calls "ci.db" 3
           (MkBuild 3 Push "https://host/r" "dev" "abc123" BuildQueued
              (Some "ci.db"%string))).
  reflexivity.
Defined.

(** ** The reads of the indexes *)

Lemma btoi_None b : btoi b = None <-> (List.length b < 8)%nat.
Proof.
  split.
  - intros H.
    destruct b as [|b0 [|b1 [|b2 [|b3 [|b4 [|b5 [|b6 [|b7 rest]]]]]]]]; cbn [List.length];
      try lia.
    discriminate.
  - intros H.
    destruct b as [|b0 [|b1 [|b2 [|b3 [|b4 [|b5 [|b6 [|b7 rest]]]]]]]]; try reflexivity.
    cbn [List.length] in H. lia.
Qed.

Lemma pendingBuilds_loop_None c ids :
  pendingBuilds_loop c ids = None <->
  exists k, In k (map fst c) /\ (List.length k < 8)%nat.
Proof.
  revert ids. induction c as [|[k v] c IH]; intros ids; cbn [pendingBuilds_loop map fst].
  - split; [discriminate|intros (k & [] & _)].
  - destruct (btoi k) as [n|] eqn:E.
    + rewrite IH. split.
      * intros (k' & Hin & Hlen). exists k'. split; [right; exact Hin|exact Hlen].
      * intros (k' & [<-|Hin] & Hlen).
        -- apply btoi_None in Hlen. congruence.
        -- exists k'. split; assumption.
    + split; [|reflexivity]. intros _. exists k. split; [left; reflexivity|].
      apply btoi_None, E.
Qed.

Lemma Cursor_forward_keys b : map fst (bolt.Cursor_forward b) = keys b.
Proof.
  unfold bolt.Cursor_forward, keys. rewrite map_map. apply map_ext.
  intros [k [v|c]]; reflexivity.
Qed.

Section Index_reads.

Context {codec : GobCodec}.

(** X16: whatever calls of [CreateBuild] a new store has seen, [SHABuilds]
    returns no build for any commit SHA: the code never writes below the sha
    bucket. *)
Theorem SHABuilds_always_empty (cs : list call) (path : string) (sha : string) :
  SHABuilds (creates cs (Open path)) sha = Ok [].
Proof.
  apply (SHABuilds_indexed cs). apply creates_indexed.
Qed.

(** X17: on an open database [pendingBuilds] panics exactly when the pending
    bucket holds a key of fewer than 8 bytes, which [btoi] cannot read, and
    [PendingBuilds] panics with it. *)
Theorem pendingBuilds_panics_on_short_key (d : DB) :
  (pendingBuilds d = Panicked <->
   exists P k, bolt.Bucket_Bucket (bolt.committed d) pendingBucket = Some P /\
               In k (keys P) /\ (List.length k < 8)%nat) /\
  (pendingBuilds d = Panicked -> PendingBuilds d = Panicked).
Proof.
  unfold PendingBuilds, pendingBuilds, bolt.View. cbn [bolt.root].
  destruct (bolt.Bucket_Bucket (bolt.committed d) pendingBucket) as [P|].
  - destruct (pendingBuilds_loop (bolt.Cursor_forward P) []) as [ids|] eqn:E.
    + split; [|discriminate].
      split; [discriminate|]. intros (P' & k & [= <-] & Hin & Hlen). exfalso.
      assert (H : pendingBuilds_loop (bolt.Cursor_forward P) [] = None).
      { apply pendingBuilds_loop_None. exists k. rewrite Cursor_forward_keys. auto. }
      congruence.
    + split; [|reflexivity].
      split; [|reflexivity]. intros _.
      apply pendingBuilds_loop_None in E. destruct E as (k & Hin & Hlen).
      rewrite Cursor_forward_keys in Hin. exists P, k. auto.
  - split; [|discriminate].
    split; [discriminate|]. intros (P' & k & [=] & _).
Qed.

End Index_reads.
